(** * SCUMM-AI: the game session state machine, its sanitizer and its
      structured-reply repair, embedded from [src/App.tsx] and
      [services/gemini.ts].

    Strings are JavaScript strings: finite sequences of UTF-16 code
    units.  The platform functions the program calls ([trim], [indexOf],
    [substring], the regular expressions of the sanitizer, [JSON.parse])
    are written out below; the Unicode case mappings are an interface
    ([CaseMapping]). *)

From Stdlib Require Import String Ascii List ZArith NArith Bool Lia.
From stdpp Require Import base option list countable gmap.
Import ListNotations.

Set Default Proof Using "Type".
Set Warnings "-register-all".

(** ** JavaScript strings *)

Module JS.

(** A string is its sequence of code units. *)
Abbreviation jsstring := (list N).

Definition ch (a : ascii) : N := N_of_ascii a.

(** Code units of a source literal: the bytes of the literal are UTF-8
    and are decoded to UTF-16 (one, two and three byte sequences; the
    literals of the program have no others). *)
Fixpoint utf8_decode (bs : list N) : jsstring :=
  match bs with
  | [] => []
  | b :: r =>
    if (b <? 192)%N then b :: utf8_decode r
    else if (b <? 224)%N then
      match r with
      | c :: r' => ((b - 192) * 64 + (c - 128))%N :: utf8_decode r'
      | [] => [b]
      end
    else
      match r with
      | c :: d :: r' =>
        ((b - 224) * 4096 + (c - 128) * 64 + (d - 128))%N :: utf8_decode r'
      | _ => b :: utf8_decode r
      end
  end.

Definition js (s : string) : jsstring :=
  utf8_decode (map ch (list_ascii_of_string s)).

(** The same, with every apostrophe of the literal standing for a
    double quote (code unit 34). *)
Definition jsq (s : string) : jsstring :=
  map (fun c => if (c =? 39)%N then 34%N else c) (js s).

Arguments js : simpl never.
Arguments jsq : simpl never.

(** Truthiness of a string: the empty string is falsy. *)
Definition truthyStr (s : jsstring) : bool :=
  match s with [] => false | _ => true end.

(** [a || b] on strings. *)
Definition orStr (a b : jsstring) : jsstring :=
  if truthyStr a then a else b.

(** ECMAScript LineTerminator. *)
Definition isLineTerminator (c : N) : bool :=
  ((c =? 10) || (c =? 13) || (c =? 8232) || (c =? 8233))%N.

(** ECMAScript WhiteSpace and LineTerminator: what [trim] strips and
    what the class [\s] matches. *)
Definition isWhiteSpace (c : N) : bool :=
  ((c =? 9) || (c =? 10) || (c =? 11) || (c =? 12) || (c =? 13) || (c =? 32)
   || (c =? 160) || (c =? 5760) || ((8192 <=? c) && (c <=? 8202))
   || (c =? 8232) || (c =? 8233) || (c =? 8239) || (c =? 8287)
   || (c =? 12288) || (c =? 65279))%N.

Fixpoint dropWhile (p : N -> bool) (s : jsstring) : jsstring :=
  match s with
  | [] => []
  | c :: r => if p c then dropWhile p r else s
  end.

Fixpoint takeWhile (p : N -> bool) (s : jsstring) : jsstring :=
  match s with
  | [] => []
  | c :: r => if p c then c :: takeWhile p r else []
  end.

Definition trimStart (s : jsstring) : jsstring := dropWhile isWhiteSpace s.
Definition trimEnd (s : jsstring) : jsstring :=
  rev (dropWhile isWhiteSpace (rev s)).

(** [String.prototype.trim]. *)
Definition trim (s : jsstring) : jsstring := trimStart (trimEnd s).

(** [s.indexOf(c)] for a one-unit needle; [None] is [-1]. *)
Fixpoint indexOf (c : N) (s : jsstring) : option nat :=
  match s with
  | [] => None
  | d :: r => if (d =? c)%N then Some 0
              else match indexOf c r with Some i => Some (S i) | None => None end
  end.

(** [s.lastIndexOf(c)]. *)
Fixpoint lastIndexOf (c : N) (s : jsstring) : option nat :=
  match s with
  | [] => None
  | d :: r =>
    match lastIndexOf c r with
    | Some i => Some (S i)
    | None => if (d =? c)%N then Some 0 else None
    end
  end.

(** [s.substring(a, b)]: the arguments are clamped to the length and
    swapped when [a > b]. *)
Definition substring (a b : nat) (s : jsstring) : jsstring :=
  let lo := Nat.min a b in
  let hi := Nat.max a b in
  take (hi - lo) (drop lo s).

(** [s.slice(1)]. *)
Definition slice1 (s : jsstring) : jsstring := drop 1 s.

(** [s.charAt(0)]: a string of one unit, or the empty string. *)
Definition charAt0 (s : jsstring) : jsstring := take 1 s.

Fixpoint startsWith (p s : jsstring) : bool :=
  match p, s with
  | [], _ => true
  | a :: p', b :: s' => (a =? b)%N && startsWith p' s'
  | _ :: _, [] => false
  end.

Definition endsWith (p s : jsstring) : bool := startsWith (rev p) (rev s).

(** [s.includes(p)]. *)
Fixpoint includes (p s : jsstring) : bool :=
  startsWith p s || match s with [] => false | _ :: r => includes p r end.

(** Basic Latin letters and digits, as the regular expressions of the
    program see them.  Without the [u] flag, case-insensitive matching
    never lets a unit above 127 match a Basic Latin letter. *)
Definition isDigit (c : N) : bool := ((48 <=? c) && (c <=? 57))%N.
Definition isUpperAZ (c : N) : bool := ((65 <=? c) && (c <=? 90))%N.
Definition isLowerAZ (c : N) : bool := ((97 <=? c) && (c <=? 122))%N.

(** The class [\w]. *)
Definition isWordChar (c : N) : bool :=
  isDigit c || isUpperAZ c || isLowerAZ c || (c =? 95)%N.

(** The class [[a-f0-9]] under the [i] flag. *)
Definition isHexChar (c : N) : bool :=
  isDigit c || ((97 <=? c) && (c <=? 102))%N || ((65 <=? c) && (c <=? 70))%N.

Definition upperBasicLatin (c : N) : N :=
  if isLowerAZ c then (c - 32)%N else c.
Definition lowerBasicLatin (c : N) : N :=
  if isUpperAZ c then (c + 32)%N else c.

(** A Basic Latin pattern letter matched under the [i] flag. *)
Definition eqCI (p c : N) : bool := (upperBasicLatin p =? upperBasicLatin c)%N && (c <? 128)%N.

Fixpoint startsWithCI (p s : jsstring) : option jsstring :=
  match p, s with
  | [], _ => Some s
  | a :: p', b :: s' => if eqCI a b then startsWithCI p' s' else None
  | _ :: _, [] => None
  end.

(** *** Regular-expression replacement

    A pattern is given by its matcher: from the unit before the current
    position (for [\b]) and the rest of the subject, the length of the
    match that starts here, if there is one.  [replaceAll] is
    [s.replace(/p/g, rep)] for patterns that never match the empty
    string: scan left to right, and after a match resume behind it. *)
Definition matcher : Type := option N -> jsstring -> option nat.

Fixpoint replaceAllFrom (m : matcher) (rep : jsstring)
    (prev : option N) (skip : nat) (s : jsstring) : jsstring :=
  match s with
  | [] => []
  | c :: r =>
    match skip with
    | S k => replaceAllFrom m rep (Some c) k r
    | O =>
      match m prev s with
      | Some (S k) => rep ++ replaceAllFrom m rep (Some c) k r
      | _ => c :: replaceAllFrom m rep (Some c) O r
      end
    end
  end.

Definition replaceAll (m : matcher) (rep s : jsstring) : jsstring :=
  replaceAllFrom m rep None 0 s.

(** [s.replace(/p/, rep)] without the [g] flag: the leftmost match only. *)
Fixpoint replaceFirstFrom (m : matcher) (rep : jsstring)
    (prev : option N) (s : jsstring) : jsstring :=
  match s with
  | [] => []
  | c :: r =>
    match m prev s with
    | Some (S k) => rep ++ drop (S k) s
    | _ => c :: replaceFirstFrom m rep (Some c) r
    end
  end.

Definition replaceFirst (m : matcher) (rep s : jsstring) : jsstring :=
  replaceFirstFrom m rep None s.

(** Whether the pattern matches anywhere in [s] ([/p/.test(s)]). *)
Fixpoint testFrom (m : matcher) (prev : option N) (s : jsstring) : bool :=
  match s with
  | [] => false
  | c :: r =>
    match m prev s with
    | Some (S _) => true
    | _ => testFrom m (Some c) r
    end
  end.

Definition test (m : matcher) (s : jsstring) : bool := testFrom m None s.

End JS.

(** ** [JSON.parse]

    The grammar of ECMA-404, as [JSON.parse] accepts it: a lexer over
    code units and a push-down recogniser over tokens, both by
    structural recursion, so [JSON_parse] is total and a syntax error
    is [None]. *)

Module JSON.
Import JS.

(** A number is kept as its exact decimal value [mant * 10 ^ exp10]. *)
Inductive json : Type :=
  | JNull
  | JBool (b : bool)
  | JNum (neg : bool) (mant : N) (exp10 : Z)
  | JStr (s : jsstring)
  | JArr (elems : list json)
  | JObj (members : list (jsstring * json)).

Inductive token : Type :=
  | TLBrace | TRBrace | TLBracket | TRBracket | TColon | TComma
  | TString (s : jsstring)
  | TNumber (neg : bool) (mant : N) (exp10 : Z)
  | TTrue | TFalse | TNull.

Definition isJsonWs (c : N) : bool :=
  ((c =? 32) || (c =? 9) || (c =? 10) || (c =? 13))%N.

Definition hexVal (c : N) : option N :=
  if isDigit c then Some (c - 48)%N
  else if ((97 <=? c) && (c <=? 102))%N then Some (c - 87)%N
  else if ((65 <=? c) && (c <=? 70))%N then Some (c - 55)%N
  else None.

(** The unit a two-character escape stands for. *)
Definition simpleEscape (e : N) : option N :=
  if (e =? 34)%N then Some 34%N          (* quote *)
  else if (e =? 92)%N then Some 92%N     (* backslash *)
  else if (e =? 47)%N then Some 47%N     (* slash *)
  else if (e =? 98)%N then Some 8%N      (* b *)
  else if (e =? 102)%N then Some 12%N    (* f *)
  else if (e =? 110)%N then Some 10%N    (* n *)
  else if (e =? 114)%N then Some 13%N    (* r *)
  else if (e =? 116)%N then Some 9%N     (* t *)
  else None.

(** The body of a string literal, from behind its opening quote: the
    decoded value and the number of units read, closing quote
    included. *)
Fixpoint lexStringBody (s : jsstring) : option (jsstring * nat) :=
  match s with
  | [] => None
  | c :: r =>
    if (c =? 34)%N then Some ([], 1)
    else if (c <? 32)%N then None
    else if (c =? 92)%N then
      match r with
      | [] => None
      | e :: r' =>
        if (e =? 117)%N then
          match r' with
          | h1 :: h2 :: h3 :: h4 :: r'' =>
            match hexVal h1, hexVal h2, hexVal h3, hexVal h4 with
            | Some a, Some b, Some c', Some d =>
              match lexStringBody r'' with
              | Some (t, n) =>
                Some ((a * 4096 + b * 256 + c' * 16 + d)%N :: t, n + 6)
              | None => None
              end
            | _, _, _, _ => None
            end
          | _ => None
          end
        else
          match simpleEscape e with
          | Some v =>
            match lexStringBody r' with
            | Some (t, n) => Some (v :: t, n + 2)
            | None => None
            end
          | None => None
          end
      end
    else
      match lexStringBody r with
      | Some (t, n) => Some (c :: t, S n)
      | None => None
      end
  end.

Definition digitsVal (ds : jsstring) : N :=
  fold_left (fun acc d => (acc * 10 + (d - 48))%N) ds 0%N.

(** A number literal at the head of [s]: the longest prefix of the form
    [-? int frac? exp?], its value and its length. *)
Definition lexNumber (s : jsstring) : option (token * nat) :=
  let '(neg, s1) :=
    match s with
    | c :: r => if (c =? 45)%N then (true, r) else (false, s)
    | [] => (false, s)
    end in
  let ints :=
    match s1 with
    | c :: _ => if (c =? 48)%N then [c] else takeWhile isDigit s1
    | [] => []
    end in
  match ints with
  | [] => None
  | _ =>
    let s2 := drop (length ints) s1 in
    let fracs :=
      match s2 with
      | c :: r => if (c =? 46)%N then takeWhile isDigit r else []
      | [] => []
      end in
    let fracLen := match fracs with [] => 0 | _ => S (length fracs) end in
    let s3 := drop fracLen s2 in
    let '(expVal, expLen) :=
      match s3 with
      | c :: r =>
        if ((c =? 101) || (c =? 69))%N then
          let '(eneg, r1, signLen) :=
            match r with
            | g :: r' =>
              if (g =? 45)%N then (true, r', 1)
              else if (g =? 43)%N then (false, r', 1)
              else (false, r, 0)
            | [] => (false, r, 0)
            end in
          match takeWhile isDigit r1 with
          | [] => (0%Z, 0)
          | ds =>
            ((if eneg then - Z.of_N (digitsVal ds) else Z.of_N (digitsVal ds))%Z,
             1 + signLen + length ds)
          end
        else (0%Z, 0)
      | [] => (0%Z, 0)
      end in
    Some (TNumber neg (digitsVal (ints ++ fracs))
                  (expVal - Z.of_nat (length fracs))%Z,
          (if neg then 1 else 0) + length ints + fracLen + expLen)
  end.

(** The lexer.  [skip] counts the units of the current token that are
    still to be passed over. *)
Fixpoint lexFrom (skip : nat) (s : jsstring) : option (list token) :=
  match s with
  | [] => Some []
  | c :: r =>
    match skip with
    | S k => lexFrom k r
    | O =>
      if isJsonWs c then lexFrom 0 r
      else if (c =? 123)%N then cons TLBrace <$> lexFrom 0 r
      else if (c =? 125)%N then cons TRBrace <$> lexFrom 0 r
      else if (c =? 91)%N then cons TLBracket <$> lexFrom 0 r
      else if (c =? 93)%N then cons TRBracket <$> lexFrom 0 r
      else if (c =? 58)%N then cons TColon <$> lexFrom 0 r
      else if (c =? 44)%N then cons TComma <$> lexFrom 0 r
      else if (c =? 34)%N then
        match lexStringBody r with
        | Some (str, n) => cons (TString str) <$> lexFrom n r
        | None => None
        end
      else if (c =? 45)%N || isDigit c then
        match lexNumber s with
        | Some (tok, n) => cons tok <$> lexFrom (pred n) r
        | None => None
        end
      else if startsWith (js "true") s then cons TTrue <$> lexFrom 3 r
      else if startsWith (js "false") s then cons TFalse <$> lexFrom 4 r
      else if startsWith (js "null") s then cons TNull <$> lexFrom 3 r
      else None
    end
  end.

(** The recogniser: a stack of the containers that are open, and what
    may come next. *)
Inductive frame : Type :=
  | FArr (done : list json)
  | FObj (done : list (jsstring * json)) (key : jsstring).

Inductive pstate : Type :=
  | PValue (stack : list frame)
  | PArrFirst (stack : list frame)
  | PObjFirst (stack : list frame)
  | PKey (done : list (jsstring * json)) (stack : list frame)
  | PColon (done : list (jsstring * json)) (key : jsstring) (stack : list frame)
  | PAfter (v : json) (stack : list frame).

Definition valueStart (stack : list frame) (t : token) : option pstate :=
  match t with
  | TString s => Some (PAfter (JStr s) stack)
  | TNumber n m e => Some (PAfter (JNum n m e) stack)
  | TTrue => Some (PAfter (JBool true) stack)
  | TFalse => Some (PAfter (JBool false) stack)
  | TNull => Some (PAfter JNull stack)
  | TLBracket => Some (PArrFirst stack)
  | TLBrace => Some (PObjFirst stack)
  | _ => None
  end.

Definition step (st : pstate) (t : token) : option pstate :=
  match st with
  | PValue stack => valueStart stack t
  | PArrFirst stack =>
    match t with
    | TRBracket => Some (PAfter (JArr []) stack)
    | _ => valueStart (FArr [] :: stack) t
    end
  | PObjFirst stack =>
    match t with
    | TRBrace => Some (PAfter (JObj []) stack)
    | TString k => Some (PColon [] k stack)
    | _ => None
    end
  | PKey done stack =>
    match t with
    | TString k => Some (PColon done k stack)
    | _ => None
    end
  | PColon done k stack =>
    match t with
    | TColon => Some (PValue (FObj done k :: stack))
    | _ => None
    end
  | PAfter v (FArr done :: stack) =>
    match t with
    | TComma => Some (PValue (FArr (v :: done) :: stack))
    | TRBracket => Some (PAfter (JArr (rev (v :: done))) stack)
    | _ => None
    end
  | PAfter v (FObj done k :: stack) =>
    match t with
    | TComma => Some (PKey ((k, v) :: done) stack)
    | TRBrace => Some (PAfter (JObj (rev ((k, v) :: done))) stack)
    | _ => None
    end
  | PAfter _ [] => None
  end.

Fixpoint runParser (st : pstate) (toks : list token) : option json :=
  match toks with
  | [] => match st with PAfter v [] => Some v | _ => None end
  | t :: r =>
    match step st t with
    | Some st' => runParser st' r
    | None => None
    end
  end.

(** [JSON.parse(s)]; [None] is the [SyntaxError] it throws. *)
Definition JSON_parse (s : jsstring) : option json :=
  match lexFrom 0 s with
  | Some toks => runParser (PValue []) toks
  | None => None
  end.

(** Whether [mant * 10 ^ exp10] becomes the double [0]: it is zero, or
    at most half the least subnormal, [2 ^ -1075]. *)
Definition roundsToZero (mant : N) (exp10 : Z) : bool :=
  (mant =? 0)%N
  || ((exp10 <? 0)%Z && (Z.of_N mant * 2 ^ 1075 <=? 10 ^ (- exp10))%Z).

(** Truthiness of a parsed value. *)
Definition truthy (v : json) : bool :=
  match v with
  | JNull => false
  | JBool b => b
  | JNum _ m e => negb (roundsToZero m e)
  | JStr s => truthyStr s
  | JArr _ => true
  | JObj _ => true
  end.

(** An own property of a parsed object; a key that occurs twice has its
    last value. *)
Fixpoint lookupLast (k : jsstring) (m : list (jsstring * json)) : option json :=
  match m with
  | [] => None
  | (k', v) :: r =>
    match lookupLast k r with
    | Some w => Some w
    | None => if decide (k' = k) then Some v else None
    end
  end.

(** [parsed.k] for the field names the program reads (none of them is a
    property of a built-in prototype, so a value that is not an object
    has none of them); [None] is [undefined]. *)
Definition getProp (v : json) (k : jsstring) : option json :=
  match v with
  | JObj m => lookupLast k m
  | _ => None
  end.

(** [parsed.k || d]. *)
Definition propOr (v : json) (k : jsstring) (d : json) : json :=
  match getProp v k with
  | Some w => if truthy w then w else d
  | None => d
  end.

End JSON.

(** ** The data model ([types.ts]) *)

Module Types.
Import JS.

Record GameSettings : Type := {
  world : jsstring;
  startLocation : jsstring;
  artStyle : jsstring;
  objective : jsstring;
  tone : jsstring
}.

Record VisitedLocation : Type := {
  vl_imageUrl : jsstring;
  vl_visualPrompt : jsstring
}.

(** [description] is [None] when the item has no usable description
    ([undefined] or [null]); the sanitizer substitutes a placeholder. *)
Record InventoryItem : Type := {
  name : jsstring;
  description : option jsstring
}.

Inductive Role : Type := user | model.

Record HistoryEntry : Type := {
  role : Role;
  content : jsstring
}.

(** The values [loadingStatus] takes besides [null]: the four literals
    the program assigns. *)
Inductive LoadingPhase : Type :=
  | Analizando | Cargando | Generando | Actualizando.

Definition phaseText (p : LoadingPhase) : jsstring :=
  match p with
  | Analizando => js "ANALIZANDO ACCIÓN..."
  | Cargando => js "CARGANDO UBICACIÓN..."
  | Generando => js "GENERANDO ESCENA..."
  | Actualizando => js "ACTUALIZANDO VISUALES..."
  end.

(** [imageUrl] is [None] for [null] (and for [undefined]). *)
Record GameState : Type := {
  settings : GameSettings;
  location : jsstring;
  narrative : jsstring;
  inventory : list InventoryItem;
  availableExits : list jsstring;
  visualDescription : jsstring;
  imageUrl : option jsstring;
  loadingStatus : option LoadingPhase;
  history : list HistoryEntry;
  knownLocations : gmap (list N) VisitedLocation
}.

Record GameResponse : Type := {
  r_narrative : jsstring;
  r_location : jsstring;
  r_visualPrompt : jsstring;
  r_inventory : list InventoryItem;
  r_keyElements : list jsstring;
  r_availableExits : list jsstring;
  r_visualChanged : option bool
}.

End Types.

(** ** The platform's case mappings

    [String.prototype.toUpperCase] and [toLowerCase] follow the Unicode
    tables.  The program is embedded over any pair of functions that
    map Basic Latin as Unicode does and never produce an underscore
    from another unit. *)

Class CaseMapping : Type := {
  toUpperCase : list N -> list N;
  toLowerCase : list N -> list N;
  toUpperCase_basic_latin :
    forall c, (c < 128)%N -> toUpperCase [c] = [JS.upperBasicLatin c];
  toUpperCase_underscore :
    forall c, c <> 95%N -> ~ In 95%N (toUpperCase [c])
}.

(** ** The sanitizer and the cache key ([App.tsx], lines 20-54) *)

Module Sanitizer.
Import JS Types.

(** [/_/] *)
Definition reUnderscore : matcher := fun _ s =>
  match s with
  | c :: _ => if (c =? 95)%N then Some 1 else None
  | [] => None
  end.

(** [/\s*-\s*ERROR\s*.*$/i].  Every [\s*] takes the whole run of white
    space (what follows it is never white space, and for the last one
    a shorter run leaves more for [.*] to cross); [.] stops at a line
    terminator and [$] is the end of the string, so a match runs to
    the end. *)
Definition reErrorTail : matcher := fun _ s =>
  match dropWhile isWhiteSpace s with
  | c :: s2 =>
    if (c =? 45)%N then
      match startsWithCI (js "ERROR") (dropWhile isWhiteSpace s2) with
      | Some s4 =>
        if forallb (fun d => negb (isLineTerminator d))
                   (dropWhile isWhiteSpace s4)
        then Some (length s) else None
      | None => None
      end
    else None
  | [] => None
  end.

(** [/\b[a-f0-9]{8,}\b/i]: at a word boundary, the whole run of hex
    digits, when it has eight or more and ends at a word boundary. *)
Definition reHexToken : matcher := fun prev s =>
  if match prev with Some p => isWordChar p | None => false end then None
  else
    let run := takeWhile isHexChar s in
    if (8 <=? length run)
       && negb match drop (length run) s with
               | c :: _ => isWordChar c
               | [] => false
               end
    then Some (length run) else None.

(** [/x86|x64|v\d+(\.\d+)?/i] *)
Definition reVersion : matcher := fun _ s =>
  match startsWithCI (js "x86") s with
  | Some _ => Some 3
  | None =>
    match startsWithCI (js "x64") s with
    | Some _ => Some 3
    | None =>
      match s with
      | v :: r =>
        if eqCI (ch "v") v then
          match takeWhile isDigit r with
          | [] => None
          | ds =>
            let frac :=
              match drop (length ds) r with
              | d :: r3 => if (d =? 46)%N then takeWhile isDigit r3 else []
              | [] => []
              end in
            Some (1 + length ds
                  + match frac with [] => 0 | _ => S (length frac) end)
          end
        else None
      | [] => None
      end
    end
  end.

(** [/\s+/] *)
Definition reSpaces : matcher := fun _ s =>
  match takeWhile isWhiteSpace s with
  | [] => None
  | ws => Some (length ws)
  end.

Definition placeholderName : jsstring := js "Objeto Raro".
Definition placeholderDescription : jsstring :=
  js "Un objeto tan misterioso que la propia realidad (o la IA) se niega a describirlo. Huele a ozono.".

Section WithCase.
Context `{CaseMapping}.

(** Step 1 of the item callback: the chain of replacements and [trim]. *)
Definition cleanChain (itemName : jsstring) : jsstring :=
  trim
    (replaceAll reSpaces (js " ")
      (replaceAll reVersion []
        (replaceAll reHexToken []
          (replaceFirst reErrorTail []
            (replaceAll reUnderscore (js " ") itemName))))).

(** Step 2: capitalise the first letter. *)
Definition capitalize (cleanName : jsstring) : jsstring :=
  if 0 <? length cleanName
  then toUpperCase (charAt0 cleanName) ++ slice1 cleanName
  else cleanName.

(** Step 3: truncate for the sidebar. *)
Definition truncateName (cleanName : jsstring) : jsstring :=
  if 22 <? length cleanName
  then substring 0 20 cleanName ++ js ".."
  else cleanName.

(** Step 4: fallback when nothing is left. *)
Definition fallbackName (cleanName : jsstring) : jsstring :=
  if truthyStr cleanName then cleanName else placeholderName.

Definition sanitizeName (itemName : jsstring) : jsstring :=
  fallbackName (truncateName (capitalize (cleanChain itemName))).

Definition sanitizeItem (item : InventoryItem) : InventoryItem :=
  {| name := sanitizeName (name item);
     description :=
       match description item with
       | Some d => if truthyStr d then Some d else Some placeholderDescription
       | None => Some placeholderDescription
       end |}.

(** [sanitizeInventory]; its argument is an array, so [!items] is
    false. *)
Definition sanitizeInventory (items : list InventoryItem) : list InventoryItem :=
  map sanitizeItem items.

(** [normalizeLocKey] *)
Definition normalizeLocKey (loc : jsstring) : jsstring :=
  toLowerCase (trim loc).

End WithCase.

End Sanitizer.

(** ** Effects

    The generative service is an oracle: the outcome of a request may
    depend on everything that happened before it.  The program runs in
    a world made of the React state ([gameState] behind [setGameState]),
    the [isGameStarted] flag and the log of what was done so far.  A
    computation returns, throws, or leaves the declared types. *)

Module Effects.
Import JS JSON Types.

(** What a failed request throws, as far as [callWithRetry] inspects
    it.  [new Error(msg)] has only a message. *)
Record ApiError : Type := {
  status : option N;
  code : option N;
  message : option jsstring
}.

Definition Error (msg : jsstring) : ApiError :=
  {| status := None; code := None; message := Some msg |}.

(** What a request resolves to: [response.text], and the image bytes at
    [response.candidates?.[0]?.content?.parts?.[0]?.inlineData?.data]. *)
Record ApiResponse : Type := {
  text : option jsstring;
  imageData : option jsstring
}.

Inductive Model : Type := MODEL_INIT | MODEL_LOOP | MODEL_IMAGE.

(** The two prompts of [generateSceneImage], by the values they are
    built from. *)
Inductive ImagePrompt : Type :=
  | FullPrompt (style visualPrompt : jsstring) (keyElements : list jsstring)
  | SimplePrompt (style visualPrompt : jsstring).

(** A call of [ai.models.generateContent], by the values its arguments
    are built from. *)
Inductive Request : Type :=
  | WorldRequest (m : Model) (s : GameSettings)
  | TurnRequest (userAction : jsstring) (currentState : GameState)
                (image : option jsstring)
  | ImageRequest (prompt : ImagePrompt) (reference : option jsstring).

Inductive Event : Type :=
  | Call (r : Request)
  | Sleep (ms : N)
  | Alert (msg : jsstring).

Definition Service : Type := list Event -> Request -> ApiError + ApiResponse.

Record World : Type := {
  store : GameState;
  isGameStarted : bool;
  events : list Event
}.

Inductive Result (A : Type) : Type :=
  | Ok (a : A)
  | Throw (e : ApiError)
  | Untyped.
Arguments Ok {A} a.
Arguments Throw {A} e.
Arguments Untyped {A}.

Definition Eff (A : Type) : Type := Service -> World -> Result A * World.

Definition ret {A} (a : A) : Eff A := fun _ w => (Ok a, w).

Definition bind {A B} (m : Eff A) (k : A -> Eff B) : Eff B := fun svc w =>
  match m svc w with
  | (Ok a, w') => k a svc w'
  | (Throw e, w') => (Throw e, w')
  | (Untyped, w') => (Untyped, w')
  end.

Definition throw {A} (e : ApiError) : Eff A := fun _ w => (Throw e, w).

(** [try { m } catch (e) { h e }] *)
Definition tryCatch {A} (m : Eff A) (h : ApiError -> Eff A) : Eff A := fun svc w =>
  match m svc w with
  | (Throw e, w') => h e svc w'
  | other => other
  end.

(** A value of type [any] used at a declared type. *)
Definition typed {A} (o : option A) : Eff A := fun _ w =>
  match o with
  | Some a => (Ok a, w)
  | None => (Untyped, w)
  end.

Definition logEvent (e : Event) (w : World) : World :=
  {| store := store w; isGameStarted := isGameStarted w;
     events := events w ++ [e] |}.

(** [await ai.models.generateContent(...)] *)
Definition generateContent (r : Request) : Eff ApiResponse := fun svc w =>
  match svc (events w) r with
  | inl e => (Throw e, logEvent (Call r) w)
  | inr resp => (Ok resp, logEvent (Call r) w)
  end.

(** [await new Promise(res => setTimeout(res, delay))] *)
Definition sleep (ms : N) : Eff unit := fun _ w => (Ok tt, logEvent (Sleep ms) w).

Definition alert (msg : jsstring) : Eff unit := fun _ w => (Ok tt, logEvent (Alert msg) w).

(** [setGameState(prev => f prev)] *)
Definition setGameState (f : GameState -> GameState) : Eff unit := fun _ w =>
  (Ok tt, {| store := f (store w); isGameStarted := isGameStarted w;
             events := events w |}).

Definition setIsGameStarted (b : bool) : Eff unit := fun _ w =>
  (Ok tt, {| store := store w; isGameStarted := b; events := events w |}).

Declare Scope eff_scope.
Delimit Scope eff_scope with eff.
Bind Scope eff_scope with Eff.
Notation "x <- m ;; k" := (bind m (fun x => k))
  (at level 100, m at next level, right associativity) : eff_scope.
Notation "m ;; k" := (bind m (fun _ => k))
  (at level 100, right associativity) : eff_scope.

End Effects.

(** ** The service layer ([services/gemini.ts]) *)

Module Gemini.
Import JS JSON Types Effects.
Local Open Scope eff_scope.

(** [cleanBase64]: strip a leading [data:image/(png|jpeg|jpg);base64,]. *)
Definition cleanBase64 (dataUrl : jsstring) : jsstring :=
  if startsWith (js "data:image/png;base64,") dataUrl
  then drop (length (js "data:image/png;base64,")) dataUrl
  else if startsWith (js "data:image/jpeg;base64,") dataUrl
  then drop (length (js "data:image/jpeg;base64,")) dataUrl
  else if startsWith (js "data:image/jpg;base64,") dataUrl
  then drop (length (js "data:image/jpg;base64,")) dataUrl
  else dataUrl.

Definition cleanJsonOutput (text : jsstring) : jsstring :=
  let cleaned := trim text in
  match indexOf 123 cleaned, lastIndexOf 125 cleaned with
  | Some firstBrace, Some lastBrace =>
    substring firstBrace (lastBrace + 1) cleaned
  | _, _ => cleaned
  end.

(** [tryParseJSON]; the result [JNull] is [null]. *)
Definition tryParseJSON (jsonString : jsstring) : json :=
  match JSON_parse jsonString with
  | Some v => v
  | None =>
    match JSON_parse (jsonString ++ js "}") with
    | Some v => v
    | None =>
      match JSON_parse (jsonString ++ js "]}") with
      | Some v => v
      | None =>
        if endsWith [34%N] (trim jsonString) then
          match JSON_parse (jsonString ++ js "}") with
          | Some v => v
          | None => JNull
          end
        else
          match JSON_parse (jsonString ++ jsq "'}") with
          | Some v => v
          | None => JNull
          end
      end
    end
  end.

(** The test of [callWithRetry] on what was thrown. *)
Definition isTransient (error : ApiError) : bool :=
  match status error with Some n => (n =? 503)%N | None => false end
  || match code error with Some n => (n =? 503)%N | None => false end
  || match status error with Some n => (n =? 500)%N | None => false end
  || match message error with Some m => includes (js "503") m | None => false end.

Fixpoint callWithRetry {A} (fn : Eff A) (retries : nat) (delay : N) : Eff A :=
  tryCatch fn (fun error =>
    match retries with
    | S retries' =>
      if isTransient error
      then sleep delay ;; callWithRetry fn retries' (delay * 2)
      else throw error
    | O => throw error
    end).

(** What [mapParsedResponse] builds: fields of type [any]. *)
Record RawResponse : Type := {
  raw_narrative : json;
  raw_location : json;
  raw_visualPrompt : json;
  raw_inventory : json;
  raw_keyElements : json;
  raw_availableExits : json;
  raw_visualChanged : bool
}.

Definition mapParsedResponse (parsed : json) (settings : GameSettings) : RawResponse :=
  {| raw_narrative := propOr parsed (js "narrative") (JStr (js "Comienza la aventura..."));
     raw_location := propOr parsed (js "location") (JStr (startLocation settings));
     raw_visualPrompt :=
       propOr parsed (js "visualPrompt")
              (JStr (js "Scene of " ++ startLocation settings));
     raw_inventory := propOr parsed (js "inventory") (JArr []);
     raw_keyElements := propOr parsed (js "keyElements") (JArr []);
     raw_availableExits := propOr parsed (js "availableExits") (JArr []);
     raw_visualChanged := true |}.

(** *** The declared type [GameResponse] *)

Definition asString (v : json) : option jsstring :=
  match v with JStr s => Some s | _ => None end.

Definition asStrings (v : json) : option (list jsstring) :=
  match v with JArr l => mapM asString l | _ => None end.

Definition asItem (v : json) : option InventoryItem :=
  match v with
  | JObj m =>
    match lookupLast (js "name") m with
    | Some (JStr n) =>
      match lookupLast (js "description") m with
      | None | Some JNull => Some {| name := n; description := None |}
      | Some (JStr d) => Some {| name := n; description := Some d |}
      | Some _ => None
      end
    | _ => None
    end
  | _ => None
  end.

Definition asItems (v : json) : option (list InventoryItem) :=
  match v with JArr l => mapM asItem l | _ => None end.

(** The response, when its fields have the declared types. *)
Definition conform (raw : RawResponse) : option GameResponse :=
  match asString (raw_narrative raw), asString (raw_location raw),
        asString (raw_visualPrompt raw), asItems (raw_inventory raw),
        asStrings (raw_keyElements raw), asStrings (raw_availableExits raw) with
  | Some n, Some l, Some v, Some i, Some k, Some x =>
    Some {| r_narrative := n; r_location := l; r_visualPrompt := v;
            r_inventory := i; r_keyElements := k; r_availableExits := x;
            r_visualChanged := Some (raw_visualChanged raw) |}
  | _, _, _, _, _, _ => None
  end.

Definition itemValue (i : InventoryItem) : json :=
  JObj ((js "name", JStr (name i))
        :: match description i with
           | Some d => [(js "description", JStr d)]
           | None => []
           end).

Definition generateWithModel (m : Model) (settings : GameSettings) : Eff ApiResponse :=
  callWithRetry (generateContent (WorldRequest m settings)) 3 500.

(** [tryParseJSON(cleanJsonOutput(response.text || {}))], where the
    default is the two-unit text of an empty object. *)
Definition decodeReply (response : ApiResponse) : json :=
  tryParseJSON (cleanJsonOutput
    (match text response with
     | Some t => orStr t (js "{}")
     | None => js "{}"
     end)).

Definition ultimateFallback (settings : GameSettings) : RawResponse :=
  {| raw_narrative :=
       JStr (js "El sistema se ha reiniciado tras una inestabilidad cuántica. Estás en el punto de inicio.");
     raw_location := JStr (startLocation settings);
     raw_visualPrompt :=
       JStr (js "A pixel art scene of " ++ startLocation settings
             ++ js " in " ++ artStyle settings ++ js " style.");
     raw_inventory := JArr [];
     raw_keyElements := JArr [];
     raw_availableExits := JArr [];
     raw_visualChanged := true |}.

(** The first attempt of [generateInitialGameWorld] (the body of its
    outer [try]). *)
Definition initAttemptPro (settings : GameSettings) : Eff RawResponse :=
  response <- generateWithModel MODEL_INIT settings ;;
  let parsed := decodeReply response in
  if truthy parsed then ret (mapParsedResponse parsed settings)
  else throw (Error (js "Gemini 3 Pro returned invalid JSON")).

(** The second attempt (the inner [try] and its empty [catch]);
    [None] is falling through to the fallback. *)
Definition initAttemptFlash (settings : GameSettings) : Eff (option RawResponse) :=
  tryCatch
    (response <- generateWithModel MODEL_LOOP settings ;;
     let parsed := decodeReply response in
     if truthy parsed then ret (Some (mapParsedResponse parsed settings))
     else ret None)
    (fun flashError => ret None).

Definition generateInitialGameWorld (settings : GameSettings) : Eff RawResponse :=
  tryCatch (initAttemptPro settings)
    (fun error =>
       second <- initAttemptFlash settings ;;
       match second with
       | Some r => ret r
       | None => ret (ultimateFallback settings)
       end).

(** The soft-error reply of [generateGameResponse]. *)
Definition softErrorReply (currentState : GameState) : RawResponse :=
  {| raw_narrative := JStr (js "La realidad parpadea. Intenta esa acción de nuevo.");
     raw_location := JStr (location currentState);
     raw_visualPrompt := JStr (visualDescription currentState);
     raw_inventory := JArr (map itemValue (inventory currentState));
     raw_keyElements := JArr [];
     raw_availableExits := JArr (map JStr (availableExits currentState));
     raw_visualChanged := false |}.

(** The image part of a request: [if (img) parts.push(... cleanBase64(img))]. *)
Definition attachedImage (img : option jsstring) : option jsstring :=
  match img with
  | Some i => if truthyStr i then Some (cleanBase64 i) else None
  | None => None
  end.

Definition generateGameResponse (userAction : jsstring) (currentState : GameState)
    (currentImageBase64 : option jsstring) : Eff RawResponse :=
  tryCatch
    (response <- callWithRetry
                   (generateContent
                      (TurnRequest userAction currentState
                                   (attachedImage currentImageBase64)))
                   3 500 ;;
     let parsed := decodeReply response in
     if truthy parsed then ret (mapParsedResponse parsed (settings currentState))
     else ret (softErrorReply currentState))
    (fun error => throw error).

(** The inner [generate] of [generateSceneImage]. *)
Definition generate (prompt : ImagePrompt) (refImage : option jsstring) : Eff jsstring :=
  response <- callWithRetry
                (generateContent (ImageRequest prompt (attachedImage refImage)))
                2 500 ;;
  match imageData response with
  | Some base64 =>
    if truthyStr base64 then ret (js "data:image/png;base64," ++ base64)
    else throw (Error (js "No image data"))
  | None => throw (Error (js "No image data"))
  end.

Definition generateSceneImage (visualPrompt style : jsstring)
    (keyElements : list jsstring) (referenceImageBase64 : option jsstring)
    : Eff jsstring :=
  tryCatch (generate (FullPrompt style visualPrompt keyElements) referenceImageBase64)
    (fun error =>
       tryCatch (generate (SimplePrompt style visualPrompt) None)
         (fun err2 => ret [])).

End Gemini.

(** ** The text of the image prompts ([services/gemini.ts], lines 72-81
       and 281-285) *)

Module Prompt.
Import JS.

(** [/w1|w2|...|wn/i] for literal alternatives: at a position, the
    first alternative that matches there. *)
Fixpoint reWords (words : list jsstring) (prev : option N) (s : jsstring)
    : option nat :=
  match words with
  | [] => None
  | w :: rest =>
    match startsWithCI w s with
    | Some _ => Some (length w)
    | None => reWords rest prev s
    end
  end.

Definition reKalimotxo : matcher := reWords [js "kalimotxo"; js "calimocho"].
Definition reAlcohol : matcher :=
  reWords [js "alcohol"; js "wine"; js "vino"; js "beer"; js "cerveza"].
Definition reSoda : matcher := reWords [js "coca cola"; js "pepsi"].
Definition reBrand : matcher := reWords [js "brand"; js "logo"].
Definition reBlood : matcher := reWords [js "blood"; js "gore"].
Definition reKill : matcher := reWords [js "kill"; js "murder"; js "dead"].

(** [sanitizeVisualPrompt]: six replacements, one after the other. *)
Definition sanitizeVisualPrompt (text : jsstring) : jsstring :=
  replaceAll reKill (js "defeated")
    (replaceAll reBlood (js "red liquid")
      (replaceAll reBrand (js "symbol")
        (replaceAll reSoda (js "soda")
          (replaceAll reAlcohol (js "beverage")
            (replaceAll reKalimotxo (js "dark red potion") text))))).

(** [/\(.*\)/] and [/\[.*\]/]: from an opening unit, over the greedy
    [.*] (which stops at a line terminator), back to the last closing
    unit of the line. *)
Definition reGroup (opening closing : N) : matcher := fun _ s =>
  match s with
  | c :: r =>
    if (c =? opening)%N then
      match lastIndexOf closing
              (takeWhile (fun d => negb (isLineTerminator d)) r) with
      | Some i => Some (i + 2)
      | None => None
      end
    else None
  | [] => None
  end.

(** The callback of [keyElements.map]. *)
Definition cleanElement (el : jsstring) : jsstring :=
  trim (replaceAll (reGroup 91 93) [] (replaceAll (reGroup 40 41) [] el)).

(** [Array.prototype.join]. *)
Fixpoint join (sep : jsstring) (l : list jsstring) : jsstring :=
  match l with
  | [] => []
  | a :: r =>
    match r with
    | [] => a
    | _ :: _ => a ++ sep ++ join sep r
    end
  end.

(** The elements that are kept, before they are joined. *)
Definition keptElements (keyElements : list jsstring) : list jsstring :=
  List.filter (fun el => 0 <? length el) (map cleanElement keyElements).

(** [cleanElements] of [generateSceneImage]. *)
Definition cleanElements (keyElements : list jsstring) : jsstring :=
  join (js ", ") (keptElements keyElements).

End Prompt.

(** ** The session state machine ([App.tsx]) *)

Module App.
Import JS JSON Types Effects Gemini Sanitizer.
Local Open Scope eff_scope.

(** [knownLocations[key]] on a plain object: an own entry, a property
    inherited from [Object.prototype] (a function or an object, so a
    truthy value that is no entry and has no [imageUrl]), or
    [undefined]. *)
Inductive CacheLookup : Type :=
  | Hit (entry : VisitedLocation)
  | Inherited
  | Miss.

(** The property names of [Object.prototype]. *)
Definition inheritedKeys : list (list N) :=
  [ js "constructor"; js "__proto__"; js "hasOwnProperty"; js "isPrototypeOf";
    js "propertyIsEnumerable"; js "toLocaleString"; js "toString"; js "valueOf";
    js "__defineGetter__"; js "__defineSetter__"; js "__lookupGetter__";
    js "__lookupSetter__" ].

Definition cacheLookup (known : gmap (list N) VisitedLocation) (key : list N)
    : CacheLookup :=
  match known !! key with
  | Some entry => Hit entry
  | None => if bool_decide (key ∈ inheritedKeys) then Inherited else Miss
  end.

(** [newImageUrl || ''] *)
Definition imageOrEmpty (img : option jsstring) : jsstring :=
  match img with Some i => i | None => [] end.

(** [gameState.imageUrl || undefined] *)
Definition imageOrUndefined (img : option jsstring) : option jsstring :=
  match img with
  | Some i => if truthyStr i then Some i else None
  | None => None
  end.

Definition historyLimit : nat := 20.
Definition historyBlock : nat := 5.

(** [if (newHistory.length > 20) newHistory.splice(0, 5)] *)
Definition pruneHistory (newHistory : list HistoryEntry) : list HistoryEntry :=
  if historyLimit <? length newHistory then drop historyBlock newHistory
  else newHistory.

Definition overloadNarrative : jsstring :=
  js "El sistema se ha sobrecargado momentáneamente. Intenta otra acción.".

Definition startAlert : jsstring :=
  js "Error iniciando el motor SCUMM. Por favor intenta otra vez.".

(** [{ ...prev, loadingStatus: st }] *)
Definition withStatus (st : option LoadingPhase) (prev : GameState) : GameState :=
  {| settings := settings prev; location := location prev;
     narrative := narrative prev; inventory := inventory prev;
     availableExits := availableExits prev;
     visualDescription := visualDescription prev;
     imageUrl := imageUrl prev; loadingStatus := st;
     history := history prev; knownLocations := knownLocations prev |}.

Definition setLoading (p : LoadingPhase) : Eff unit :=
  setGameState (withStatus (Some p)).

(** *** The world of a new session at run time

    Nothing checks what [generateInitialGameWorld] returns against
    [GameResponse].  A method call on a value that has no such method
    ([x.replace], [x.trim], [x.map] on a number, an object, [null],
    ...) throws a [TypeError]. *)

(** What such a call throws; nothing reads its message. *)
Definition TypeError : ApiError := Error (js "TypeError").

Definition orThrow {A} (o : option A) : Eff A :=
  match o with
  | Some a => ret a
  | None => throw TypeError
  end.

(** [v || d] on values of type [any]. *)
Definition orValue (v d : json) : json := if truthy v then v else d.

(** What [generateSceneImage] does with its arguments before any
    request ([services/gemini.ts], lines 282-287):
    [keyElements.map(el => el.replace(...))] needs an array of strings
    and [sanitizeVisualPrompt(visualPrompt)] a string. *)
Definition sceneArguments (initialWorld : RawResponse)
    : option (jsstring * list jsstring) :=
  match asStrings (raw_keyElements initialWorld),
        asString (raw_visualPrompt initialWorld) with
  | Some keyElements, Some visualPrompt => Some (visualPrompt, keyElements)
  | _, _ => None
  end.

(** [item.name.replace(...)] (line 24) needs a string under [name]. *)
Definition hasName (item : json) : bool :=
  match getProp item (js "name") with
  | Some (JStr _) => true
  | _ => false
  end.

(** What the state object of lines 129-145 needs:
    [sanitizeInventory(initialWorld.inventory || [])] maps over an
    array and reads the name of every item, and
    [normalizeLocKey(initialWorld.location || start)] trims a
    string. *)
Definition stateArguments (initialWorld : RawResponse) : option unit :=
  match orValue (raw_inventory initialWorld) (JArr []),
        orValue (raw_location initialWorld) (JStr (js "start")) with
  | JArr items, JStr _ => if forallb hasName items then Some tt else None
  | _, _ => None
  end.

Section WithCase.
Context `{CaseMapping}.

(** The state [handleStartGame] installs (lines 129-145). *)
Definition initialState (newSettings : GameSettings) (initialWorld : GameResponse)
    (imageBase64 : jsstring) : GameState :=
  {| settings := newSettings;
     location := orStr (r_location initialWorld) (js "Desconocido");
     narrative := orStr (r_narrative initialWorld) [];
     inventory := sanitizeInventory (r_inventory initialWorld);
     availableExits := r_availableExits initialWorld;
     visualDescription := r_visualPrompt initialWorld;
     imageUrl := Some imageBase64;
     loadingStatus := None;
     history := [ {| role := model; content := r_narrative initialWorld |} ];
     knownLocations :=
       {[ normalizeLocKey (orStr (r_location initialWorld) (js "start")) :=
            {| vl_imageUrl := imageBase64;
               vl_visualPrompt := r_visualPrompt initialWorld |} ]} |}.

(** [handleStartGame]; the form fields are the settings.  The world
    comes back with fields of type [any].  The call of
    [generateSceneImage] and the state object of lines 129-145, both
    inside the [try], use four of them as strings and arrays, so a
    value of another type there is a [TypeError] for the [catch]; the
    other fields go into the state as they come. *)
Definition handleStartGame (newSettings : GameSettings) : Eff unit :=
  if negb (truthyStr (startLocation newSettings))
     || negb (truthyStr (artStyle newSettings))
  then ret tt
  else
    tryCatch
      (raw <- generateInitialGameWorld newSettings ;;
       scene <- orThrow (sceneArguments raw) ;;
       imageBase64 <- generateSceneImage (fst scene) (artStyle newSettings)
                        (snd scene) None ;;
       orThrow (stateArguments raw) ;;
       initialWorld <- typed (conform raw) ;;
       setGameState (fun _ => initialState newSettings initialWorld imageBase64) ;;
       setIsGameStarted true)
      (fun error => alert startAlert).

(** The optimistic update (lines 161-165). *)
Definition optimisticUpdate (action : jsstring) (prev : GameState) : GameState :=
  {| settings := settings prev; location := location prev;
     narrative := narrative prev; inventory := inventory prev;
     availableExits := availableExits prev;
     visualDescription := visualDescription prev;
     imageUrl := imageUrl prev; loadingStatus := Some Analizando;
     history := history prev ++ [ {| role := user; content := action |} ];
     knownLocations := knownLocations prev |}.

(** The visual logic (lines 176-218): the image of the new state. *)
Definition chooseImage (gameState : GameState) (response : GameResponse)
    (locationKey : list N) : Eff (option jsstring) :=
  let hasChangedLocation :=
    negb (bool_decide (r_location response = location gameState)) in
  let hasVisualChange :=
    match r_visualChanged response with Some true => true | _ => false end in
  if hasChangedLocation then
    match cacheLookup (knownLocations gameState) locationKey with
    | Hit entry =>
      setLoading Cargando ;;
      ret (Some (vl_imageUrl entry))
    | Inherited =>
      setLoading Cargando ;;
      ret None
    | Miss =>
      setLoading Generando ;;
      img <- generateSceneImage (r_visualPrompt response)
               (artStyle (settings gameState)) (r_keyElements response) None ;;
      ret (Some img)
    end
  else if hasVisualChange then
    tryCatch
      (setLoading Actualizando ;;
       img <- generateSceneImage (r_visualPrompt response)
                (artStyle (settings gameState)) (r_keyElements response)
                (imageOrUndefined (imageUrl gameState)) ;;
       ret (Some img))
      (fun e => ret (imageUrl gameState))
  else ret (imageUrl gameState).

(** The commit (lines 220-244). *)
Definition commit (response : GameResponse) (locationKey : list N)
    (newImageUrl : option jsstring) (prev : GameState) : GameState :=
  let newHistory :=
    pruneHistory (history prev
                  ++ [ {| role := model; content := r_narrative response |} ]) in
  let updatedKnownLocations :=
    <[ locationKey := {| vl_imageUrl := imageOrEmpty newImageUrl;
                         vl_visualPrompt := r_visualPrompt response |} ]>
      (knownLocations prev) in
  {| settings := settings prev;
     location := orStr (r_location response) (location prev);
     narrative := r_narrative response;
     inventory := sanitizeInventory (r_inventory response);
     availableExits := r_availableExits response;
     visualDescription := r_visualPrompt response;
     imageUrl := newImageUrl;
     history := newHistory;
     knownLocations := updatedKnownLocations;
     loadingStatus := None |}.

(** [normalizeLocKey(response.location || unknown)], the cache key of
    the reply (line 179). *)
Definition replyKey (response : GameResponse) : list N :=
  normalizeLocKey (orStr (r_location response) (js "unknown")).

(** What follows the reply inside the [try] (lines 176-244). *)
Definition processReply (gameState : GameState) (response : GameResponse) : Eff unit :=
  let locationKey := replyKey response in
  newImageUrl <- chooseImage gameState response locationKey ;;
  setGameState (commit response locationKey newImageUrl).

(** The [catch] of the game loop (lines 246-253). *)
Definition softFailure (prev : GameState) : GameState :=
  {| settings := settings prev; location := location prev;
     narrative := overloadNarrative; inventory := inventory prev;
     availableExits := availableExits prev;
     visualDescription := visualDescription prev;
     imageUrl := imageUrl prev; loadingStatus := None;
     history := history prev; knownLocations := knownLocations prev |}.

(** The busy gate: [gameState.loadingStatus || !action.trim()]. *)
Definition rejected (gameState : GameState) (action : jsstring) : bool :=
  match loadingStatus gameState with
  | Some p => truthyStr (phaseText p)
  | None => false
  end
  || negb (truthyStr (trim action)).

(** [handleAction]; [gameState] is the state the callback closed over. *)
Definition handleAction (gameState : GameState) (action : jsstring) : Eff unit :=
  if rejected gameState action then ret tt
  else
    setGameState (optimisticUpdate action) ;;
    tryCatch
      (raw <- generateGameResponse action gameState (imageUrl gameState) ;;
       response <- typed (conform raw) ;;
       processReply gameState response)
      (fun error => setGameState softFailure).

(** A turn taken from the rendered state [s]: the callback closes over
    [s], which is also what the store holds. *)
Definition turn (svc : Service) (log : list Event) (s : GameState)
    (action : jsstring) : Result unit * World :=
  handleAction s action svc
    {| store := s; isGameStarted := true; events := log |}.

(** Starting a session over some previous state. *)
Definition start (svc : Service) (log : list Event) (s0 : GameState)
    (newSettings : GameSettings) : Result unit * World :=
  handleStartGame newSettings svc
    {| store := s0; isGameStarted := false; events := log |}.

(** The states a session shows between turns. *)
Inductive Reachable : GameState -> Prop :=
  | reach_start svc log s0 newSettings w :
      start svc log s0 newSettings = (Ok tt, w) ->
      isGameStarted w = true ->
      Reachable (store w)
  | reach_turn svc log s action w :
      Reachable s ->
      turn svc log s action = (Ok tt, w) ->
      Reachable (store w).

End WithCase.

End App.

(** ** The verb buttons ([App.tsx], lines 17 and 256-267;
       [components/ActionButtons.tsx]) *)

Module Controls.
Import JS.

Definition VERBS : list jsstring :=
  [js "Ir a"; js "Mirar"; js "Coger"; js "Hablar con"; js "Usar"].

(** What a verb button passes to [onAction]: the verb and a space. *)
Definition buttonText (verb : jsstring) : jsstring := verb ++ js " ".

Section WithCase.
Context `{CaseMapping}.

(** The updater [handleVerbClick] gives to [setUserInput]: the new
    content of the input field. *)
Definition handleVerbClick (verb currentInput : jsstring) : jsstring :=
  let trimmedVerb := trim verb in
  match List.find (fun v => startsWith (toLowerCase v) (toLowerCase currentInput))
                  VERBS with
  | Some existingVerb =>
    let rest := trim (drop (length existingVerb) currentInput) in
    trimmedVerb ++ js " " ++ rest
  | None => trimmedVerb ++ js " " ++ currentInput
  end.

End WithCase.

End Controls.

(** ** The typing effect of the terminal ([components/Terminal.tsx],
       lines 10-32) *)

Module Terminal.
Import JS.

(** The local [currentIndex], the state [displayedText], and whether
    the interval is still set. *)
Record Typing : Type := {
  currentIndex : nat;
  displayedText : jsstring;
  interval : bool
}.

(** The effect, run when [text] or [isTyping] changes. *)
Definition effect (isTyping : bool) : Typing :=
  {| currentIndex := 0; displayedText := []; interval := negb isTyping |}.

(** One firing of the interval callback, every 20 ms while it is set. *)
Definition tick (text : jsstring) (t : Typing) : Typing :=
  if interval t then
    if currentIndex t <? length text then
      {| currentIndex := S (currentIndex t);
         displayedText := take (currentIndex t + 1) text;
         interval := true |}
    else
      {| currentIndex := currentIndex t;
         displayedText := displayedText t;
         interval := false |}
  else t.

Fixpoint ticks (text : jsstring) (n : nat) (t : Typing) : Typing :=
  match n with
  | O => t
  | S k => tick text (ticks text k t)
  end.

(** What the paragraph shows, the cursor apart. *)
Definition shown (isTyping : bool) (t : Typing) : jsstring :=
  if isTyping then js "Pensando..." else displayedText t.

End Terminal.

(** ** The game screen ([components/GameScreen.tsx], lines 12-83, and
       the props [App.tsx] gives it, lines 354-360) *)

Module Screen.
Import JS Types.

(** What the component puts on the screen, as far as its conditions
    decide it: the label, the source of the image, the words NO SIGNAL,
    the list of exits, the text of the loading overlay and the item of
    the tooltip. *)
Record View : Type := {
  label : jsstring;
  image : option jsstring;
  noSignal : bool;
  exits : list jsstring;
  overlay : option jsstring;
  tooltip : option InventoryItem
}.

Definition GameScreen (imageUrl loadingStatus : option jsstring)
    (location : jsstring) (hoveredItem : option InventoryItem)
    (availableExits : list jsstring) : View :=
  let hasImage := match imageUrl with Some i => truthyStr i | None => false end in
  let isBusy := match loadingStatus with Some l => truthyStr l | None => false end in
  let safeExits := availableExits in
  {| label := location;
     image := if hasImage then imageUrl else None;
     noSignal := negb hasImage && negb isBusy;
     exits := if (0 <? length safeExits) && negb isBusy then safeExits else [];
     overlay := if isBusy then loadingStatus else None;
     tooltip := if isBusy then None else hoveredItem |}.

(** The screen of a state, with the item the pointer is on. *)
Definition screenOf (gameState : GameState) (hoveredInventoryItem : option InventoryItem)
    : View :=
  GameScreen (imageUrl gameState) (phaseText <$> loadingStatus gameState)
    (location gameState) hoveredInventoryItem (availableExits gameState).

End Screen.

(** ** Sample data: a case mapping, services and states to run the
       program on *)

Module Samples.
Import JS JSON Types Effects Gemini Sanitizer App.
Local Open Scope string_scope.

(** The case mapping of a platform restricted to Basic Latin. *)
Program Definition basicLatin : CaseMapping :=
  {| toUpperCase := map upperBasicLatin;
     toLowerCase := map lowerBasicLatin |}.
Next Obligation. reflexivity. Qed.
Next Obligation.
  intros c Hc [Hin | []]. unfold upperBasicLatin, isLowerAZ in Hin.
  destruct (_ && _) eqn:E; [| congruence].
  apply andb_prop in E as [E1 E2]. apply N.leb_le in E1, E2. lia.
Qed.

Definition item (n : string) : InventoryItem :=
  {| name := js n; description := Some (js "d") |}.

Definition demoSettings : GameSettings :=
  {| world := js "Bilbao"; startLocation := js "Bilbao, Casco Viejo";
     artStyle := js "Pixel Art"; objective := js "Kalimotxo";
     tone := js "Humor" |}.

(** The state of [useState] before a session starts. *)
Definition blankState : GameState :=
  {| settings := demoSettings; location := []; narrative := [];
     inventory := []; availableExits := []; visualDescription := [];
     imageUrl := None; loadingStatus := None; history := [];
     knownLocations := ∅ |}.

Definition unavailable : ApiError := Error (js "unavailable").

(** A service that answers every text request with [reply] (or fails
    when there is none) and every image request with [image] (or
    fails). *)
Definition scripted (reply : option jsstring) (image : option jsstring) : Service :=
  fun _ req =>
    match req with
    | ImageRequest _ _ =>
      match image with
      | Some i => inr {| text := None; imageData := Some i |}
      | None => inl unavailable
      end
    | _ =>
      match reply with
      | Some t => inr {| text := Some t; imageData := None |}
      | None => inl unavailable
      end
    end.

(** A service that is down. *)
Definition svcDown : Service := scripted None None.

(** A reply document for location [loc], with the visual prompt
    [prompt] and one inventory item. *)
Definition replyText (loc prompt itemName : string) : jsstring :=
  jsq "{'narrative':'n','location':'" ++ js loc
  ++ jsq "','visualPrompt':'" ++ js prompt
  ++ jsq "','inventory':[{'name':'" ++ js itemName
  ++ jsq "','description':'d'}],'keyElements':[],'availableExits':['Norte'],'visualChanged':true}".

(** A service that sends that document and the image [image]. *)
Definition replying (loc prompt itemName : string) (image : option string) : Service :=
  scripted (Some (replyText loc prompt itemName)) (js <$> image).

Definition eventsOf (r : Result unit * World) : list Event := events (snd r).

Definition isImageCall (e : Event) : bool :=
  match e with Call (ImageRequest _ _) => true | _ => false end.

Definition isCall (e : Event) : bool :=
  match e with Call _ => true | _ => false end.

(** The state after a run. *)
Definition after (r : Result unit * World) : GameState := store (snd r).

(** [n] turns in a row against the same service. *)
Fixpoint turns `{CaseMapping} (svc : Service) (n : nat) (s : GameState)
    (action : jsstring) : GameState :=
  match n with
  | O => s
  | S k => after (turn svc [] (turns svc k s action) action)
  end.

(** A session that starts in the cave, with a rendered image. *)
Definition inCave : GameState :=
  after (@start basicLatin (replying "Cueva" "p" "Llave" (Some "CAVE")) []
           blankState demoSettings).

(** The player then walks to the square, rendered too. *)
Definition inPlaza : GameState :=
  after (@turn basicLatin (replying "Plaza" "plaza" "Llave" (Some "PLAZA")) []
           inCave (js "ir a la plaza")).

(** A session whose service named an item [xx8686]. *)
Definition withOddItem : GameState :=
  after (@start basicLatin (replying "Cueva" "p" "xx8686" (Some "CAVE")) []
           blankState demoSettings).

(** A session that started while the service was down. *)
Definition startedOffline : GameState :=
  after (@start basicLatin svcDown [] blankState demoSettings).

(** The player walks from the square to a mine that cannot be
    rendered. *)
Definition inDarkMine : GameState :=
  after (@turn basicLatin (replying "Mina" "mina" "Llave" None) []
           inPlaza (js "ir a la mina")).

(** The square has the cave in its cache; the service then reports the
    cave again, in upper case and padded, with a new visual prompt. *)
Definition reportsCaveAgain : Service := replying " CUEVA " "q" "Llave" None.

(** A document of the schema whose item has a description and no
    name, and a service that sends it and renders every scene. *)
Definition namelessReply : jsstring :=
  jsq "{'narrative':'n','location':'Cueva','visualPrompt':'p',"
  ++ jsq "'inventory':[{'description':'d'}],'keyElements':[],"
  ++ jsq "'availableExits':['Norte'],'visualChanged':true}".

Definition sendsNameless : Service :=
  scripted (Some namelessReply) (Some (js "CAVE")).

(** A service whose reply is not a document at all. *)
Definition garbled : Service := scripted (Some (js "garbage")) None.

(** A service that reports a change in the cave but cannot render. *)
Definition cannotRender : Service := replying "Cueva" "p2" "Llave" None.

(** A service that reports the mine again and can render it now. *)
Definition rendersMine : Service := replying "Mina" "mina2" "Llave" (Some "MINE"%string).

End Samples.


(** * The vocabulary of the properties *)

Import JS JSON Types Effects Gemini Sanitizer App Samples.
Local Open Scope eff_scope.

Definition isUntyped {A} (r : Result A) : bool :=
  match r with Untyped => true | _ => false end.

Definition isAlert (e : Event) : bool :=
  match e with Alert _ => true | _ => false end.

(** A computation is [quiet] when it always stays inside the declared
    types, never writes the React state, and only appends requests and
    waits to the log, never an alert. *)
Definition quiet {A} (m : Eff A) : Prop :=
  forall svc w,
    isUntyped (fst (m svc w)) = false
    /\ store (snd (m svc w)) = store w
    /\ isGameStarted (snd (m svc w)) = isGameStarted w
    /\ exists evs, events (snd (m svc w)) = events w ++ evs
                   /\ List.existsb isAlert evs = false.

(** An attempt of [generateInitialGameWorld] at the model [m] answers
    with the world [raw]: the request went through, at once or after
    retries, and the reply decodes to something usable, perhaps after
    repair. *)
Definition tierAnswers (m : Model) (st : GameSettings) (svc : Service)
    (w : World) (raw : RawResponse) (w' : World) : Prop :=
  exists resp,
    generateWithModel m st svc w = (Ok resp, w')
    /\ truthy (decodeReply resp) = true
    /\ raw = mapParsedResponse (decodeReply resp) st.

(** The attempt fails: the request still throws after the retries, or
    the reply decodes to nothing usable even after repair. *)
Definition tierFails (m : Model) (st : GameSettings) (svc : Service)
    (w w' : World) : Prop :=
  (exists e, generateWithModel m st svc w = (Throw e, w'))
  \/ (exists resp,
        generateWithModel m st svc w = (Ok resp, w')
        /\ truthy (decodeReply resp) = false).

(** The typed reading of the synthesized fallback. *)
Definition fallbackResponse (st : GameSettings) : GameResponse :=
  {| r_narrative :=
       js "El sistema se ha reiniciado tras una inestabilidad cuántica. Estás en el punto de inicio.";
     r_location := startLocation st;
     r_visualPrompt :=
       js "A pixel art scene of " ++ startLocation st
       ++ js " in " ++ artStyle st ++ js " style.";
     r_inventory := [];
     r_keyElements := [];
     r_availableExits := [];
     r_visualChanged := Some true |}.

(** The typed reading of the soft-error reply. *)
Definition softErrorResponse (s : GameState) : GameResponse :=
  {| r_narrative := js "La realidad parpadea. Intenta esa acción de nuevo.";
     r_location := location s;
     r_visualPrompt := visualDescription s;
     r_inventory := inventory s;
     r_keyElements := [];
     r_availableExits := availableExits s;
     r_visualChanged := Some false |}.

(** The world after the optimistic update. *)
Definition optimisticWorld (action : list N) (w : World) : World :=
  {| store := optimisticUpdate action (store w);
     isGameStarted := isGameStarted w; events := events w |}.

(** The world with another loading phase on display. *)
Definition statusWorld (st : option LoadingPhase) (w : World) : World :=
  {| store := withStatus st (store w);
     isGameStarted := isGameStarted w; events := events w |}.

(** The entry the cache should hold for the scene on display. *)
Definition sceneEntry (s : GameState) : VisitedLocation :=
  {| vl_imageUrl := imageOrEmpty (imageUrl s);
     vl_visualPrompt := visualDescription s |}.

(** The settings and the state name a location, and the cache holds
    the scene on display under the key of the current location. *)
Definition consistent `{CaseMapping} (s : GameState) : Prop :=
  startLocation (settings s) <> []
  /\ location s <> []
  /\ knownLocations s !! normalizeLocKey (location s) = Some (sceneEntry s).

(** The events of the attempts at one request: that call, at most
    [limit] times, and the waits between. *)
Definition attemptsAt (req : Request) (limit : nat) (evs : list Event) : Prop :=
  Forall (fun e => e = Call req \/ exists ms, e = Sleep ms) evs
  /\ length (List.filter isCall evs) <= limit.

(** The display constraints every sanitized name meets. *)
Definition displaySafe (i : InventoryItem) : Prop :=
  name i <> [] /\ length (name i) <= 22 /\ ~ In 95%N (name i).

(** ** The vocabulary of the further properties *)

Import Prompt Controls.

(** A string of Basic Latin units. *)
Definition basic (s : list N) : Prop := Forall (fun c => (c < 128)%N) s.

(** The prefix [generate] puts before the image bytes. *)
Definition pngPrefix : list N := js "data:image/png;base64,".

(** An image as the session holds it: empty, or a PNG data URL with
    some payload. *)
Definition rendered (i : list N) : Prop :=
  i = [] \/ exists payload, payload <> [] /\ i = pngPrefix ++ payload.

(** The units that stand for themselves inside a string literal of a
    JSON text: no quote, no backslash, no control character. *)
Definition plainUnit (c : N) : bool :=
  negb (c =? 34)%N && negb (c =? 92)%N && negb (c <? 32)%N.

Definition plain (s : list N) : Prop := forallb plainUnit s = true.

(** The texts a reply is cut down to: an object with one member that
    breaks off inside or after its value. *)
Definition memberOpen (k : list N) : list N := jsq "{'" ++ k ++ jsq "':".

Arguments memberOpen : simpl never.

(** The log of an exchange that took [k] retries: the request, and
    before each retry a wait twice as long as the one before. *)
Fixpoint schedule (req : Request) (delay : N) (k : nat) : list Event :=
  match k with
  | O => [Call req]
  | S k' => Call req :: Sleep delay :: schedule req (delay * 2) k'
  end.

(** The requests of a log, and the time spent waiting in it. *)
Definition calls (evs : list Event) : nat := length (List.filter isCall evs).

Definition waited (evs : list Event) : N :=
  fold_right (fun e acc => match e with Sleep ms => (ms + acc)%N | _ => acc end)
             0%N evs.

(** A computation that, whatever the service does, sends at most [c]
    requests and waits at most [t] milliseconds. *)
Definition within (c : nat) (t : N) {A} (m : Eff A) : Prop :=
  forall svc w, exists evs,
    events (snd (m svc w)) = events w ++ evs
    /\ calls evs <= c /\ (waited evs <= t)%N.

(** The error of a service that is overloaded. *)
Definition busy : ApiError :=
  {| status := Some 503%N; code := None; message := None |}.

(** The error of a service that limits the rate of requests. *)
Definition rateLimited : ApiError :=
  {| status := Some 429%N; code := None; message := Some (js "Too Many Requests") |}.

(** A service that refuses every image request, and every other
    request until it has been asked [n] times. *)
Definition congested (n : nat) (reply : list N) : Service := fun log req =>
  match req with
  | ImageRequest _ _ => inl busy
  | _ =>
    if length (List.filter isCall log) <? n then inl busy
    else inr {| text := Some reply; imageData := None |}
  end.

(** A computation whose outcome and log depend on the log it starts
    from only, not on the React state. *)
Definition blind {A} (m : Eff A) : Prop :=
  forall svc w w',
    events w = events w' ->
    fst (m svc w) = fst (m svc w')
    /\ events (snd (m svc w)) = events (snd (m svc w')).

(** Every image the state holds, on display or in the cache, is empty
    or a PNG data URL. *)
Definition imagesRendered (s : GameState) : Prop :=
  (forall i, imageUrl s = Some i -> rendered i)
  /\ (forall key entry,
        knownLocations s !! key = Some entry -> rendered (vl_imageUrl entry)).

(** The fields [mapParsedResponse] reads. *)
Definition replyFields : list (list N) :=
  [ js "narrative"; js "location"; js "visualPrompt"; js "inventory";
    js "keyElements"; js "availableExits" ].

(** What a reply without any of them is mapped to. *)
Definition defaultResponse (st : GameSettings) : GameResponse :=
  {| r_narrative := js "Comienza la aventura...";
     r_location := startLocation st;
     r_visualPrompt := js "Scene of " ++ startLocation st;
     r_inventory := [];
     r_keyElements := [];
     r_availableExits := [];
     r_visualChanged := Some true |}.

(** A string that does not start with white space, and one that does
    not end with it. *)
Definition startsClean (s : list N) : bool :=
  match s with
  | c :: _ => negb (isWhiteSpace c)
  | [] => true
  end.

Definition endsClean (s : list N) : bool := startsClean (rev s).

(** Every white-space unit of the string is a space (U+0020), and no
    white space follows it. *)
Fixpoint spaced (s : list N) : bool :=
  match s with
  | [] => true
  | c :: r =>
    (negb (isWhiteSpace c) || ((c =? 32)%N && startsClean r)) && spaced r
  end.

(** An item with a description to show. *)
Definition described (i : InventoryItem) : Prop :=
  exists d, description i = Some d /\ d <> [].

(** Whether a prompt has one of the words [sanitizeVisualPrompt]
    replaces. *)
Definition flagged (text : list N) : bool :=
  test reKalimotxo text || test reAlcohol text
  || test reSoda text || test reBrand text
  || test reBlood text || test reKill text.

(** A string on one line. *)
Definition oneLine (s : list N) : Prop :=
  forallb (fun d => negb (isLineTerminator d)) s = true.

(** What the verb buttons rely on in the lower-case mapping of the
    platform: Basic Latin units at the start of a string are mapped
    one by one, whatever follows them. *)
Definition lowersBasicLatin `{CaseMapping} : Prop :=
  forall u rest, basic u ->
    exists rest',
      toLowerCase (u ++ rest) = map lowerBasicLatin u ++ rest'
      /\ (rest = [] -> rest' = []).

(** Whether a name has something the sanitizer takes for technical:
    an underscore, an error tail, a hash or a version. *)
Definition technical (n : list N) : bool :=
  test reUnderscore n || test reErrorTail n || test reHexToken n
  || test reVersion n.

(** A reply that stays in the cave and says that nothing visible
    changed. *)
Definition nothingChanged : list N :=
  jsq "{'narrative':'Nada cambia.','location':'Cueva','visualPrompt':'p',"
  ++ jsq "'inventory':[],'keyElements':[],'availableExits':[],"
  ++ jsq "'visualChanged':false}".

(** * Properties *)

(** ** Strings *)

Lemma orStr_nil_r (a : list N) : orStr a [] = a.
Proof. by destruct a. Qed.

Lemma orStr_truthy (a b : list N) : a <> [] -> orStr a b = a.
Proof. by destruct a. Qed.

Lemma dropWhile_all (p : N -> bool) (s : list N) :
  forallb p s = true -> dropWhile p s = [].
Proof.
  induction s as [| c r IH]; simpl; [reflexivity |].
  intros Hs. apply andb_prop in Hs as [Hc Hr]. rewrite Hc. auto.
Qed.

Lemma forallb_rev (p : N -> bool) (s : list N) :
  forallb p (rev s) = forallb p s.
Proof.
  induction s as [| c r IH]; simpl; [reflexivity |].
  rewrite forallb_app, IH. simpl. rewrite andb_true_r. apply andb_comm.
Qed.

Lemma trim_blank (a : list N) : forallb isWhiteSpace a = true -> trim a = [].
Proof.
  intros Ha. unfold trim, trimEnd, trimStart.
  rewrite (dropWhile_all _ (rev a)) by (rewrite forallb_rev; exact Ha).
  reflexivity.
Qed.

Lemma dropWhile_nil_all (p : N -> bool) (s : list N) :
  dropWhile p s = [] -> forallb p s = true.
Proof.
  induction s as [| c r IH]; simpl; [reflexivity |].
  destruct (p c); [exact IH | discriminate].
Qed.

Lemma dropWhile_head (p : N -> bool) (s : list N) c r :
  dropWhile p s = c :: r -> p c = false.
Proof.
  induction s as [| d t IH]; simpl; [discriminate |].
  destruct (p d) eqn:E; [exact IH |]. intros [= -> _]. exact E.
Qed.

Lemma dropWhile_app_stop (p : N -> bool) (s : list N) c :
  p c = false -> dropWhile p (s ++ [c]) <> [].
Proof.
  intros Hc. induction s as [| d t IH]; simpl.
  - rewrite Hc. discriminate.
  - destruct (p d); [exact IH | discriminate].
Qed.

(** [trim] leaves nothing exactly when every unit is white space. *)
Lemma trim_nil_iff (a : list N) : trim a = [] <-> forallb isWhiteSpace a = true.
Proof.
  split; [| apply trim_blank].
  unfold trim, trimEnd, trimStart. intros Ht.
  destruct (dropWhile isWhiteSpace (rev a)) as [| c r] eqn:E.
  - rewrite <- forallb_rev. apply dropWhile_nil_all. exact E.
  - exfalso. simpl in Ht.
    apply (dropWhile_app_stop isWhiteSpace (rev r) c); [| exact Ht].
    eapply dropWhile_head. exact E.
Qed.

(** ** Running a computation *)

Lemma bind_ok {A B} (m : Eff A) (k : A -> Eff B) svc w a w' :
  m svc w = (Ok a, w') -> bind m k svc w = k a svc w'.
Proof. intros Hm. unfold bind. by rewrite Hm. Qed.

Lemma bind_throw {A B} (m : Eff A) (k : A -> Eff B) svc w e w' :
  m svc w = (Throw e, w') -> bind m k svc w = (Throw e, w').
Proof. intros Hm. unfold bind. by rewrite Hm. Qed.

Lemma bind_untyped {A B} (m : Eff A) (k : A -> Eff B) svc w w' :
  m svc w = (Untyped, w') -> bind m k svc w = (Untyped, w').
Proof. intros Hm. unfold bind. by rewrite Hm. Qed.

Lemma tryCatch_ok {A} (m : Eff A) (h : ApiError -> Eff A) svc w a w' :
  m svc w = (Ok a, w') -> tryCatch m h svc w = (Ok a, w').
Proof. intros Hm. unfold tryCatch. by rewrite Hm. Qed.

Lemma tryCatch_throw {A} (m : Eff A) (h : ApiError -> Eff A) svc w e w' :
  m svc w = (Throw e, w') -> tryCatch m h svc w = h e svc w'.
Proof. intros Hm. unfold tryCatch. by rewrite Hm. Qed.

Lemma tryCatch_untyped {A} (m : Eff A) (h : ApiError -> Eff A) svc w w' :
  m svc w = (Untyped, w') -> tryCatch m h svc w = (Untyped, w').
Proof. intros Hm. unfold tryCatch. by rewrite Hm. Qed.

(** ** The effects of the service layer *)

Lemma quiet_ret {A} (a : A) : quiet (ret a).
Proof. intros svc w. simpl. repeat split. exists []. by rewrite app_nil_r. Qed.

Lemma quiet_throw {A} (e : ApiError) : quiet (@throw A e).
Proof. intros svc w. simpl. repeat split. exists []. by rewrite app_nil_r. Qed.

Lemma quiet_sleep ms : quiet (sleep ms).
Proof. intros svc w. simpl. repeat split. by exists [Sleep ms]. Qed.

Lemma quiet_generateContent r : quiet (generateContent r).
Proof.
  intros svc w. unfold generateContent.
  destruct (svc (events w) r); simpl; repeat split; by exists [Call r].
Qed.

Lemma quiet_bind {A B} (m : Eff A) (k : A -> Eff B) :
  quiet m -> (forall a, quiet (k a)) -> quiet (bind m k).
Proof.
  intros Hm Hk svc w. unfold bind.
  destruct (Hm svc w) as (Hu & Hs & Hg & evs & He & Hna).
  destruct (m svc w) as [[a | e |] w1]; simpl in *; try discriminate.
  - destruct (Hk a svc w1) as (Hu' & Hs' & Hg' & evs' & He' & Hna').
    repeat split; try congruence.
    exists (evs ++ evs'). rewrite He', He, existsb_app, Hna, Hna'.
    by rewrite app_assoc.
  - repeat split; try congruence. by exists evs.
Qed.

Lemma quiet_tryCatch {A} (m : Eff A) (h : ApiError -> Eff A) :
  quiet m -> (forall e, quiet (h e)) -> quiet (tryCatch m h).
Proof.
  intros Hm Hh svc w. unfold tryCatch.
  destruct (Hm svc w) as (Hu & Hs & Hg & evs & He & Hna).
  destruct (m svc w) as [[a | e |] w1]; simpl in *; try discriminate.
  - repeat split; try congruence. by exists evs.
  - destruct (Hh e svc w1) as (Hu' & Hs' & Hg' & evs' & He' & Hna').
    repeat split; try congruence.
    exists (evs ++ evs'). rewrite He', He, existsb_app, Hna, Hna'.
    by rewrite app_assoc.
Qed.

Lemma quiet_callWithRetry {A} (fn : Eff A) retries delay :
  quiet fn -> quiet (callWithRetry fn retries delay).
Proof.
  intros Hfn. revert delay.
  induction retries as [| k IH]; intros delay; simpl.
  - apply quiet_tryCatch; [exact Hfn | intros e; apply quiet_throw].
  - apply quiet_tryCatch; [exact Hfn |].
    intros e. destruct (isTransient e); [| apply quiet_throw].
    apply quiet_bind; [apply quiet_sleep | intros _; apply IH].
Qed.

Lemma quiet_generate prompt refImage : quiet (generate prompt refImage).
Proof.
  unfold generate. apply quiet_bind.
  - apply quiet_callWithRetry, quiet_generateContent.
  - intros resp. destruct (imageData resp) as [b |]; [| apply quiet_throw].
    destruct (truthyStr b); [apply quiet_ret | apply quiet_throw].
Qed.

Lemma quiet_generateSceneImage vp style ke ref :
  quiet (generateSceneImage vp style ke ref).
Proof.
  unfold generateSceneImage.
  apply quiet_tryCatch; [apply quiet_generate |].
  intros _. apply quiet_tryCatch; [apply quiet_generate |].
  intros _. apply quiet_ret.
Qed.

Lemma quiet_generateWithModel m st : quiet (generateWithModel m st).
Proof. apply quiet_callWithRetry, quiet_generateContent. Qed.

Lemma quiet_initAttemptPro st : quiet (initAttemptPro st).
Proof.
  unfold initAttemptPro. apply quiet_bind; [apply quiet_generateWithModel |].
  intros resp. destruct (truthy _); [apply quiet_ret | apply quiet_throw].
Qed.

Lemma quiet_initAttemptFlash st : quiet (initAttemptFlash st).
Proof.
  unfold initAttemptFlash. apply quiet_tryCatch; [| intros; apply quiet_ret].
  apply quiet_bind; [apply quiet_generateWithModel |].
  intros resp. destruct (truthy _); apply quiet_ret.
Qed.

Lemma quiet_generateInitialGameWorld st : quiet (generateInitialGameWorld st).
Proof.
  unfold generateInitialGameWorld.
  apply quiet_tryCatch; [apply quiet_initAttemptPro |].
  intros _. apply quiet_bind; [apply quiet_initAttemptFlash |].
  intros [r |]; apply quiet_ret.
Qed.

Lemma quiet_generateGameResponse a s img : quiet (generateGameResponse a s img).
Proof.
  unfold generateGameResponse.
  apply quiet_tryCatch; [| intros; apply quiet_throw].
  apply quiet_bind; [apply quiet_callWithRetry, quiet_generateContent |].
  intros resp. destruct (truthy _); apply quiet_ret.
Qed.

(** A handler that returns makes the whole [try] return. *)
Lemma tryCatch_returns {A} (m : Eff A) (h : ApiError -> Eff A) svc w :
  isUntyped (fst (m svc w)) = false ->
  (forall e w1, exists a w2, h e svc w1 = (Ok a, w2)) ->
  exists a w2, tryCatch m h svc w = (Ok a, w2).
Proof.
  intros Hu Hh. unfold tryCatch.
  destruct (m svc w) as [[a | e |] w1]; simpl in *; try discriminate; eauto.
Qed.

(** [generateSceneImage] returns on every behaviour of the service. *)
Lemma generateSceneImage_returns vp style ke ref svc w :
  exists img w',
    generateSceneImage vp style ke ref svc w = (Ok img, w')
    /\ store w' = store w /\ isGameStarted w' = isGameStarted w
    /\ exists evs, events w' = events w ++ evs
                   /\ List.existsb isAlert evs = false.
Proof.
  destruct (quiet_generateSceneImage vp style ke ref svc w) as (Hu & Hs & Hg & He).
  assert (Hr : exists a w2, generateSceneImage vp style ke ref svc w = (Ok a, w2)).
  { unfold generateSceneImage. apply tryCatch_returns.
    - apply quiet_generate.
    - intros e w1. apply tryCatch_returns.
      + apply quiet_generate.
      + intros e2 w2. by exists [], w2. }
  destruct Hr as (img & w' & Hr). rewrite Hr in *. simpl in *.
  exists img, w'. auto.
Qed.

(** ** The busy gate *)

(** C1.  Whenever [loadingStatus] is set, or the action is empty or
    made of white space only, [handleAction] is a no-op: it returns at
    once and leaves the world as it found it -- the same state (so no
    history entry is appended) and the same log (so no request is sent
    to the generative service). *)
Theorem handleAction_busy_gate `{CaseMapping}
    (s : GameState) (action : list N) (svc : Service) (w : World) :
  loadingStatus s <> None \/ forallb isWhiteSpace action = true ->
  handleAction s action svc w = (Ok tt, w)
  /\ turn svc (events w) s action
     = (Ok tt, {| store := s; isGameStarted := true; events := events w |}).
Proof.
  intros Hgate.
  assert (Hrej : rejected s action = true).
  { unfold rejected. destruct Hgate as [Hbusy | Hblank].
    - destruct (loadingStatus s) as [[] |]; [reflexivity .. | congruence].
    - rewrite (trim_blank _ Hblank). apply orb_true_r. }
  unfold turn, handleAction. rewrite Hrej. split; reflexivity.
Qed.

(** ** Structured-reply repair *)

(** C6.  On the reply that opens an object with the key [narrative]
    and is cut after the first five units [Hello] of its string value,
    the brace extraction changes nothing, the direct decode and the
    first two repairs fail, and the last repair (close the string,
    then the brace) yields the document whose [narrative] is exactly
    [Hello], with no quote left in it.  In general, when every attempt
    fails [tryParseJSON] returns [null]; being a total function, it
    never throws. *)
Theorem repair_truncated_narrative :
  let raw := jsq "{'narrative':'Hello" in
  cleanJsonOutput raw = raw
  /\ JSON_parse raw = None
  /\ JSON_parse (raw ++ js "}") = None
  /\ JSON_parse (raw ++ js "]}") = None
  /\ tryParseJSON (cleanJsonOutput raw) = JObj [(js "narrative", JStr (js "Hello"))]
  /\ getProp (tryParseJSON (cleanJsonOutput raw)) (js "narrative") = Some (JStr (js "Hello"))
  /\ ~ In 34%N (js "Hello")
  /\ (forall s : list N,
        JSON_parse s = None ->
        JSON_parse (s ++ js "}") = None ->
        JSON_parse (s ++ js "]}") = None ->
        JSON_parse (s ++ jsq "'}") = None ->
        tryParseJSON s = JNull).
Proof.
  repeat split; try (vm_compute; reflexivity).
  - vm_compute. intros Hin. repeat (destruct Hin as [Hin | Hin]; [discriminate |]).
    exact Hin.
  - intros s H0 H1 H2 H3. unfold tryParseJSON.
    rewrite H0, H1, H2, H3. destruct (endsWith _ _); reflexivity.
Qed.

(** ** World initialization *)

Lemma callWithRetry_first_call (r : Request) retries delay svc w :
  exists evs,
    events (snd (callWithRetry (generateContent r) retries delay svc w))
    = events w ++ Call r :: evs.
Proof.
  assert (Hstep : forall (h : ApiError -> Eff ApiResponse),
             (forall e, quiet (h e)) ->
             exists evs,
               events (snd (tryCatch (generateContent r) h svc w))
               = events w ++ Call r :: evs).
  { intros h Hh. unfold tryCatch, generateContent.
    destruct (svc (events w) r) as [e | resp]; simpl.
    - destruct (Hh e svc (logEvent (Call r) w)) as (_ & _ & _ & evs & He & _).
      exists evs. rewrite He. simpl. by rewrite <- app_assoc.
    - by exists []. }
  destruct retries as [| k]; simpl; apply Hstep; intros e.
  - apply quiet_throw.
  - destruct (isTransient e); [| apply quiet_throw].
    apply quiet_bind; [apply quiet_sleep |].
    intros _. apply quiet_callWithRetry, quiet_generateContent.
Qed.

Lemma initAttemptFlash_returns st svc w :
  exists second w',
    initAttemptFlash st svc w = (Ok second, w')
    /\ exists evs, events w' = events w ++ Call (WorldRequest MODEL_LOOP st) :: evs.
Proof.
  unfold initAttemptFlash, tryCatch, bind, generateWithModel.
  destruct (callWithRetry_first_call (WorldRequest MODEL_LOOP st) 3 500 svc w)
    as (evs & He).
  destruct (quiet_callWithRetry (generateContent (WorldRequest MODEL_LOOP st))
              3 500 (quiet_generateContent _) svc w) as (Hu & _).
  destruct (callWithRetry _ 3 _ svc w) as [[resp | e |] w1];
    simpl in *; try discriminate.
  - destruct (truthy _); simpl; eauto.
  - eauto.
Qed.

Lemma conform_ultimateFallback st :
  conform (ultimateFallback st) = Some (fallbackResponse st).
Proof. reflexivity. Qed.

Lemma generateInitialGameWorld_cases st svc w :
  match initAttemptPro st svc w with
  | (Ok r, w1) => generateInitialGameWorld st svc w = (Ok r, w1)
  | (Throw e, w1) =>
    exists second w2,
      initAttemptFlash st svc w1 = (Ok second, w2)
      /\ generateInitialGameWorld st svc w
         = (Ok (match second with Some r => r | None => ultimateFallback st end), w2)
  | (Untyped, _) => False
  end.
Proof.
  destruct (quiet_initAttemptPro st svc w) as (Hu & _).
  unfold generateInitialGameWorld, tryCatch.
  destruct (initAttemptPro st svc w) as [[r | e |] w1]; simpl in *;
    try discriminate; [reflexivity |].
  destruct (initAttemptFlash_returns st svc w1) as (second & w2 & Hf & _).
  exists second, w2. split; [exact Hf |].
  unfold bind. rewrite Hf. destruct second; reflexivity.
Qed.

Lemma generateInitialGameWorld_returns st svc w :
  exists raw w1,
    generateInitialGameWorld st svc w = (Ok raw, w1)
    /\ store w1 = store w /\ isGameStarted w1 = isGameStarted w
    /\ exists evs, events w1 = events w ++ evs
                   /\ List.existsb isAlert evs = false.
Proof.
  destruct (quiet_generateInitialGameWorld st svc w) as (_ & Hs & Hg & He).
  pose proof (generateInitialGameWorld_cases st svc w) as Hc.
  destruct (initAttemptPro st svc w) as [[r | e |] w1]; [| | contradiction].
  - rewrite Hc in *. simpl in *. eauto 10.
  - destruct Hc as (second & w2 & _ & Hc). rewrite Hc in *. simpl in *. eauto 10.
Qed.

(** A world of the declared type passes every use [handleStartGame]
    makes of it. *)
Lemma conform_sceneArguments raw iw :
  conform raw = Some iw ->
  sceneArguments raw = Some (r_visualPrompt iw, r_keyElements iw).
Proof.
  unfold conform, sceneArguments. intros Hconf.
  destruct (asString (raw_narrative raw)); [| discriminate].
  destruct (asString (raw_location raw)); [| discriminate].
  destruct (asString (raw_visualPrompt raw)); [| discriminate].
  destruct (asItems (raw_inventory raw)); [| discriminate].
  destruct (asStrings (raw_keyElements raw)); [| discriminate].
  destruct (asStrings (raw_availableExits raw)); [| discriminate].
  by injection Hconf as <-.
Qed.

Lemma asItem_hasName v i : asItem v = Some i -> hasName v = true.
Proof.
  unfold asItem, hasName, getProp.
  destruct v as [| | | | | m]; try discriminate.
  destruct (lookupLast (js "name") m) as [[] |]; try discriminate. reflexivity.
Qed.

Lemma mapM_asItem_hasName l items :
  mapM asItem l = Some items -> forallb hasName l = true.
Proof.
  intros Hl. apply mapM_Some_1 in Hl.
  induction Hl as [| v i l' items' Hv _ IH]; [reflexivity |].
  simpl. by rewrite (asItem_hasName _ _ Hv), IH.
Qed.

Lemma conform_stateArguments raw iw :
  conform raw = Some iw -> stateArguments raw = Some tt.
Proof.
  unfold conform, stateArguments, orValue. intros Hconf.
  destruct (asString (raw_narrative raw)) as [nar |]; [| discriminate].
  destruct (asString (raw_location raw)) as [loc |] eqn:Hl; [| discriminate].
  destruct (asString (raw_visualPrompt raw)) as [vp |]; [| discriminate].
  destruct (asItems (raw_inventory raw)) as [items |] eqn:Hi; [| discriminate].
  clear Hconf.
  destruct (raw_inventory raw) as [| | | | vs |]; try discriminate.
  destruct (raw_location raw) as [| | | s | |]; try discriminate.
  simpl in Hi. cbn [truthy].
  destruct (truthyStr s); by rewrite (mapM_asItem_hasName _ _ Hi).
Qed.

Lemma guard_passes st :
  startLocation st <> [] -> artStyle st <> [] ->
  negb (truthyStr (startLocation st)) || negb (truthyStr (artStyle st)) = false.
Proof.
  intros Hloc Hstyle.
  destruct (startLocation st); [congruence |].
  destruct (artStyle st); [congruence | reflexivity].
Qed.

(** The ways of [handleStartGame] behind the guard of the form: the
    world is asked for first; then the scene is rendered unless its
    arguments cannot be used, the state is built unless the items or
    the location cannot be used, and the session starts. *)
Lemma handleStartGame_run `{CaseMapping} st svc w :
  startLocation st <> [] -> artStyle st <> [] ->
  exists raw w1,
    generateInitialGameWorld st svc w = (Ok raw, w1)
    /\ match sceneArguments raw with
       | None => handleStartGame st svc w = (Ok tt, logEvent (Alert startAlert) w1)
       | Some scene =>
         exists img w2,
           generateSceneImage (fst scene) (artStyle st) (snd scene) None svc w1
           = (Ok img, w2)
           /\ match stateArguments raw, conform raw with
              | None, _ =>
                handleStartGame st svc w = (Ok tt, logEvent (Alert startAlert) w2)
              | Some _, None => handleStartGame st svc w = (Untyped, w2)
              | Some _, Some initialWorld =>
                handleStartGame st svc w
                = (Ok tt, {| store := initialState st initialWorld img;
                             isGameStarted := true; events := events w2 |})
              end
       end.
Proof.
  intros Hloc Hstyle.
  destruct (generateInitialGameWorld_returns st svc w) as (raw & w1 & Hg & _).
  exists raw, w1. split; [exact Hg |].
  unfold handleStartGame. rewrite (guard_passes st Hloc Hstyle).
  destruct (sceneArguments raw) as [scene |] eqn:Hscene.
  - destruct (generateSceneImage_returns (fst scene) (artStyle st)
                (snd scene) None svc w1) as (img & w2 & Hi & _).
    exists img, w2. split; [exact Hi |].
    destruct (stateArguments raw) as [[] |] eqn:Hstate;
      [destruct (conform raw) as [iw |] eqn:Hconf |].
    + apply tryCatch_ok.
      rewrite (bind_ok _ _ _ _ _ _ Hg).
      erewrite bind_ok by (rewrite Hscene; reflexivity).
      rewrite (bind_ok _ _ _ _ _ _ Hi).
      erewrite bind_ok by (rewrite Hstate; reflexivity).
      erewrite bind_ok by (unfold typed; rewrite Hconf; reflexivity).
      reflexivity.
    + apply tryCatch_untyped.
      rewrite (bind_ok _ _ _ _ _ _ Hg).
      erewrite bind_ok by (rewrite Hscene; reflexivity).
      rewrite (bind_ok _ _ _ _ _ _ Hi).
      erewrite bind_ok by (rewrite Hstate; reflexivity).
      apply bind_untyped. unfold typed. by rewrite Hconf.
    + erewrite tryCatch_throw; [reflexivity |].
      rewrite (bind_ok _ _ _ _ _ _ Hg).
      erewrite bind_ok by (rewrite Hscene; reflexivity).
      rewrite (bind_ok _ _ _ _ _ _ Hi).
      apply bind_throw. rewrite Hstate. reflexivity.
  - erewrite tryCatch_throw; [reflexivity |].
    rewrite (bind_ok _ _ _ _ _ _ Hg).
    apply bind_throw. rewrite Hscene. reflexivity.
Qed.

(** With a world of the declared type the session starts; with any
    other world the flag of the session stays as it was. *)
Lemma handleStartGame_cases `{CaseMapping} st svc w :
  startLocation st <> [] -> artStyle st <> [] ->
  exists raw w1,
    generateInitialGameWorld st svc w = (Ok raw, w1)
    /\ match conform raw with
       | None => isGameStarted (snd (handleStartGame st svc w)) = isGameStarted w
       | Some initialWorld =>
         exists img w2,
           generateSceneImage (r_visualPrompt initialWorld) (artStyle st)
             (r_keyElements initialWorld) None svc w1 = (Ok img, w2)
           /\ handleStartGame st svc w
              = (Ok tt, {| store := initialState st initialWorld img;
                           isGameStarted := true; events := events w2 |})
       end.
Proof.
  intros Hloc Hstyle.
  destruct (handleStartGame_run st svc w Hloc Hstyle) as (raw & w1 & Hg & Hc).
  destruct (generateInitialGameWorld_returns st svc w)
    as (raw' & w1' & Hg' & _ & Hflag1 & _).
  rewrite Hg in Hg'. injection Hg' as <- <-.
  exists raw, w1. split; [exact Hg |].
  destruct (conform raw) as [iw |] eqn:Hconf.
  - rewrite (conform_sceneArguments _ _ Hconf) in Hc.
    rewrite (conform_stateArguments _ _ Hconf) in Hc. exact Hc.
  - destruct (sceneArguments raw) as [scene |]; [| by rewrite Hc].
    destruct Hc as (img & w2 & Hi & Hc).
    destruct (generateSceneImage_returns (fst scene) (artStyle st)
                (snd scene) None svc w1) as (img' & w2' & Hi' & _ & Hflag2 & _).
    rewrite Hi in Hi'. injection Hi' as <- <-.
    destruct (stateArguments raw); rewrite Hc; simpl; congruence.
Qed.

Lemma handleStartGame_never_throws `{CaseMapping} st svc w e :
  fst (handleStartGame st svc w) <> Throw e.
Proof.
  unfold handleStartGame.
  destruct (_ || _); [discriminate |].
  unfold tryCatch.
  match goal with |- context [match ?m with _ => _ end] => destruct m as [[[] | e' |] w1] end;
    discriminate.
Qed.

(** An attempt either answers or fails, and it starts with a request
    to its model. *)
Lemma tier_outcome m st svc w :
  exists w1 evs,
    events w1 = events w ++ Call (WorldRequest m st) :: evs
    /\ List.existsb isAlert evs = false
    /\ ((exists raw, tierAnswers m st svc w raw w1) \/ tierFails m st svc w w1).
Proof.
  unfold tierAnswers, tierFails, generateWithModel.
  destruct (callWithRetry_first_call (WorldRequest m st) 3 500 svc w) as (evs & He).
  destruct (quiet_callWithRetry (generateContent (WorldRequest m st))
              3 500 (quiet_generateContent _) svc w)
    as (Hu & _ & _ & evs' & He' & Hna).
  rewrite He in He'. apply app_inv_head in He'. subst evs'.
  destruct (callWithRetry _ 3 _ svc w) as [[resp | e |] w1];
    simpl in *; try discriminate; exists w1, evs; (split; [exact He |]);
    (split; [exact Hna |]).
  - destruct (truthy (decodeReply resp)) eqn:Ht; [left | right; right]; eauto.
  - right. left. eauto.
Qed.

Lemma initAttemptPro_answers st svc w raw w1 :
  tierAnswers MODEL_INIT st svc w raw w1 -> initAttemptPro st svc w = (Ok raw, w1).
Proof.
  intros (resp & Hg & Ht & ->). unfold initAttemptPro, bind.
  by rewrite Hg, Ht.
Qed.

Lemma initAttemptPro_fails st svc w w1 :
  tierFails MODEL_INIT st svc w w1 ->
  exists e, initAttemptPro st svc w = (Throw e, w1).
Proof.
  intros [(e & Hg) | (resp & Hg & Ht)]; unfold initAttemptPro, bind.
  - exists e. by rewrite Hg.
  - eexists. by rewrite Hg, Ht.
Qed.

Lemma initAttemptFlash_answers st svc w raw w1 :
  tierAnswers MODEL_LOOP st svc w raw w1 ->
  initAttemptFlash st svc w = (Ok (Some raw), w1).
Proof.
  intros (resp & Hg & Ht & ->). unfold initAttemptFlash, tryCatch, bind.
  by rewrite Hg, Ht.
Qed.

Lemma initAttemptFlash_fails st svc w w1 :
  tierFails MODEL_LOOP st svc w w1 -> initAttemptFlash st svc w = (Ok None, w1).
Proof.
  intros [(e & Hg) | (resp & Hg & Ht)]; unfold initAttemptFlash, tryCatch, bind.
  - by rewrite Hg.
  - by rewrite Hg, Ht.
Qed.

Lemma generateInitialGameWorld_second st svc w w1 second w2 :
  tierFails MODEL_INIT st svc w w1 ->
  initAttemptFlash st svc w1 = (Ok second, w2) ->
  generateInitialGameWorld st svc w
  = (Ok (match second with Some r => r | None => ultimateFallback st end), w2).
Proof.
  intros Hfail Hflash.
  destruct (initAttemptPro_fails _ _ _ _ Hfail) as (e & Hpro).
  pose proof (generateInitialGameWorld_cases st svc w) as Hc.
  rewrite Hpro in Hc. destruct Hc as (second' & w2' & Hf & Hc).
  rewrite Hflash in Hf. by injection Hf as <- <-.
Qed.

(** C5.  [generateInitialGameWorld] never throws and always returns a
    world.  Each of its attempts starts with a request to its model,
    and either answers or fails: the call still throws after the
    retries, or the reply decodes to nothing usable even after repair.
    The answer of the first model is the world; when the first attempt
    fails the fast model is asked, and its answer is the world; when
    both attempts fail the world is synthesized from the settings: a
    fixed narrative, the configured start location, no inventory and
    no exits.  [handleStartGame] never throws either.  With the form
    filled in it asks for the world first, and what it does next
    depends on that world alone.  A world of the declared type starts
    the session on the state built from it, without an alert -- so
    with both attempts failed the session starts on exactly the
    minimal state.  A world whose visual prompt or key elements cannot
    be used raises the alert before any image is requested, and a
    world whose items or location cannot be used raises it after the
    image; the session then stays unstarted and the state as it was.
    Any other world leaves the declared types in a field that goes
    into the state as it comes.  With an empty location or style in
    the form nothing happens at all. *)
Theorem world_initialization_falls_back `{CaseMapping}
    (st : GameSettings) (svc : Service) (w : World) :
  (exists raw w1,
     generateInitialGameWorld st svc w = (Ok raw, w1)
     /\ store w1 = store w /\ isGameStarted w1 = isGameStarted w)
  /\ (forall m w0, exists w1 evs,
      events w1 = events w0 ++ Call (WorldRequest m st) :: evs
      /\ List.existsb isAlert evs = false
      /\ ((exists raw, tierAnswers m st svc w0 raw w1) \/ tierFails m st svc w0 w1))
  /\ (forall raw w1,
        tierAnswers MODEL_INIT st svc w raw w1 ->
        generateInitialGameWorld st svc w = (Ok raw, w1))
  /\ (forall w1 raw w2,
        tierFails MODEL_INIT st svc w w1 ->
        tierAnswers MODEL_LOOP st svc w1 raw w2 ->
        generateInitialGameWorld st svc w = (Ok raw, w2))
  /\ (forall w1 w2,
        tierFails MODEL_INIT st svc w w1 ->
        tierFails MODEL_LOOP st svc w1 w2 ->
        generateInitialGameWorld st svc w = (Ok (ultimateFallback st), w2))
  /\ (conform (ultimateFallback st) = Some (fallbackResponse st)
      /\ r_location (fallbackResponse st) = startLocation st
      /\ r_inventory (fallbackResponse st) = []
      /\ r_availableExits (fallbackResponse st) = [])
  /\ (forall e, fst (handleStartGame st svc w) <> Throw e)
  /\ (startLocation st <> [] -> artStyle st <> [] ->
      exists raw w1,
        generateInitialGameWorld st svc w = (Ok raw, w1)
        /\ (exists evs,
              events (snd (handleStartGame st svc w)) = events w1 ++ evs)
        /\ (forall initialWorld,
              conform raw = Some initialWorld ->
              exists img w2,
                generateSceneImage (r_visualPrompt initialWorld) (artStyle st)
                  (r_keyElements initialWorld) None svc w1 = (Ok img, w2)
                /\ handleStartGame st svc w
                   = (Ok tt, {| store := initialState st initialWorld img;
                                isGameStarted := true; events := events w2 |})
                /\ exists evs, events w2 = events w ++ evs
                               /\ List.existsb isAlert evs = false)
        /\ (sceneArguments raw = None ->
            handleStartGame st svc w
            = (Ok tt, {| store := store w; isGameStarted := isGameStarted w;
                         events := events w1 ++ [Alert startAlert] |}))
        /\ (forall scene,
              sceneArguments raw = Some scene ->
              stateArguments raw = None ->
              exists img w2,
                generateSceneImage (fst scene) (artStyle st) (snd scene) None svc w1
                = (Ok img, w2)
                /\ handleStartGame st svc w
                   = (Ok tt, {| store := store w; isGameStarted := isGameStarted w;
                                events := events w2 ++ [Alert startAlert] |}))
        /\ (forall scene,
              sceneArguments raw = Some scene ->
              stateArguments raw = Some tt ->
              conform raw = None ->
              fst (handleStartGame st svc w) = Untyped))
  /\ (startLocation st <> [] -> artStyle st <> [] ->
      forall w1 w2,
        tierFails MODEL_INIT st svc w w1 ->
        tierFails MODEL_LOOP st svc w1 w2 ->
        exists img w3,
          generateSceneImage (r_visualPrompt (fallbackResponse st)) (artStyle st)
            [] None svc w2 = (Ok img, w3)
          /\ handleStartGame st svc w
             = (Ok tt, {| store := initialState st (fallbackResponse st) img;
                          isGameStarted := true; events := events w3 |})
          /\ (exists evs, events w3 = events w2 ++ evs
                          /\ List.existsb isAlert evs = false)
          /\ location (initialState st (fallbackResponse st) img) = startLocation st
          /\ narrative (initialState st (fallbackResponse st) img)
             = r_narrative (fallbackResponse st)
          /\ inventory (initialState st (fallbackResponse st) img) = []
          /\ availableExits (initialState st (fallbackResponse st) img) = [])
  /\ (startLocation st = [] \/ artStyle st = [] ->
      handleStartGame st svc w = (Ok tt, w)).
Proof.
  split; [| split; [| split; [| split; [| split; [| split; [| split; [| split;
    [| split]]]]]]]].
  - destruct (generateInitialGameWorld_returns st svc w)
      as (raw & w1 & Hg & Hs & Hf & _).
    by exists raw, w1.
  - intros m w0. apply tier_outcome.
  - intros raw w1 Hans.
    pose proof (generateInitialGameWorld_cases st svc w) as Hc.
    by rewrite (initAttemptPro_answers _ _ _ _ _ Hans) in Hc.
  - intros w1 raw w2 Hfail Hans.
    exact (generateInitialGameWorld_second st svc w w1 (Some raw) w2 Hfail
             (initAttemptFlash_answers _ _ _ _ _ Hans)).
  - intros w1 w2 Hfail1 Hfail2.
    exact (generateInitialGameWorld_second st svc w w1 None w2 Hfail1
             (initAttemptFlash_fails _ _ _ _ Hfail2)).
  - repeat split.
  - intros e. apply handleStartGame_never_throws.
  - intros Hloc Hstyle.
    destruct (handleStartGame_run st svc w Hloc Hstyle) as (raw & w1 & Hg & Hc).
    destruct (generateInitialGameWorld_returns st svc w)
      as (raw' & w1' & Hg' & Hs1 & Hf1 & evs1 & He1 & Hna1).
    rewrite Hg in Hg'. injection Hg' as <- <-.
    exists raw, w1. split; [exact Hg |].
    assert (Himage : forall vp ke, exists img w2,
               generateSceneImage vp (artStyle st) ke None svc w1 = (Ok img, w2)
               /\ store w2 = store w /\ isGameStarted w2 = isGameStarted w
               /\ exists evs, events w2 = events w1 ++ evs
                              /\ List.existsb isAlert evs = false).
    { intros vp ke.
      destruct (generateSceneImage_returns vp (artStyle st) ke None svc w1)
        as (img & w2 & Hi & Hs2 & Hf2 & Hev).
      exists img, w2. rewrite Hs2, Hf2. auto. }
    split; [| split; [| split; [| split]]].
    + destruct (sceneArguments raw) as [scene |].
      * destruct Hc as (img & w2 & Hi & Hc).
        destruct (Himage (fst scene) (snd scene))
          as (img' & w2' & Hi' & _ & _ & evs2 & He2 & _).
        rewrite Hi in Hi'. injection Hi' as <- <-.
        destruct (stateArguments raw); [destruct (conform raw) |];
          rewrite Hc; cbn [snd events logEvent]; rewrite He2.
        -- by exists evs2.
        -- by exists evs2.
        -- exists (evs2 ++ [Alert startAlert]). by rewrite app_assoc.
      * rewrite Hc. by exists [Alert startAlert].
    + intros iw Hconf.
      rewrite (conform_sceneArguments _ _ Hconf) in Hc.
      rewrite (conform_stateArguments _ _ Hconf), Hconf in Hc.
      destruct Hc as (img & w2 & Hi & Hc).
      destruct (Himage (r_visualPrompt iw) (r_keyElements iw))
        as (img' & w2' & Hi' & _ & _ & evs2 & He2 & Hna2).
      cbn [fst snd] in Hi. rewrite Hi in Hi'. injection Hi' as <- <-.
      exists img, w2. split; [exact Hi |]. split; [exact Hc |].
      exists (evs1 ++ evs2). rewrite He2, He1, existsb_app, Hna1, Hna2.
      by rewrite app_assoc.
    + intros Hscene. rewrite Hscene in Hc. rewrite Hc.
      unfold logEvent. by rewrite Hs1, Hf1.
    + intros scene Hscene Hstate. rewrite Hscene in Hc.
      destruct Hc as (img & w2 & Hi & Hc). rewrite Hstate in Hc.
      destruct (Himage (fst scene) (snd scene)) as (img' & w2' & Hi' & Hs2 & Hf2 & _).
      rewrite Hi in Hi'. injection Hi' as <- <-.
      exists img, w2. split; [exact Hi |]. rewrite Hc.
      unfold logEvent. by rewrite Hs2, Hf2.
    + intros scene Hscene Hstate Hconf. rewrite Hscene in Hc.
      destruct Hc as (img & w2 & _ & Hc). rewrite Hstate, Hconf in Hc.
      by rewrite Hc.
  - intros Hloc Hstyle w1 w2 Hfail1 Hfail2.
    destruct (handleStartGame_cases st svc w Hloc Hstyle) as (raw & w1' & Hg & Hc).
    rewrite (generateInitialGameWorld_second st svc w w1 None w2 Hfail1
               (initAttemptFlash_fails _ _ _ _ Hfail2)) in Hg.
    injection Hg as <- <-.
    rewrite conform_ultimateFallback in Hc.
    destruct Hc as (img & w3 & Hi & Hstart).
    exists img, w3. split; [exact Hi |]. split; [exact Hstart |].
    split.
    { destruct (generateSceneImage_returns (r_visualPrompt (fallbackResponse st))
                  (artStyle st) (r_keyElements (fallbackResponse st)) None svc w2)
        as (img' & w3' & Hi' & _ & _ & Hev).
      rewrite Hi in Hi'. by injection Hi' as <- <-. }
    cbn [initialState location narrative inventory
         availableExits fallbackResponse r_location r_narrative r_inventory
         r_availableExits].
    rewrite orStr_nil_r, (orStr_truthy (startLocation st)) by exact Hloc.
    repeat split; reflexivity.
  - unfold handleStartGame. intros [-> | ->]; [reflexivity |].
    by rewrite orb_true_r.
Qed.

(** ** One turn of the game loop *)

Lemma withStatus_withStatus st1 st2 p :
  withStatus st2 (withStatus st1 p) = withStatus st2 p.
Proof. reflexivity. Qed.

Lemma withStatus_same p : withStatus (loadingStatus p) p = p.
Proof. by destruct p. Qed.

Section Turn.
Context `{CaseMapping}.

Lemma commit_withStatus r key img st p :
  commit r key img (withStatus st p) = commit r key img p.
Proof. reflexivity. Qed.

Lemma softFailure_withStatus st p : softFailure (withStatus st p) = softFailure p.
Proof. reflexivity. Qed.

Lemma handleAction_unfold s a svc w :
  rejected s a = false ->
  handleAction s a svc w
  = tryCatch
      (raw <- generateGameResponse a s (imageUrl s) ;;
       response <- typed (conform raw) ;;
       processReply s response)
      (fun error => setGameState softFailure) svc (optimisticWorld a w).
Proof. intros Hrej. unfold handleAction. rewrite Hrej. reflexivity. Qed.

(** The four ways of the visual logic. *)
Lemma chooseImage_hit s r key entry svc w :
  r_location r <> location s ->
  knownLocations s !! key = Some entry ->
  chooseImage s r key svc w
  = (Ok (Some (vl_imageUrl entry)), statusWorld (Some Cargando) w).
Proof.
  intros Hloc Hkey. unfold chooseImage, cacheLookup.
  rewrite bool_decide_eq_false_2 by exact Hloc. simpl.
  rewrite Hkey. reflexivity.
Qed.

Lemma chooseImage_miss s r key svc w img w' :
  r_location r <> location s ->
  cacheLookup (knownLocations s) key = Miss ->
  generateSceneImage (r_visualPrompt r) (artStyle (settings s))
    (r_keyElements r) None svc (statusWorld (Some Generando) w) = (Ok img, w') ->
  chooseImage s r key svc w = (Ok (Some img), w').
Proof.
  intros Hloc Hkey Hgen. unfold chooseImage.
  rewrite bool_decide_eq_false_2 by exact Hloc. simpl.
  rewrite Hkey.
  erewrite bind_ok by reflexivity.
  erewrite bind_ok by exact Hgen. reflexivity.
Qed.

Lemma chooseImage_edit s r key svc w img w' :
  r_location r = location s ->
  r_visualChanged r = Some true ->
  generateSceneImage (r_visualPrompt r) (artStyle (settings s))
    (r_keyElements r) (imageOrUndefined (imageUrl s)) svc
    (statusWorld (Some Actualizando) w) = (Ok img, w') ->
  chooseImage s r key svc w = (Ok (Some img), w').
Proof.
  intros Hloc Hvis Hgen. unfold chooseImage.
  rewrite bool_decide_eq_true_2 by exact Hloc. simpl. rewrite Hvis.
  apply tryCatch_ok.
  erewrite bind_ok by reflexivity.
  erewrite bind_ok by exact Hgen. reflexivity.
Qed.

Lemma chooseImage_keep s r key svc w :
  r_location r = location s ->
  r_visualChanged r <> Some true ->
  chooseImage s r key svc w = (Ok (imageUrl s), w).
Proof.
  intros Hloc Hvis. unfold chooseImage.
  rewrite bool_decide_eq_true_2 by exact Hloc. simpl.
  destruct (r_visualChanged r) as [[] |]; [congruence | reflexivity ..].
Qed.

(** The visual logic always yields an image slot; it changes nothing
    of the state but the loading phase. *)
Lemma chooseImage_returns s r key svc w :
  exists img w',
    chooseImage s r key svc w = (Ok img, w')
    /\ (exists st, store w' = withStatus st (store w))
    /\ isGameStarted w' = isGameStarted w
    /\ exists evs, events w' = events w ++ evs
                   /\ List.existsb isAlert evs = false.
Proof.
  destruct (decide (r_location r = location s)) as [Hsame | Hdiff].
  - destruct (decide (r_visualChanged r = Some true)) as [Hvis | Hvis].
    + destruct (generateSceneImage_returns (r_visualPrompt r)
                  (artStyle (settings s)) (r_keyElements r)
                  (imageOrUndefined (imageUrl s)) svc
                  (statusWorld (Some Actualizando) w))
        as (img & w' & Hg & Hs & Hst & He).
      exists (Some img), w'.
      rewrite (chooseImage_edit _ _ _ _ _ _ _ Hsame Hvis Hg).
      split; [reflexivity |]. split; [eexists; exact Hs |]. auto.
    + exists (imageUrl s), w.
      rewrite (chooseImage_keep _ _ _ _ _ Hsame Hvis).
      split; [reflexivity |].
      split; [exists (loadingStatus (store w)); by rewrite withStatus_same |].
      split; [reflexivity |]. exists []. by rewrite app_nil_r.
  - destruct (cacheLookup (knownLocations s) key) as [entry | |] eqn:Hc.
    + unfold cacheLookup in Hc.
      destruct (knownLocations s !! key) as [entry' |] eqn:Hk;
        [| destruct (bool_decide _); discriminate].
      injection Hc as ->.
      rewrite (chooseImage_hit _ _ _ _ _ _ Hdiff Hk).
      eexists _, _. split; [reflexivity |]. simpl.
      split; [by eexists |]. split; [reflexivity |].
      exists []. by rewrite app_nil_r.
    + exists None, (statusWorld (Some Cargando) w). split.
      * unfold chooseImage. rewrite bool_decide_eq_false_2 by exact Hdiff.
        simpl. rewrite Hc. reflexivity.
      * simpl. split; [by eexists |]. split; [reflexivity |].
        exists []. by rewrite app_nil_r.
    + destruct (generateSceneImage_returns (r_visualPrompt r)
                  (artStyle (settings s)) (r_keyElements r) None svc
                  (statusWorld (Some Generando) w))
        as (img & w' & Hg & Hs & Hst & He).
      exists (Some img), w'.
      rewrite (chooseImage_miss _ _ _ _ _ _ _ Hdiff Hc Hg).
      split; [reflexivity |]. split; [eexists; exact Hs |]. auto.
Qed.

(** What a turn that passes the gate does, by the outcome of
    [generateGameResponse]. *)
Lemma handleAction_cases s a svc w :
  rejected s a = false ->
  match generateGameResponse a s (imageUrl s) svc (optimisticWorld a w) with
  | (Throw e, w2) =>
    handleAction s a svc w
    = (Ok tt, {| store := softFailure (optimisticUpdate a (store w));
                 isGameStarted := isGameStarted w; events := events w2 |})
  | (Ok raw, w2) =>
    match conform raw with
    | None => handleAction s a svc w = (Untyped, w2)
    | Some r =>
      exists img w3,
        chooseImage s r (replyKey r) svc w2 = (Ok img, w3)
        /\ handleAction s a svc w
           = (Ok tt, {| store := commit r (replyKey r) img
                                   (optimisticUpdate a (store w));
                        isGameStarted := isGameStarted w;
                        events := events w3 |})
    end
  | (Untyped, _) => False
  end.
Proof.
  intros Hrej. rewrite (handleAction_unfold _ _ _ _ Hrej).
  destruct (quiet_generateGameResponse a s (imageUrl s) svc (optimisticWorld a w))
    as (Hu & Hs & Hg & _).
  destruct (generateGameResponse a s (imageUrl s) svc (optimisticWorld a w))
    as [[raw | e |] w2] eqn:Hgen; simpl in Hu, Hs, Hg; [| | discriminate].
  - destruct (conform raw) as [r |] eqn:Hconf.
    + destruct (chooseImage_returns s r (replyKey r) svc w2)
        as (img & w3 & Hc & (st & Hst) & Hg3 & _).
      exists img, w3. split; [exact Hc |].
      apply tryCatch_ok.
      rewrite (bind_ok _ _ _ _ _ _ Hgen).
      erewrite bind_ok by (unfold typed; rewrite Hconf; reflexivity).
      unfold processReply. rewrite (bind_ok _ _ _ _ _ _ Hc).
      unfold setGameState. rewrite Hst, Hs, Hg3, Hg. reflexivity.
    + apply tryCatch_untyped.
      rewrite (bind_ok _ _ _ _ _ _ Hgen).
      apply bind_untyped. unfold typed. by rewrite Hconf.
  - erewrite tryCatch_throw by (apply bind_throw; exact Hgen).
    unfold setGameState. rewrite Hs, Hg. reflexivity.
Qed.

End Turn.

(** ** The shape of the replies *)

Lemma mapM_asString_JStr (l : list (list N)) : mapM asString (map JStr l) = Some l.
Proof.
  apply mapM_Some_2. induction l as [| x l IH]; constructor; auto.
Qed.

Lemma asItem_itemValue (i : InventoryItem) : asItem (itemValue i) = Some i.
Proof. destruct i as [n [d |]]; vm_compute; reflexivity. Qed.

Lemma mapM_asItem_itemValue (l : list InventoryItem) :
  mapM asItem (map itemValue l) = Some l.
Proof.
  apply mapM_Some_2. induction l as [| x l IH]; constructor; auto.
  apply asItem_itemValue.
Qed.

Lemma conform_softErrorReply s :
  conform (softErrorReply s) = Some (softErrorResponse s).
Proof.
  unfold conform, softErrorReply, softErrorResponse, asItems, asStrings.
  cbn [raw_narrative raw_location raw_visualPrompt raw_inventory
       raw_keyElements raw_availableExits raw_visualChanged asString].
  rewrite mapM_asItem_itemValue, mapM_asString_JStr. reflexivity.
Qed.

(** A reply that [generateGameResponse] returns was mapped from a
    parsed document, or is the soft-error reply. *)
Lemma generateGameResponse_shape a s img svc w raw w2 :
  generateGameResponse a s img svc w = (Ok raw, w2) ->
  (exists parsed, raw = mapParsedResponse parsed (settings s))
  \/ raw = softErrorReply s.
Proof.
  unfold generateGameResponse, tryCatch, bind.
  destruct (callWithRetry _ 3 _ svc w) as [[resp | e |] w1]; simpl;
    [| discriminate ..].
  destruct (truthy (decodeReply resp)); simpl; intros [= <- <-]; eauto.
Qed.

Lemma generateInitialGameWorld_shape st svc w raw w2 :
  generateInitialGameWorld st svc w = (Ok raw, w2) ->
  (exists parsed, raw = mapParsedResponse parsed st)
  \/ raw = ultimateFallback st.
Proof.
  intros Hg.
  assert (Hpro : forall r w1, initAttemptPro st svc w = (Ok r, w1) ->
                   exists parsed, r = mapParsedResponse parsed st).
  { unfold initAttemptPro, bind. intros r w1.
    destruct (generateWithModel MODEL_INIT st svc w) as [[resp | e |] w']; simpl;
      [| discriminate ..].
    destruct (truthy (decodeReply resp)); simpl; [| discriminate].
    intros [= <- <-]. eauto. }
  assert (Hflash : forall w1 r w3, initAttemptFlash st svc w1 = (Ok (Some r), w3) ->
                     exists parsed, r = mapParsedResponse parsed st).
  { unfold initAttemptFlash, tryCatch, bind. intros w1 r w3.
    destruct (generateWithModel MODEL_LOOP st svc w1) as [[resp | e |] w']; simpl;
      [| discriminate ..].
    destruct (truthy (decodeReply resp)); simpl; [| discriminate].
    intros [= <- <-]. eauto. }
  pose proof (generateInitialGameWorld_cases st svc w) as Hc.
  destruct (initAttemptPro st svc w) as [[r | e |] w1] eqn:Hp; [| | contradiction].
  - rewrite Hc in Hg. injection Hg as <- <-. left. eapply Hpro. reflexivity.
  - destruct Hc as (second & w3 & Hf & Hc). rewrite Hc in Hg.
    injection Hg as <- <-. destruct second as [r |]; [| by right].
    left. eapply Hflash. exact Hf.
Qed.

Lemma conform_location raw r :
  conform raw = Some r -> raw_location raw = JStr (r_location r).
Proof.
  unfold conform.
  destruct (asString (raw_narrative raw)) as [nar |]; [| discriminate].
  destruct (asString (raw_location raw)) as [loc |] eqn:Hl; [| discriminate].
  destruct (asString (raw_visualPrompt raw)) as [vp |]; [| discriminate].
  destruct (asItems (raw_inventory raw)) as [inv |]; [| discriminate].
  destruct (asStrings (raw_keyElements raw)) as [ke |]; [| discriminate].
  destruct (asStrings (raw_availableExits raw)) as [ex |]; [| discriminate].
  intros [= <-]. simpl. destruct (raw_location raw) as [| | | s0 | |];
    try discriminate.
  simpl in Hl. congruence.
Qed.

(** A mapped reply always names a location when the settings do. *)
Lemma mapped_location_nonempty parsed st r :
  startLocation st <> [] ->
  conform (mapParsedResponse parsed st) = Some r -> r_location r <> [].
Proof.
  intros Hst Hc. apply conform_location in Hc. simpl in Hc.
  unfold propOr in Hc.
  destruct (getProp parsed (js "location")) as [v |].
  - destruct (truthy v) eqn:Ht.
    + subst v. simpl in Ht. by destruct (r_location r).
    + congruence.
  - congruence.
Qed.

(** ** The cache holds the current location *)

Section Invariant.
Context `{CaseMapping}.

Lemma replyKey_located r : r_location r <> [] -> replyKey r = normalizeLocKey (r_location r).
Proof. intros Hr. unfold replyKey. by rewrite orStr_truthy. Qed.

Lemma consistent_commit r img prev :
  startLocation (settings prev) <> [] -> r_location r <> [] ->
  consistent (commit r (replyKey r) img prev).
Proof.
  intros Hst Hr. unfold consistent, commit; cbn [settings location knownLocations].
  rewrite (orStr_truthy _ _ Hr), (replyKey_located _ Hr).
  split; [exact Hst |]. split; [exact Hr |].
  by rewrite lookup_insert_eq.
Qed.

Lemma consistent_initialState st iw img :
  startLocation st <> [] -> r_location iw <> [] ->
  consistent (initialState st iw img).
Proof.
  intros Hst Hr. unfold consistent, initialState; cbn [settings location knownLocations].
  rewrite !(orStr_truthy _ _ Hr).
  split; [exact Hst |]. split; [exact Hr |].
  by rewrite lookup_singleton_eq.
Qed.

Lemma consistent_softFailure a s :
  consistent s -> consistent (softFailure (optimisticUpdate a s)).
Proof. intros Hs. exact Hs. Qed.

(** The reply a turn processes names a location. *)
Lemma turn_reply_located a s img svc w raw w2 r :
  consistent s ->
  generateGameResponse a s img svc w = (Ok raw, w2) ->
  conform raw = Some r -> r_location r <> [].
Proof.
  intros (Hst & Hloc & _) Hgen Hconf.
  destruct (generateGameResponse_shape _ _ _ _ _ _ _ Hgen) as [(parsed & ->) | ->].
  - eapply mapped_location_nonempty; eauto.
  - rewrite conform_softErrorReply in Hconf. by injection Hconf as <-.
Qed.

Lemma turn_consistent svc log s a w :
  consistent s -> turn svc log s a = (Ok tt, w) -> consistent (store w).
Proof.
  intros Hs. unfold turn. destruct (rejected s a) eqn:Hrej.
  - unfold handleAction. rewrite Hrej. by intros [= <-].
  - pose proof (handleAction_cases s a svc
                  {| store := s; isGameStarted := true; events := log |} Hrej) as Hc.
    destruct (generateGameResponse a s (imageUrl s) svc _)
      as [[raw | e |] w2] eqn:Hgen; [| | contradiction].
    + destruct (conform raw) as [r |] eqn:Hconf.
      * destruct Hc as (img & w3 & _ & ->). intros [= <-].
        cbn [store]. apply consistent_commit; [apply Hs |].
        eapply turn_reply_located; eauto.
      * rewrite Hc. discriminate.
    + rewrite Hc. intros [= <-]. by apply consistent_softFailure.
Qed.

Lemma start_consistent svc log s0 st w :
  start svc log s0 st = (Ok tt, w) -> isGameStarted w = true ->
  consistent (store w).
Proof.
  unfold start. intros Hrun Hstarted.
  destruct (decide (startLocation st = [])) as [Hloc | Hloc].
  { unfold handleStartGame in Hrun. rewrite Hloc in Hrun. simpl in Hrun.
    injection Hrun as <-. discriminate. }
  destruct (decide (artStyle st = [])) as [Hart | Hart].
  { unfold handleStartGame in Hrun. rewrite Hart, orb_true_r in Hrun.
    injection Hrun as <-. discriminate. }
  destruct (handleStartGame_cases st svc
              {| store := s0; isGameStarted := false; events := log |} Hloc Hart)
    as (raw & w1 & Hg & Hc).
  destruct (conform raw) as [iw |] eqn:Hconf;
    [| rewrite Hrun in Hc; simpl in Hc; congruence].
  destruct Hc as (img & w2 & _ & Hs). rewrite Hs in Hrun. injection Hrun as <-.
  cbn [store]. apply consistent_initialState; [exact Hloc |].
  destruct (generateInitialGameWorld_shape _ _ _ _ _ Hg) as [(parsed & ->) | ->].
  - eapply mapped_location_nonempty; eauto.
  - rewrite conform_ultimateFallback in Hconf. by injection Hconf as <-.
Qed.

Lemma reachable_consistent s : Reachable s -> consistent s.
Proof.
  induction 1 as [svc log s0 st w Hrun Hstarted | svc log s a w Hreach IH Hrun].
  - eapply start_consistent; eauto.
  - eapply turn_consistent; eauto.
Qed.

(** C8.  After world initialization and after every turn that follows
    -- every state a session reaches -- [knownLocations] has an entry
    under the normalized form of the state's [location].  The entry
    is the scene on display. *)
Theorem known_locations_has_current (s : GameState) :
  Reachable s ->
  is_Some (knownLocations s !! normalizeLocKey (location s))
  /\ knownLocations s !! normalizeLocKey (location s) = Some (sceneEntry s)
  /\ (forall svc log a w,
        turn svc log s a = (Ok tt, w) ->
        is_Some (knownLocations (store w) !! normalizeLocKey (location (store w)))).
Proof.
  intros Hreach. pose proof (reachable_consistent s Hreach) as (_ & _ & Hk).
  split; [by eexists |]. split; [exact Hk |].
  intros svc log a w Hrun.
  assert (Hnext : Reachable (store w)) by (eapply reach_turn; eauto).
  apply reachable_consistent in Hnext as (_ & _ & Hk'). by eexists.
Qed.

End Invariant.

(** ** What a retried request leaves in the log *)

Lemma generateContent_run req svc w :
  generateContent req svc w
  = (match svc (events w) req with inl e => Throw e | inr resp => Ok resp end,
     logEvent (Call req) w).
Proof. unfold generateContent. by destruct (svc (events w) req). Qed.

Lemma attemptsAt_once req limit : attemptsAt req (S limit) [Call req].
Proof. split; [repeat constructor | simpl; lia]. Qed.

Lemma callWithRetry_log (req : Request) retries delay svc w :
  exists evs,
    events (snd (callWithRetry (generateContent req) retries delay svc w))
    = events w ++ evs
    /\ attemptsAt req (S retries) evs.
Proof.
  revert delay w. induction retries as [| k IH]; intros delay w;
    cbn [callWithRetry]; unfold tryCatch at 1; rewrite generateContent_run;
    destruct (svc (events w) req) as [e | resp].
  - exists [Call req]. split; [reflexivity | apply attemptsAt_once].
  - exists [Call req]. split; [reflexivity | apply attemptsAt_once].
  - destruct (isTransient e).
    + destruct (IH (delay * 2)%N (logEvent (Sleep delay) (logEvent (Call req) w)))
        as (evs & He & Hall & Hlen).
      exists (Call req :: Sleep delay :: evs). split.
      * erewrite bind_ok by reflexivity. rewrite He. simpl.
        by rewrite <- !app_assoc.
      * split.
        -- constructor; [by left |]. constructor; [right; by eexists | exact Hall].
        -- simpl. lia.
    + exists [Call req]. split; [reflexivity | apply attemptsAt_once].
  - exists [Call req]. split; [reflexivity | apply attemptsAt_once].
Qed.

Lemma attemptsAt_no_image req limit evs :
  isImageCall (Call req) = false ->
  attemptsAt req limit evs ->
  List.filter isImageCall evs = [].
Proof.
  intros Hreq [Hall _]. induction Hall as [| e evs He _ IH]; [reflexivity |].
  destruct He as [-> | [ms ->]]; cbn [List.filter]; [by rewrite Hreq | exact IH].
Qed.

(** [generateGameResponse] sends no image request. *)
Lemma generateGameResponse_no_image a s img svc w :
  List.filter isImageCall (events (snd (generateGameResponse a s img svc w)))
  = List.filter isImageCall (events w).
Proof.
  unfold generateGameResponse.
  match goal with
  | |- context [callWithRetry (generateContent ?r) ?n ?d] =>
    destruct (callWithRetry_log r n d svc w) as (evs & He & Hat);
    assert (Hno : List.filter isImageCall evs = [])
      by (refine (attemptsAt_no_image _ _ _ _ Hat); reflexivity);
    unfold tryCatch, bind;
    destruct (callWithRetry (generateContent r) n d svc w) as [[resp | e |] w1]
  end; simpl in He |- *.
  - destruct (truthy _); simpl; rewrite He, List.filter_app, Hno; by rewrite app_nil_r.
  - rewrite He, List.filter_app, Hno. by rewrite app_nil_r.
  - rewrite He, List.filter_app, Hno. by rewrite app_nil_r.
Qed.

(** ** Revisiting a location *)

Lemma commit_cache_entry `{CaseMapping} r img prev :
  knownLocations (commit r (replyKey r) img prev) !! replyKey r
  = Some {| vl_imageUrl := imageOrEmpty img; vl_visualPrompt := r_visualPrompt r |}.
Proof. unfold commit; cbn [knownLocations]. by rewrite lookup_insert_eq. Qed.

(** A turn whose reply names another location that the cache has:
    the cached image is committed and nothing is requested after the
    reply. *)
Lemma turn_cache_hit `{CaseMapping}
    (s : GameState) (action : list N) (svc : Service) (log : list Event)
    (raw : RawResponse) (w2 : World) (r : GameResponse) (entry : VisitedLocation) :
  rejected s action = false ->
  generateGameResponse action s (imageUrl s) svc
    {| store := optimisticUpdate action s; isGameStarted := true; events := log |}
  = (Ok raw, w2) ->
  conform raw = Some r ->
  r_location r <> location s ->
  knownLocations s !! replyKey r = Some entry ->
  turn svc log s action
  = (Ok tt, {| store := commit r (replyKey r) (Some (vl_imageUrl entry))
                          (optimisticUpdate action s);
               isGameStarted := true; events := events w2 |})
  /\ List.filter isImageCall (events w2) = List.filter isImageCall log.
Proof.
  intros Hrej Hgen Hconf Hloc Hkey.
  pose proof (handleAction_cases s action svc
                {| store := s; isGameStarted := true; events := log |} Hrej) as Hc.
  change (optimisticWorld action {| store := s; isGameStarted := true; events := log |})
    with {| store := optimisticUpdate action s; isGameStarted := true; events := log |}
    in Hc.
  pose proof (generateGameResponse_no_image action s (imageUrl s) svc
                {| store := optimisticUpdate action s; isGameStarted := true;
                   events := log |}) as Hno.
  rewrite Hgen in Hc, Hno. rewrite Hconf in Hc.
  destruct Hc as (img & w3 & Hchoose & Hrun).
  rewrite (chooseImage_hit _ _ _ _ _ _ Hloc Hkey) in Hchoose.
  injection Hchoose as <- <-.
  split; [exact Hrun | exact Hno].
Qed.

(** C2, as the program has it.  When the reply names another location
    than the current one and the cache has an entry under the reply's
    key (the normalized location, for every reply that names one), the
    turn commits the cached image as [imageUrl] and asks the service
    for nothing after the reply: no image is generated.  The visual
    description is not taken from the cache: the state and the cache
    entry both get the reply's visual prompt.  A commit with image [i]
    leaves [i] in the cache under the key of its location, so a later
    reply whose location normalizes to the same key, from elsewhere,
    shows [i] again. *)
Theorem cache_hit_reuses_image `{CaseMapping}
    (s : GameState) (action : list N) (svc : Service) (log : list Event)
    (raw : RawResponse) (w2 : World) (r : GameResponse) (entry : VisitedLocation) :
  rejected s action = false ->
  generateGameResponse action s (imageUrl s) svc
    {| store := optimisticUpdate action s; isGameStarted := true; events := log |}
  = (Ok raw, w2) ->
  conform raw = Some r ->
  r_location r <> location s ->
  knownLocations s !! replyKey r = Some entry ->
  exists w3,
    turn svc log s action = (Ok tt, w3)
    /\ events w3 = events w2
    /\ List.filter isImageCall (events w3) = List.filter isImageCall log
    /\ imageUrl (store w3) = Some (vl_imageUrl entry)
    /\ visualDescription (store w3) = r_visualPrompt r
    /\ knownLocations (store w3) !! replyKey r
       = Some {| vl_imageUrl := vl_imageUrl entry;
                 vl_visualPrompt := r_visualPrompt r |}
    /\ (r_location r <> [] -> replyKey r = normalizeLocKey (r_location r))
    /\ (forall r0 i prev,
          knownLocations (commit r0 (replyKey r0) (Some i) prev) !! replyKey r0
          = Some {| vl_imageUrl := i; vl_visualPrompt := r_visualPrompt r0 |}).
Proof.
  intros Hrej Hgen Hconf Hloc Hkey.
  destruct (turn_cache_hit s action svc log raw w2 r entry
              Hrej Hgen Hconf Hloc Hkey) as (Hrun & Hno).
  eexists. split; [exact Hrun |]. cbn [store events].
  split; [reflexivity |]. split; [exact Hno |].
  split; [reflexivity |]. split; [reflexivity |].
  split; [apply commit_cache_entry |].
  split; [apply replyKey_located |].
  intros r0 i prev. apply commit_cache_entry.
Qed.

(** Witness of C2: walking back from the square to the cave. *)
Lemma cache_hit_reuses_image_witness :
  exists raw w2 r entry w3,
    @rejected inPlaza (js "volver") = false
    /\ conform raw = Some r
    /\ r_location r <> location inPlaza
    /\ knownLocations inPlaza !! @replyKey basicLatin r = Some entry
    /\ @turn basicLatin reportsCaveAgain [] inPlaza (js "volver") = (Ok tt, w3)
    /\ events w3 = events w2
    /\ imageUrl (store w3) = Some (vl_imageUrl entry)
    /\ imageUrl (store w3) = imageUrl inCave.
Proof.
  assert (Hgen : exists raw w2,
             generateGameResponse (js "volver") inPlaza (imageUrl inPlaza)
               reportsCaveAgain
               {| store := @optimisticUpdate (js "volver") inPlaza;
                  isGameStarted := true; events := [] |} = (Ok raw, w2)
             /\ exists r entry,
                  conform raw = Some r
                  /\ r_location r <> location inPlaza
                  /\ knownLocations inPlaza !! @replyKey basicLatin r = Some entry
                  /\ Some (vl_imageUrl entry) = imageUrl inCave).
  { eexists _, _. split; [vm_compute; reflexivity |].
    eexists _, _. split; [vm_compute; reflexivity |].
    split; [vm_compute; discriminate |].
    split; vm_compute; reflexivity. }
  destruct Hgen as (raw & w2 & Hgen & r & entry & Hconf & Hloc & Hkey & Hcave).
  destruct (@cache_hit_reuses_image basicLatin inPlaza (js "volver")
              reportsCaveAgain [] raw w2 r entry eq_refl Hgen Hconf Hloc Hkey)
    as (w3 & Hrun & Hev & _ & Himg & _).
  exists raw, w2, r, entry, w3.
  split; [reflexivity |]. split; [exact Hconf |]. split; [exact Hloc |].
  split; [exact Hkey |]. split; [exact Hrun |]. split; [exact Hev |].
  split; [exact Himg |]. rewrite Himg. exact Hcave.
Defined.

(** C2 as stated fails: on the way back to the cave the image comes
    from the cache, but the visual description that is committed is
    the reply's ([q]), not the cached one ([p]), and the cache entry
    itself is overwritten with [q]. *)
Lemma cache_hit_keeps_description_counterexample :
  let s := inPlaza in
  let s' := after (@turn basicLatin reportsCaveAgain [] s (js "volver")) in
  knownLocations s !! @normalizeLocKey basicLatin (js " CUEVA ")
  = Some {| vl_imageUrl := js "data:image/png;base64,CAVE";
            vl_visualPrompt := js "p" |}
  /\ location s = js "Plaza"
  /\ location s' = js " CUEVA "
  /\ imageUrl s' = Some (js "data:image/png;base64,CAVE")
  /\ visualDescription s' = js "q"
  /\ visualDescription s' <> js "p"
  /\ knownLocations s' !! @normalizeLocKey basicLatin (js " CUEVA ")
     = Some {| vl_imageUrl := js "data:image/png;base64,CAVE";
               vl_visualPrompt := js "q" |}.
Proof.
  repeat split; try (vm_compute; reflexivity). vm_compute. discriminate.
Qed.

(** ** What the sanitizer guarantees *)

Lemma In_dropWhile (p : N -> bool) x (s : list N) : In x (dropWhile p s) -> In x s.
Proof.
  induction s as [| c r IH]; simpl; [tauto |].
  destruct (p c); [right; auto | tauto].
Qed.

Lemma In_trim x (s : list N) : In x (trim s) -> In x s.
Proof.
  unfold trim, trimStart, trimEnd. intros Hin.
  apply In_dropWhile, in_rev, In_dropWhile, in_rev in Hin. exact Hin.
Qed.

Lemma In_drop {A} (x : A) n (s : list A) : In x (drop n s) -> In x s.
Proof.
  revert s. induction n as [| n IH]; intros [| c r]; simpl; auto.
Qed.

Lemma In_take {A} (x : A) n (s : list A) : In x (take n s) -> In x s.
Proof.
  revert s. induction n as [| n IH]; intros [| c r]; simpl; try tauto.
  intros [-> | Hin]; auto.
Qed.

(** A replacement yields units of the subject or of the replacement. *)
Lemma In_replaceAllFrom m rep prev skip s x :
  In x (replaceAllFrom m rep prev skip s) -> In x rep \/ In x s.
Proof.
  revert prev skip. induction s as [| c r IH]; intros prev skip; simpl; [tauto |].
  destruct skip as [| k].
  - destruct (m prev (c :: r)) as [[| k] |].
    + intros [-> | Hin]; [auto | destruct (IH _ _ Hin); auto].
    + rewrite in_app_iff. intros [Hin | Hin]; [auto | destruct (IH _ _ Hin); auto].
    + intros [-> | Hin]; [auto | destruct (IH _ _ Hin); auto].
  - intros Hin. destruct (IH _ _ Hin); auto.
Qed.

Lemma In_replaceFirstFrom m rep prev s x :
  In x (replaceFirstFrom m rep prev s) -> In x rep \/ In x s.
Proof.
  revert prev. induction s as [| c r IH]; intros prev; simpl; [tauto |].
  destruct (m prev (c :: r)) as [[| k] |].
  - intros [-> | Hin]; [auto | destruct (IH _ Hin); auto].
  - rewrite in_app_iff. intros [Hin | Hin]; [auto |].
    right. right. eapply In_drop. exact Hin.
  - intros [-> | Hin]; [auto | destruct (IH _ Hin); auto].
Qed.

(** Replacing every underscore leaves none. *)
Lemma replace_underscores_free prev skip s :
  ~ In 95%N (replaceAllFrom reUnderscore (js " ") prev skip s).
Proof.
  revert prev skip. induction s as [| c r IH]; intros prev skip;
    cbn [replaceAllFrom]; [intros [] |].
  destruct skip as [| k]; [| apply IH].
  unfold reUnderscore at 1. destruct (N.eqb c 95) eqn:Hc.
  - change (js " ") with [32%N]. cbn [app]. intros [Heq | Hin]; [discriminate |].
    by apply IH in Hin.
  - intros [-> | Hin]; [by rewrite N.eqb_refl in Hc | by apply IH in Hin].
Qed.

Section SanitizerFacts.
Context `{CaseMapping}.

Lemma cleanChain_underscore_free n : ~ In 95%N (cleanChain n).
Proof.
  unfold cleanChain. intros Hin.
  apply In_trim in Hin.
  apply In_replaceAllFrom in Hin as [Hin | Hin];
    [vm_compute in Hin; intuition discriminate |].
  apply In_replaceAllFrom in Hin as [[] | Hin].
  apply In_replaceAllFrom in Hin as [[] | Hin].
  apply In_replaceFirstFrom in Hin as [[] | Hin].
  by apply replace_underscores_free in Hin.
Qed.

Lemma capitalize_underscore_free s : ~ In 95%N s -> ~ In 95%N (capitalize s).
Proof.
  intros Hs. unfold capitalize. destruct s as [| c r]; [exact Hs |].
  cbn [length Nat.ltb Nat.leb charAt0 slice1 take drop].
  rewrite in_app_iff. intros [Hin | Hin].
  - eapply toUpperCase_underscore; [| exact Hin].
    intros ->. apply Hs. by left.
  - apply Hs. by right.
Qed.

Lemma truncateName_underscore_free s : ~ In 95%N s -> ~ In 95%N (truncateName s).
Proof.
  intros Hs. unfold truncateName. destruct (22 <? length s); [| exact Hs].
  rewrite in_app_iff. intros [Hin | Hin].
  - apply Hs. unfold substring in Hin. eapply In_drop, In_take. exact Hin.
  - vm_compute in Hin. intuition discriminate.
Qed.

Lemma truncateName_length s : length (truncateName s) <= 22.
Proof.
  unfold truncateName. destruct (22 <? length s) eqn:Hlen.
  - apply Nat.ltb_lt in Hlen. rewrite length_app. unfold substring.
    cbn [Nat.min Nat.max Nat.sub drop].
    rewrite length_take. change (length (js "..")) with 2. lia.
  - apply Nat.ltb_ge in Hlen. exact Hlen.
Qed.

Lemma sanitizeName_nonempty n : sanitizeName n <> [].
Proof.
  unfold sanitizeName, fallbackName.
  destruct (truncateName _) as [| c r]; simpl; [| discriminate].
  vm_compute. discriminate.
Qed.

Lemma sanitizeName_length n : length (sanitizeName n) <= 22.
Proof.
  unfold sanitizeName, fallbackName.
  pose proof (truncateName_length (capitalize (cleanChain n))) as Hlen.
  destruct (truncateName _) as [| c r]; simpl in *; [| exact Hlen].
  vm_compute. lia.
Qed.

Lemma sanitizeName_underscore_free n : ~ In 95%N (sanitizeName n).
Proof.
  unfold sanitizeName, fallbackName.
  pose proof (truncateName_underscore_free _
                (capitalize_underscore_free _ (cleanChain_underscore_free n))) as Hfree.
  destruct (truncateName _) as [| c r]; simpl; [| exact Hfree].
  vm_compute. intuition discriminate.
Qed.

Lemma sanitizeInventory_displaySafe items :
  Forall displaySafe (sanitizeInventory items).
Proof.
  unfold sanitizeInventory. apply Forall_forall. intros i Hin.
  apply list_elem_of_In, in_map_iff in Hin as (i0 & <- & _).
  split; [apply sanitizeName_nonempty |].
  split; [apply sanitizeName_length | apply sanitizeName_underscore_free].
Qed.

Lemma sanitizeName_key : sanitizeName (js "Key_v2_a1b2c3d4") = js "Key".
Proof.
  unfold sanitizeName.
  replace (cleanChain (js "Key_v2_a1b2c3d4")) with [75; 101; 121]%N
    by (vm_compute; reflexivity).
  unfold capitalize. cbn [length Nat.ltb Nat.leb charAt0 slice1 take drop].
  rewrite toUpperCase_basic_latin by lia.
  vm_compute. reflexivity.
Qed.

(** C3, as the program has it.  Every name [sanitizeInventory] returns
    is non-empty, at most 22 units long and free of underscores; the
    name [Key_v2_a1b2c3d4] becomes [Key]; and every state a turn
    commits from a reply has an inventory whose names meet these three
    constraints.  (Hex-like and version-like tokens are removed in one
    pass each; the result can still contain one.) *)
Theorem sanitizeInventory_display_safe
    (items : list InventoryItem) :
  Forall displaySafe (sanitizeInventory items)
  /\ sanitizeName (js "Key_v2_a1b2c3d4") = js "Key"
  /\ sanitizeInventory [ {| name := js "Key_v2_a1b2c3d4"; description := Some (js "d") |} ]
     = [ {| name := js "Key"; description := Some (js "d") |} ]
  /\ (forall r key img prev, Forall displaySafe (inventory (commit r key img prev)))
  /\ (forall st iw img, Forall displaySafe (inventory (initialState st iw img)))
  /\ (forall s action svc log raw w2 r,
        rejected s action = false ->
        generateGameResponse action s (imageUrl s) svc
          {| store := optimisticUpdate action s; isGameStarted := true;
             events := log |} = (Ok raw, w2) ->
        conform raw = Some r ->
        exists w3,
          turn svc log s action = (Ok tt, w3)
          /\ inventory (store w3) = sanitizeInventory (r_inventory r)
          /\ Forall displaySafe (inventory (store w3))).
Proof.
  split; [apply sanitizeInventory_displaySafe |].
  split; [apply sanitizeName_key |].
  split; [unfold sanitizeInventory, sanitizeItem; simpl; by rewrite sanitizeName_key |].
  split; [intros; apply sanitizeInventory_displaySafe |].
  split; [intros; apply sanitizeInventory_displaySafe |].
  intros s action svc log raw w2 r Hrej Hgen Hconf.
  pose proof (handleAction_cases s action svc
                {| store := s; isGameStarted := true; events := log |} Hrej) as Hc.
  change (optimisticWorld action {| store := s; isGameStarted := true; events := log |})
    with {| store := optimisticUpdate action s; isGameStarted := true; events := log |}
    in Hc.
  rewrite Hgen, Hconf in Hc. destruct Hc as (img & w3 & _ & Hrun).
  eexists. split; [exact Hrun |]. cbn [store commit inventory].
  split; [reflexivity | apply sanitizeInventory_displaySafe].
Qed.

End SanitizerFacts.

(** C3 as stated fails for the tokens: removing the version token [v1]
    from [v1abcdefab] leaves the eight hex digits [abcdefab], which the
    earlier hex pass could not see; and removing [x86] from [xx8686]
    leaves [x86]. *)
Lemma sanitizer_leaves_tokens_counterexample :
  @sanitizeInventory basicLatin [item "v1abcdefab"; item "xx8686"]
  = [item "Abcdefab"; item "X86"]
  /\ test reHexToken (js "Abcdefab") = true
  /\ 8 <= length (js "Abcdefab")
  /\ forallb isHexChar (js "Abcdefab") = true
  /\ test reVersion (js "X86") = true.
Proof. repeat split; vm_compute; try reflexivity; lia. Qed.

(** Witness of C3: the names of a sanitized list, and the inventory
    the walk back to the cave commits. *)
Lemma sanitizeInventory_display_safe_witness :
  Forall displaySafe (@sanitizeInventory basicLatin [item "Key_v2_a1b2c3d4"])
  /\ exists raw w2 r w3,
       generateGameResponse (js "volver") inPlaza (imageUrl inPlaza)
         reportsCaveAgain
         {| store := @optimisticUpdate (js "volver") inPlaza;
            isGameStarted := true; events := [] |} = (Ok raw, w2)
       /\ conform raw = Some r
       /\ @turn basicLatin reportsCaveAgain [] inPlaza (js "volver") = (Ok tt, w3)
       /\ Forall displaySafe (inventory (store w3)).
Proof.
  destruct (@sanitizeInventory_display_safe basicLatin [item "Key_v2_a1b2c3d4"])
    as (Hsafe & _ & _ & _ & _ & Hturn).
  split; [exact Hsafe |].
  assert (Hgen : exists raw w2 r,
             generateGameResponse (js "volver") inPlaza (imageUrl inPlaza)
               reportsCaveAgain
               {| store := @optimisticUpdate (js "volver") inPlaza;
                  isGameStarted := true; events := [] |} = (Ok raw, w2)
             /\ conform raw = Some r).
  { eexists _, _, _. split; vm_compute; reflexivity. }
  destruct Hgen as (raw & w2 & r & Hgen & Hconf).
  destruct (Hturn inPlaza (js "volver") reportsCaveAgain [] raw w2 r
              eq_refl Hgen Hconf) as (w3 & Hrun & _ & Hinv).
  exists raw, w2, r, w3. auto.
Defined.

(** ** Soft failures *)

Lemma generateGameResponse_throws a s img svc w e w2 :
  callWithRetry (generateContent (TurnRequest a s (attachedImage img))) 3 500 svc w
  = (Throw e, w2) ->
  generateGameResponse a s img svc w = (Throw e, w2).
Proof.
  intros Hcall. unfold generateGameResponse.
  erewrite tryCatch_throw by (apply bind_throw; exact Hcall). reflexivity.
Qed.

Lemma generateGameResponse_undecodable a s img svc w resp w2 :
  callWithRetry (generateContent (TurnRequest a s (attachedImage img))) 3 500 svc w
  = (Ok resp, w2) ->
  truthy (decodeReply resp) = false ->
  generateGameResponse a s img svc w = (Ok (softErrorReply s), w2).
Proof.
  intros Hcall Hfalsy. unfold generateGameResponse.
  apply tryCatch_ok. rewrite (bind_ok _ _ _ _ _ _ Hcall), Hfalsy. reflexivity.
Qed.

Lemma pruneHistory_keeps_turn (h : list HistoryEntry) u m :
  In u (pruneHistory (h ++ [u; m])).
Proof.
  unfold pruneHistory. destruct (historyLimit <? length (h ++ [u; m])) eqn:Hlen.
  - apply Nat.ltb_lt in Hlen. rewrite length_app in Hlen.
    unfold historyLimit in Hlen. simpl in Hlen.
    unfold historyBlock. rewrite drop_app_le by lia.
    apply in_or_app. right. by left.
  - apply in_or_app. right. by left.
Qed.

Section SoftFailure.
Context `{CaseMapping}.

(** C4, as the program has it.  A turn that passed the gate and whose
    service call throws (retries exhausted, or an error that is not
    retried) commits the state it started from with the action
    appended to the history, the fixed overload narrative and no
    loading status: location, inventory, exits, visual description,
    image and cache are untouched.  A turn whose reply cannot be
    decoded commits through the ordinary path with the soft-error
    reply: location, exits, visual description and image are those of
    the state, the narrative is the fixed try-again message, the
    loading status is cleared, the action stays in the history and no
    image is requested; but the inventory is sanitized once more, and
    the cache entry under the key of the current location is written
    again with the scene on display.  The cache is unchanged whenever
    it already held that entry (every reachable state), the inventory
    whenever the sanitizer leaves it as it is.  Whatever the service
    does, a turn that stays inside the declared types ends with the
    loading status cleared. *)
Theorem soft_failure_commit
    (s : GameState) (action : list N) (svc : Service) (log : list Event) :
  rejected s action = false ->
  let w1 := {| store := optimisticUpdate action s; isGameStarted := true;
               events := log |} in
  let request := TurnRequest action s (attachedImage (imageUrl s)) in
  (forall e w2,
     callWithRetry (generateContent request) 3 500 svc w1 = (Throw e, w2) ->
     exists w3,
       turn svc log s action = (Ok tt, w3)
       /\ events w3 = events w2
       /\ location (store w3) = location s
       /\ inventory (store w3) = inventory s
       /\ availableExits (store w3) = availableExits s
       /\ visualDescription (store w3) = visualDescription s
       /\ imageUrl (store w3) = imageUrl s
       /\ knownLocations (store w3) = knownLocations s
       /\ settings (store w3) = settings s
       /\ narrative (store w3) = overloadNarrative
       /\ loadingStatus (store w3) = None
       /\ history (store w3) = history s ++ [ {| role := user; content := action |} ])
  /\ (forall resp w2,
        callWithRetry (generateContent request) 3 500 svc w1 = (Ok resp, w2) ->
        truthy (decodeReply resp) = false ->
        exists w3,
          turn svc log s action = (Ok tt, w3)
          /\ events w3 = events w2
          /\ location (store w3) = location s
          /\ availableExits (store w3) = availableExits s
          /\ visualDescription (store w3) = visualDescription s
          /\ imageUrl (store w3) = imageUrl s
          /\ settings (store w3) = settings s
          /\ narrative (store w3) = js "La realidad parpadea. Intenta esa acción de nuevo."
          /\ loadingStatus (store w3) = None
          /\ In {| role := user; content := action |} (history (store w3))
          /\ inventory (store w3) = sanitizeInventory (inventory s)
          /\ (sanitizeInventory (inventory s) = inventory s ->
              inventory (store w3) = inventory s)
          /\ knownLocations (store w3)
             = <[ normalizeLocKey (orStr (location s) (js "unknown")) := sceneEntry s ]>
                 (knownLocations s)
          /\ (consistent s -> knownLocations (store w3) = knownLocations s)
          /\ (Reachable s -> knownLocations (store w3) = knownLocations s))
  /\ (forall res w,
        turn svc log s action = (res, w) ->
        res = Untyped \/ (res = Ok tt /\ loadingStatus (store w) = None)).
Proof.
  intros Hrej w1 request.
  pose proof (handleAction_cases s action svc
                {| store := s; isGameStarted := true; events := log |} Hrej) as Hc.
  change (optimisticWorld action {| store := s; isGameStarted := true; events := log |})
    with w1 in Hc.
  split; [| split].
  3: { intros res w Hrun. unfold turn in Hrun.
       destruct (generateGameResponse action s (imageUrl s) svc w1)
         as [[raw | e |] w2]; [| | contradiction].
       - destruct (conform raw) as [r |].
         + destruct Hc as (img & w3 & _ & Hc). rewrite Hc in Hrun.
           injection Hrun as <- <-. right. split; reflexivity.
         + rewrite Hc in Hrun. injection Hrun as <- _. by left.
       - rewrite Hc in Hrun. injection Hrun as <- <-. right. split; reflexivity. }
  - intros e w2 Hcall.
    rewrite (generateGameResponse_throws _ _ _ _ _ _ _ Hcall) in Hc.
    eexists. split; [exact Hc |]. cbn. repeat split; reflexivity.
  - intros resp w2 Hcall Hfalsy.
    rewrite (generateGameResponse_undecodable _ _ _ _ _ _ _ Hcall Hfalsy),
      conform_softErrorReply in Hc.
    destruct Hc as (img & w3 & Hchoose & Hrun).
    rewrite chooseImage_keep in Hchoose by (simpl; congruence).
    injection Hchoose as <- <-.
    eexists. split; [exact Hrun |].
    cbn [store events commit softErrorResponse location availableExits
         visualDescription imageUrl settings narrative loadingStatus history
         inventory knownLocations optimisticUpdate r_location r_narrative
         r_visualPrompt r_inventory r_availableExits].
    assert (Hsame : orStr (location s) (location s) = location s)
      by (by destruct (location s)).
    rewrite Hsame.
    split; [reflexivity |]. split; [reflexivity |]. split; [reflexivity |].
    split; [reflexivity |]. split; [reflexivity |]. split; [reflexivity |].
    split; [reflexivity |]. split; [reflexivity |].
    split; [rewrite <- app_assoc; apply pruneHistory_keeps_turn |].
    split; [reflexivity |]. split; [congruence |].
    split; [reflexivity |].
    assert (Hcons : consistent s ->
                    <[ replyKey (softErrorResponse s) := sceneEntry s ]>
                      (knownLocations s) = knownLocations s).
    { intros (_ & Hloc & Hk). unfold replyKey. cbn [r_location].
      rewrite (orStr_truthy _ _ Hloc). by apply insert_id. }
    split; [exact Hcons |].
    intros Hreach. by apply Hcons, reachable_consistent.
Qed.

End SoftFailure.

Lemma withOddItem_reachable : @Reachable basicLatin withOddItem.
Proof.
  apply (@reach_start basicLatin (replying "Cueva" "p" "xx8686" (Some "CAVE"%string)) []
           blankState demoSettings
           (snd (@start basicLatin (replying "Cueva" "p" "xx8686" (Some "CAVE"%string)) []
                   blankState demoSettings)));
    vm_compute; reflexivity.
Qed.

(** Witness of C4: a service that is down, and a garbled reply. *)
Lemma soft_failure_commit_witness :
  (exists w3,
     @turn basicLatin svcDown [] inCave (js "mirar") = (Ok tt, w3)
     /\ inventory (store w3) = inventory inCave
     /\ knownLocations (store w3) = knownLocations inCave
     /\ narrative (store w3) = overloadNarrative
     /\ loadingStatus (store w3) = None)
  /\ (exists w3,
        @turn basicLatin garbled [] inCave (js "mirar") = (Ok tt, w3)
        /\ imageUrl (store w3) = imageUrl inCave
        /\ inventory (store w3) = @sanitizeInventory basicLatin (inventory inCave)
        /\ loadingStatus (store w3) = None).
Proof.
  destruct (@soft_failure_commit basicLatin inCave (js "mirar") svcDown [] eq_refl)
    as (Hthrow & _).
  destruct (@soft_failure_commit basicLatin inCave (js "mirar") garbled [] eq_refl)
    as (_ & Hgarbled & _).
  split.
  - assert (Hcall : exists e w2,
               callWithRetry
                 (generateContent
                    (TurnRequest (js "mirar") inCave (attachedImage (imageUrl inCave))))
                 3 500 svcDown
                 {| store := @optimisticUpdate (js "mirar") inCave;
                    isGameStarted := true; events := [] |} = (Throw e, w2))
      by (eexists _, _; vm_compute; reflexivity).
    destruct Hcall as (e & w2 & Hcall).
    destruct (Hthrow e w2 Hcall)
      as (w3 & Hrun & _ & _ & Hinv & _ & _ & _ & Hk & _ & Hnar & Hst & _).
    exists w3. auto.
  - assert (Hcall : exists resp w2,
               callWithRetry
                 (generateContent
                    (TurnRequest (js "mirar") inCave (attachedImage (imageUrl inCave))))
                 3 500 garbled
                 {| store := @optimisticUpdate (js "mirar") inCave;
                    isGameStarted := true; events := [] |} = (Ok resp, w2)
               /\ truthy (decodeReply resp) = false)
      by (eexists _, _; split; vm_compute; reflexivity).
    destruct Hcall as (resp & w2 & Hcall & Hfalsy).
    destruct (Hgarbled resp w2 Hcall Hfalsy)
      as (w3 & Hrun & _ & _ & _ & _ & Himg & _ & _ & Hst & _ & Hinv & _).
    exists w3. auto.
Defined.

(** C4 as stated fails for the inventory: a session whose service
    once named an item [xx8686] shows it as [X86]; when a later reply
    cannot be decoded, the soft-failure commit sanitizes the inventory
    again and the item becomes [Objeto Raro]. *)
Lemma soft_failure_changes_inventory_counterexample :
  let s := withOddItem in
  let s' := after (@turn basicLatin garbled [] s (js "mirar")) in
  @Reachable basicLatin s
  /\ decodeReply {| text := Some (js "garbage"); imageData := None |} = JNull
  /\ inventory s = [item "X86"]
  /\ inventory s' = [item "Objeto Raro"]
  /\ inventory s' <> inventory s
  /\ narrative s' = js "La realidad parpadea. Intenta esa acción de nuevo."
  /\ loadingStatus s' = None.
Proof.
  split; [exact withOddItem_reachable |].
  repeat split; try (vm_compute; reflexivity). vm_compute. discriminate.
Qed.

(** ** The length of the history *)

Lemma pruneHistory_block (h : list HistoryEntry) :
  exists pruned,
    h = pruned ++ pruneHistory h
    /\ (pruned = []
        \/ (historyLimit < length h /\ pruned = take historyBlock h
            /\ length pruned = historyBlock)).
Proof.
  unfold pruneHistory. destruct (historyLimit <? length h) eqn:Hlen.
  - apply Nat.ltb_lt in Hlen. exists (take historyBlock h).
    split; [by rewrite take_drop |]. right.
    split; [exact Hlen |]. split; [reflexivity |].
    rewrite length_take. unfold historyLimit, historyBlock in *. lia.
  - exists []. split; [reflexivity | by left].
Qed.

Lemma pruneHistory_length (h : list HistoryEntry) :
  length h <= historyLimit + historyBlock -> length (pruneHistory h) <= historyLimit.
Proof.
  unfold pruneHistory. destruct (historyLimit <? length h) eqn:Hlen.
  - rewrite length_drop. lia.
  - apply Nat.ltb_ge in Hlen. lia.
Qed.

Section History.
Context `{CaseMapping}.

(** C7, as the program has it.  A turn that commits a reply appends
    the action and the narrative and then, when more than 20 entries
    result, removes the five oldest at once: what remains is a suffix
    of the appended history, in its order, and it has at most 20
    entries whenever the turn started with at most 23.  A turn whose
    service call throws appends the action and prunes nothing. *)
Theorem history_pruned_on_commit
    (s : GameState) (action : list N) (svc : Service) (log : list Event) :
  rejected s action = false ->
  let w1 := {| store := optimisticUpdate action s; isGameStarted := true;
               events := log |} in
  (forall raw w2 r,
     generateGameResponse action s (imageUrl s) svc w1 = (Ok raw, w2) ->
     conform raw = Some r ->
     exists w3 pruned,
       let appended :=
         history s ++ [ {| role := user; content := action |};
                        {| role := model; content := r_narrative r |} ] in
       turn svc log s action = (Ok tt, w3)
       /\ history (store w3) = pruneHistory appended
       /\ appended = pruned ++ history (store w3)
       /\ (pruned = []
           \/ (historyLimit < length appended /\ pruned = take historyBlock appended
               /\ length pruned = historyBlock))
       /\ (length (history s) <= 23 -> length (history (store w3)) <= historyLimit))
  /\ (forall e w2,
        generateGameResponse action s (imageUrl s) svc w1 = (Throw e, w2) ->
        exists w3,
          turn svc log s action = (Ok tt, w3)
          /\ history (store w3)
             = history s ++ [ {| role := user; content := action |} ]).
Proof.
  intros Hrej w1.
  pose proof (handleAction_cases s action svc
                {| store := s; isGameStarted := true; events := log |} Hrej) as Hc.
  change (optimisticWorld action {| store := s; isGameStarted := true; events := log |})
    with w1 in Hc.
  split.
  - intros raw w2 r Hgen Hconf. rewrite Hgen, Hconf in Hc.
    destruct Hc as (img & w3 & _ & Hrun).
    destruct (pruneHistory_block
                (history s ++ [ {| role := user; content := action |};
                                {| role := model; content := r_narrative r |} ]))
      as (pruned & Hsplit & Hblock).
    eexists _, pruned. split; [exact Hrun |].
    cbn [store commit history optimisticUpdate]. rewrite <- app_assoc.
    change ([ {| role := user; content := action |} ]
            ++ [ {| role := model; content := r_narrative r |} ])
      with [ {| role := user; content := action |};
             {| role := model; content := r_narrative r |} ].
    split; [reflexivity |]. split; [exact Hsplit |]. split; [exact Hblock |].
    intros Hlen. apply pruneHistory_length. rewrite length_app.
    unfold historyLimit, historyBlock. simpl. lia.
  - intros e w2 Hgen. rewrite Hgen in Hc.
    eexists. split; [exact Hc | reflexivity].
Qed.

Lemma reach_turn_after svc s a :
  Reachable s -> fst (turn svc [] s a) = Ok tt -> Reachable (after (turn svc [] s a)).
Proof.
  intros Hs Hok. unfold after.
  destruct (turn svc [] s a) as [res w] eqn:Hrun. simpl in *. subst res.
  eapply reach_turn; eauto.
Qed.

Lemma turns_reachable svc n s a :
  Reachable s ->
  (forall k, k < n -> fst (turn svc [] (turns svc k s a) a) = Ok tt) ->
  Reachable (turns svc n s a).
Proof.
  intros Hs. induction n as [| n IH]; intros Hok; [exact Hs |].
  cbn [turns]. apply reach_turn_after; [apply IH; intros; apply Hok; lia |].
  apply Hok. lia.
Qed.

End History.

Lemma startedOffline_reachable : @Reachable basicLatin startedOffline.
Proof.
  apply (@reach_start basicLatin svcDown [] blankState demoSettings
           (snd (@start basicLatin svcDown [] blankState demoSettings)));
    vm_compute; reflexivity.
Qed.

Lemma inCave_reachable : @Reachable basicLatin inCave.
Proof.
  apply (@reach_start basicLatin (replying "Cueva" "p" "Llave" (Some "CAVE"%string)) []
           blankState demoSettings
           (snd (@start basicLatin (replying "Cueva" "p" "Llave" (Some "CAVE"%string)) []
                   blankState demoSettings)));
    vm_compute; reflexivity.
Qed.

Lemma inPlaza_reachable : @Reachable basicLatin inPlaza.
Proof.
  apply (@reach_turn_after basicLatin); [exact inCave_reachable |].
  vm_compute. reflexivity.
Qed.

Lemma inDarkMine_reachable : @Reachable basicLatin inDarkMine.
Proof.
  apply (@reach_turn_after basicLatin); [exact inPlaza_reachable |].
  vm_compute. reflexivity.
Qed.

(** Witness of C7: the walk to the square, and a look around while
    the service is down. *)
Lemma history_pruned_on_commit_witness :
  (exists w3,
     @turn basicLatin (replying "Plaza" "plaza" "Llave" (Some "PLAZA"%string)) []
       inCave (js "ir a la plaza") = (Ok tt, w3)
     /\ length (history (store w3)) <= historyLimit)
  /\ (exists w3,
        @turn basicLatin svcDown [] inCave (js "mirar") = (Ok tt, w3)
        /\ history (store w3)
           = history inCave ++ [ {| role := user; content := js "mirar" |} ]).
Proof.
  split.
  - destruct (@history_pruned_on_commit basicLatin inCave (js "ir a la plaza")
                (replying "Plaza" "plaza" "Llave" (Some "PLAZA"%string)) [] eq_refl)
      as (Hcommit & _).
    assert (Hgen : exists raw w2 r,
               generateGameResponse (js "ir a la plaza") inCave (imageUrl inCave)
                 (replying "Plaza" "plaza" "Llave" (Some "PLAZA"%string))
                 {| store := @optimisticUpdate (js "ir a la plaza") inCave;
                    isGameStarted := true; events := [] |} = (Ok raw, w2)
               /\ conform raw = Some r)
      by (eexists _, _, _; split; vm_compute; reflexivity).
    destruct Hgen as (raw & w2 & r & Hgen & Hconf).
    destruct (Hcommit raw w2 r Hgen Hconf) as (w3 & pruned & Hrun & _ & _ & _ & Hlen).
    exists w3. split; [exact Hrun |]. apply Hlen. vm_compute. lia.
  - destruct (@history_pruned_on_commit basicLatin inCave (js "mirar") svcDown []
                eq_refl) as (_ & Hthrow).
    assert (Hgen : exists e w2,
               generateGameResponse (js "mirar") inCave (imageUrl inCave) svcDown
                 {| store := @optimisticUpdate (js "mirar") inCave;
                    isGameStarted := true; events := [] |} = (Throw e, w2))
      by (eexists _, _; vm_compute; reflexivity).
    destruct Hgen as (e & w2 & Hgen).
    exact (Hthrow e w2 Hgen).
Defined.

(** C7 as stated fails: a session that started offline and saw twenty
    turns fail in a row has 21 entries in its history, more than the
    bound, each of those turns having committed its soft failure; and
    after thirty failures the commit of a reply still leaves 28. *)
Lemma history_exceeds_bound_counterexample :
  let s := @turns basicLatin svcDown 19 startedOffline (js "mirar") in
  let s' := after (@turn basicLatin svcDown [] s (js "mirar")) in
  let t := @turns basicLatin svcDown 30 startedOffline (js "mirar") in
  let t' := after (@turn basicLatin (replying "Plaza" "plaza" "Llave" None) []
                     t (js "ir a la plaza")) in
  @Reachable basicLatin s
  /\ length (history s) = 20
  /\ fst (@turn basicLatin svcDown [] s (js "mirar")) = Ok tt
  /\ loadingStatus s' = None
  /\ length (history s') = 21
  /\ historyLimit < length (history s')
  /\ fst (@turn basicLatin (replying "Plaza" "plaza" "Llave" None) []
            t (js "ir a la plaza")) = Ok tt
  /\ location t' = js "Plaza"
  /\ length (history t') = 28.
Proof.
  split.
  { apply (@turns_reachable basicLatin); [exact startedOffline_reachable |].
    intros k Hk.
    do 19 (destruct k as [| k]; [vm_compute; reflexivity |]). lia. }
  repeat split; vm_compute; reflexivity.
Qed.

(** ** Image generation *)

Lemma attemptsAt_nil req limit : attemptsAt req limit [].
Proof. split; [constructor | simpl; lia]. Qed.

(** The log of one [generate]: at most three calls of its request. *)
Lemma generate_log prompt refImage svc w :
  exists evs,
    events (snd (generate prompt refImage svc w)) = events w ++ evs
    /\ attemptsAt (ImageRequest prompt (attachedImage refImage)) 3 evs.
Proof.
  destruct (callWithRetry_log (ImageRequest prompt (attachedImage refImage))
              2 500 svc w) as (evs & He & Hat).
  exists evs. split; [| exact Hat].
  unfold generate, bind.
  destruct (callWithRetry _ 2 _ svc w) as [[resp | e |] w1]; simpl in *;
    [| exact He ..].
  destruct (imageData resp) as [b |]; [destruct (truthyStr b) |]; exact He.
Qed.

Lemma generate_never_untyped prompt refImage svc w :
  fst (generate prompt refImage svc w) <> Untyped.
Proof.
  destruct (quiet_generate prompt refImage svc w) as (Hu & _).
  intros Heq. rewrite Heq in Hu. discriminate.
Qed.

(** The cascade of [generateSceneImage]: the full prompt with the
    reference, and only if that fails the simple prompt without. *)
Lemma generateSceneImage_cascade vp style ke ref svc w :
  exists img w' evs1 evs2,
    generateSceneImage vp style ke ref svc w = (Ok img, w')
    /\ store w' = store w
    /\ events w' = events w ++ evs1 ++ evs2
    /\ attemptsAt (ImageRequest (FullPrompt style vp ke) (attachedImage ref)) 3 evs1
    /\ attemptsAt (ImageRequest (SimplePrompt style vp) None) 3 evs2.
Proof.
  destruct (generate_log (FullPrompt style vp ke) ref svc w) as (evs1 & He1 & Hat1).
  destruct (quiet_generate (FullPrompt style vp ke) ref svc w) as (Hu1 & Hs1 & _).
  unfold generateSceneImage, tryCatch.
  destruct (generate (FullPrompt style vp ke) ref svc w) as [[img | e1 |] w1];
    simpl in *; [| | discriminate].
  - exists img, w1, evs1, []. rewrite app_nil_r.
    split; [reflexivity |]. split; [exact Hs1 |]. split; [exact He1 |].
    split; [exact Hat1 | apply attemptsAt_nil].
  - destruct (generate_log (SimplePrompt style vp) None svc w1) as (evs2 & He2 & Hat2).
    destruct (quiet_generate (SimplePrompt style vp) None svc w1) as (Hu2 & Hs2 & _).
    destruct (generate (SimplePrompt style vp) None svc w1) as [[img | e2 |] w2];
      simpl in *; [| | discriminate].
    + exists img, w2, evs1, evs2. rewrite He2, He1, <- app_assoc.
      split; [reflexivity |]. split; [congruence |]. auto.
    + exists [], w2, evs1, evs2. rewrite He2, He1, <- app_assoc.
      split; [reflexivity |]. split; [congruence |]. auto.
Qed.

Lemma generateSceneImage_all_failed vp style ke ref svc w e1 w1 e2 w2 :
  generate (FullPrompt style vp ke) ref svc w = (Throw e1, w1) ->
  generate (SimplePrompt style vp) None svc w1 = (Throw e2, w2) ->
  generateSceneImage vp style ke ref svc w = (Ok [], w2).
Proof.
  intros H1 H2. unfold generateSceneImage.
  rewrite (tryCatch_throw _ _ _ _ _ _ H1), (tryCatch_throw _ _ _ _ _ _ H2).
  reflexivity.
Qed.

(** The first thing [generateSceneImage] does is to request the full
    prompt. *)
Lemma generateSceneImage_first_call vp style ke ref svc w :
  exists evs,
    events (snd (generateSceneImage vp style ke ref svc w))
    = events w ++ Call (ImageRequest (FullPrompt style vp ke) (attachedImage ref)) :: evs.
Proof.
  destruct (callWithRetry_first_call
              (ImageRequest (FullPrompt style vp ke) (attachedImage ref)) 2 500 svc w)
    as (evs1 & He1).
  assert (Hgen : events (snd (generate (FullPrompt style vp ke) ref svc w))
                 = events w ++ Call (ImageRequest (FullPrompt style vp ke)
                                                  (attachedImage ref)) :: evs1).
  { unfold generate, bind.
    destruct (callWithRetry _ 2 _ svc w) as [[resp | e |] w1]; simpl in *;
      [| exact He1 ..].
    destruct (imageData resp) as [b |]; [destruct (truthyStr b) |]; exact He1. }
  unfold generateSceneImage, tryCatch.
  destruct (generate (FullPrompt style vp ke) ref svc w) as [[img | e1 |] w1];
    simpl in *; [by eexists | | by eexists].
  destruct (quiet_generate (SimplePrompt style vp) None svc w1)
    as (_ & _ & _ & evs2 & He2 & _).
  destruct (generate (SimplePrompt style vp) None svc w1) as [[img | e2 |] w2];
    simpl in *; exists (evs1 ++ evs2); rewrite He2, Hgen, <- app_assoc; reflexivity.
Qed.

Section ImageFailure.
Context `{CaseMapping}.

(** C9, as the program has it.  [generateSceneImage] returns on every
    behaviour of the service, so an image failure is never an error of
    the turn: a turn that got a reply always commits it, and nothing
    it does raises an alert.  The recovery
    is a cascade of two prompts, each requested at most three times:
    the full prompt with the reference image when one is given, then
    the simple prompt without reference.  When both fail the result is
    the empty string. *)
Theorem image_failure_never_fails_turn
    (s : GameState) (action : list N) (svc : Service) (log : list Event)
    (raw : RawResponse) (w2 : World) (r : GameResponse) :
  rejected s action = false ->
  generateGameResponse action s (imageUrl s) svc
    {| store := optimisticUpdate action s; isGameStarted := true; events := log |}
  = (Ok raw, w2) ->
  conform raw = Some r ->
  (exists img w3 evs,
     chooseImage s r (replyKey r) svc w2 = (Ok img, w3)
     /\ turn svc log s action
        = (Ok tt, {| store := commit r (replyKey r) img (optimisticUpdate action s);
                     isGameStarted := true; events := events w3 |})
     /\ events w3 = log ++ evs
     /\ List.existsb isAlert evs = false)
  /\ (forall vp style ke ref svc' w,
        exists img w' evs1 evs2,
          generateSceneImage vp style ke ref svc' w = (Ok img, w')
          /\ store w' = store w
          /\ events w' = events w ++ evs1 ++ evs2
          /\ attemptsAt (ImageRequest (FullPrompt style vp ke) (attachedImage ref)) 3 evs1
          /\ attemptsAt (ImageRequest (SimplePrompt style vp) None) 3 evs2)
  /\ (forall vp style ke ref svc' w e1 w1 e2 w2',
        generate (FullPrompt style vp ke) ref svc' w = (Throw e1, w1) ->
        generate (SimplePrompt style vp) None svc' w1 = (Throw e2, w2') ->
        generateSceneImage vp style ke ref svc' w = (Ok [], w2')).
Proof.
  intros Hrej Hgen Hconf.
  pose proof (handleAction_cases s action svc
                {| store := s; isGameStarted := true; events := log |} Hrej) as Hc.
  change (optimisticWorld action {| store := s; isGameStarted := true; events := log |})
    with {| store := optimisticUpdate action s; isGameStarted := true; events := log |}
    in Hc.
  rewrite Hgen, Hconf in Hc.
  split.
  - destruct Hc as (img & w3 & Hchoose & Hrun).
    destruct (quiet_generateGameResponse action s (imageUrl s) svc
                {| store := optimisticUpdate action s; isGameStarted := true;
                   events := log |}) as (_ & _ & _ & evs1 & He1 & Hna1).
    rewrite Hgen in He1. cbn [snd events] in He1.
    destruct (chooseImage_returns s r (replyKey r) svc w2)
      as (img' & w3' & Hchoose' & _ & _ & evs2 & He2 & Hna2).
    rewrite Hchoose in Hchoose'. injection Hchoose' as <- <-.
    exists img, w3, (evs1 ++ evs2).
    split; [exact Hchoose |]. split; [exact Hrun |].
    rewrite He2, He1, existsb_app, Hna1, Hna2. by rewrite app_assoc.
  - split; [intros; apply generateSceneImage_cascade |].
    intros. eapply generateSceneImage_all_failed; eauto.
Qed.

End ImageFailure.

(** Witness of C9: the cave changes while no image can be rendered;
    the turn still commits the reply. *)
Lemma image_failure_never_fails_turn_witness :
  exists raw w2 r img w3,
    generateGameResponse (js "abrir") inCave (imageUrl inCave) cannotRender
      {| store := @optimisticUpdate (js "abrir") inCave; isGameStarted := true;
         events := [] |} = (Ok raw, w2)
    /\ conform raw = Some r
    /\ chooseImage inCave r (@replyKey basicLatin r) cannotRender w2
       = (Ok img, w3)
    /\ @turn basicLatin cannotRender [] inCave (js "abrir")
       = (Ok tt, {| store := @commit basicLatin r (@replyKey basicLatin r) img
                               (@optimisticUpdate (js "abrir") inCave);
                    isGameStarted := true; events := events w3 |}).
Proof.
  assert (Hgen : exists raw w2 r,
             generateGameResponse (js "abrir") inCave (imageUrl inCave) cannotRender
               {| store := @optimisticUpdate (js "abrir") inCave;
                  isGameStarted := true; events := [] |} = (Ok raw, w2)
             /\ conform raw = Some r)
    by (eexists _, _, _; split; vm_compute; reflexivity).
  destruct Hgen as (raw & w2 & r & Hgen & Hconf).
  destruct (@image_failure_never_fails_turn basicLatin inCave (js "abrir")
              cannotRender [] raw w2 r eq_refl Hgen Hconf)
    as ((img & w3 & evs & Hchoose & Hrun & _) & _).
  exists raw, w2, r, img, w3. auto.
Defined.

(** C9 as stated fails.  In the cave, with its image on display, the
    service reports a visible change and every image request fails.
    Two requests are made -- the full prompt with the reference, the
    simple prompt without -- and none with the full prompt and no
    reference.  The turn commits, but the previous image is not kept:
    [imageUrl] becomes the empty string, in the state and in the
    cache. *)
Lemma image_failure_drops_image_counterexample :
  let s := inCave in
  let run := @turn basicLatin cannotRender [] s (js "abrir") in
  let s' := after run in
  imageUrl s = Some (js "data:image/png;base64,CAVE")
  /\ fst run = Ok tt
  /\ location s' = location s
  /\ List.filter isImageCall (eventsOf run)
     = [ Call (ImageRequest (FullPrompt (js "Pixel Art") (js "p2") [])
                            (Some (js "CAVE")));
         Call (ImageRequest (SimplePrompt (js "Pixel Art") (js "p2")) None) ]
  /\ imageUrl s' = Some []
  /\ imageUrl s' <> imageUrl s
  /\ knownLocations s' !! @normalizeLocKey basicLatin (location s')
     = Some {| vl_imageUrl := []; vl_visualPrompt := js "p2" |}.
Proof.
  repeat split; try (vm_compute; reflexivity). vm_compute. discriminate.
Qed.

(** ** A location that could not be rendered *)

Section FailedRender.
Context `{CaseMapping}.

(** C10, as the program has it.  When the reply names a location the
    cache does not have and both prompts of [generateSceneImage] fail,
    the function returns the empty string instead of throwing, and the
    commit stores it as the state's [imageUrl] and in the cache entry
    of that location.  Every later turn that arrives at a location
    with that key from elsewhere (the reply's location is not the
    current one) while the entry is still empty is a cache hit: it
    shows the empty image and requests none.  A turn that stays at
    the location and reports a visible change is no cache hit: it asks
    for an image again. *)
Theorem failed_render_is_cached
    (s : GameState) (action : list N) (svc : Service) (log : list Event)
    (raw : RawResponse) (w2 : World) (r : GameResponse)
    (e1 e2 : ApiError) (w3 w4 : World) :
  rejected s action = false ->
  generateGameResponse action s (imageUrl s) svc
    {| store := optimisticUpdate action s; isGameStarted := true; events := log |}
  = (Ok raw, w2) ->
  conform raw = Some r ->
  r_location r <> location s ->
  cacheLookup (knownLocations s) (replyKey r) = Miss ->
  generate (FullPrompt (artStyle (settings s)) (r_visualPrompt r) (r_keyElements r))
    None svc (statusWorld (Some Generando) w2) = (Throw e1, w3) ->
  generate (SimplePrompt (artStyle (settings s)) (r_visualPrompt r))
    None svc w3 = (Throw e2, w4) ->
  generateSceneImage (r_visualPrompt r) (artStyle (settings s)) (r_keyElements r)
    None svc (statusWorld (Some Generando) w2) = (Ok [], w4)
  /\ (exists w5,
        turn svc log s action = (Ok tt, w5)
        /\ events w5 = events w4
        /\ imageUrl (store w5) = Some []
        /\ knownLocations (store w5) !! replyKey r
           = Some {| vl_imageUrl := []; vl_visualPrompt := r_visualPrompt r |})
  /\ (forall s' action' svc' log' raw' w2' r' entry,
        rejected s' action' = false ->
        generateGameResponse action' s' (imageUrl s') svc'
          {| store := optimisticUpdate action' s'; isGameStarted := true;
             events := log' |} = (Ok raw', w2') ->
        conform raw' = Some r' ->
        replyKey r' = replyKey r ->
        knownLocations s' !! replyKey r = Some entry ->
        vl_imageUrl entry = [] ->
        r_location r' <> location s' ->
        exists w3',
          turn svc' log' s' action' = (Ok tt, w3')
          /\ imageUrl (store w3') = Some []
          /\ events w3' = events w2'
          /\ List.filter isImageCall (events w3') = List.filter isImageCall log')
  /\ (forall s' action' svc' log' raw' w2' r',
        rejected s' action' = false ->
        generateGameResponse action' s' (imageUrl s') svc'
          {| store := optimisticUpdate action' s'; isGameStarted := true;
             events := log' |} = (Ok raw', w2') ->
        conform raw' = Some r' ->
        r_location r' = location s' ->
        r_visualChanged r' = Some true ->
        exists w3' evs,
          turn svc' log' s' action' = (Ok tt, w3')
          /\ events w3'
             = events w2'
               ++ Call (ImageRequest
                          (FullPrompt (artStyle (settings s')) (r_visualPrompt r')
                                      (r_keyElements r'))
                          (attachedImage (imageOrUndefined (imageUrl s')))) :: evs).
Proof.
  intros Hrej Hgen Hconf Hloc Hmiss Hfull Hsimple.
  pose proof (generateSceneImage_all_failed _ _ _ _ _ _ _ _ _ _ Hfull Hsimple) as Himg.
  split; [exact Himg |]. split; [| split].
  - pose proof (handleAction_cases s action svc
                  {| store := s; isGameStarted := true; events := log |} Hrej) as Hc.
    change (optimisticWorld action {| store := s; isGameStarted := true; events := log |})
      with {| store := optimisticUpdate action s; isGameStarted := true; events := log |}
      in Hc.
    rewrite Hgen, Hconf in Hc. destruct Hc as (img & w5 & Hchoose & Hrun).
    rewrite (chooseImage_miss _ _ _ _ _ _ _ Hloc Hmiss Himg) in Hchoose.
    injection Hchoose as <- <-.
    eexists. split; [exact Hrun |]. cbn [store events].
    split; [reflexivity |]. split; [reflexivity |]. apply commit_cache_entry.
  - intros s' action' svc' log' raw' w2' r' entry Hrej' Hgen' Hconf' Hkey Hentry
      Hempty Hloc'.
    rewrite <- Hkey in Hentry.
    destruct (turn_cache_hit s' action' svc' log' raw' w2' r' entry
                Hrej' Hgen' Hconf' Hloc' Hentry) as (Hrun & Hno).
    eexists. split; [exact Hrun |]. cbn [store events commit imageUrl].
    rewrite Hempty. auto.
  - intros s' action' svc' log' raw' w2' r' Hrej' Hgen' Hconf' Hstay Hvis.
    pose proof (handleAction_cases s' action' svc'
                  {| store := s'; isGameStarted := true; events := log' |} Hrej')
      as Hc.
    change (optimisticWorld action'
              {| store := s'; isGameStarted := true; events := log' |})
      with {| store := optimisticUpdate action' s'; isGameStarted := true;
              events := log' |} in Hc.
    rewrite Hgen', Hconf' in Hc. destruct Hc as (img & w3' & Hchoose & Hrun).
    destruct (generateSceneImage_first_call (r_visualPrompt r')
                (artStyle (settings s')) (r_keyElements r')
                (imageOrUndefined (imageUrl s')) svc'
                (statusWorld (Some Actualizando) w2')) as (evs & He).
    destruct (generateSceneImage_returns (r_visualPrompt r')
                (artStyle (settings s')) (r_keyElements r')
                (imageOrUndefined (imageUrl s')) svc'
                (statusWorld (Some Actualizando) w2')) as (img' & w' & Hg & _).
    rewrite (chooseImage_edit _ _ _ _ _ _ _ Hstay Hvis Hg) in Hchoose.
    injection Hchoose as <- <-. rewrite Hg in He. simpl in He.
    eexists _, evs. split; [exact Hrun |]. exact He.
Qed.

End FailedRender.

(** Witness of C10: the walk from the square to the mine that cannot
    be rendered; the cache of the square has no mine yet. *)
Lemma failed_render_is_cached_witness :
  exists w5,
    @turn basicLatin (replying "Mina" "mina" "Llave" None) [] inPlaza
      (js "ir a la mina") = (Ok tt, w5)
    /\ imageUrl (store w5) = Some []
    /\ knownLocations (store w5) !! @normalizeLocKey basicLatin (js "Mina")
       = Some {| vl_imageUrl := []; vl_visualPrompt := js "mina" |}.
Proof.
  assert (Hgen : exists raw w2 r e1 w3 e2 w4,
             generateGameResponse (js "ir a la mina") inPlaza (imageUrl inPlaza)
               (replying "Mina" "mina" "Llave" None)
               {| store := @optimisticUpdate (js "ir a la mina") inPlaza;
                  isGameStarted := true; events := [] |} = (Ok raw, w2)
             /\ conform raw = Some r
             /\ r_location r <> location inPlaza
             /\ cacheLookup (knownLocations inPlaza) (@replyKey basicLatin r) = Miss
             /\ generate (FullPrompt (artStyle (settings inPlaza)) (r_visualPrompt r)
                            (r_keyElements r))
                  None (replying "Mina" "mina" "Llave" None)
                  (statusWorld (Some Generando) w2) = (Throw e1, w3)
             /\ generate (SimplePrompt (artStyle (settings inPlaza)) (r_visualPrompt r))
                  None (replying "Mina" "mina" "Llave" None) w3 = (Throw e2, w4)
             /\ @replyKey basicLatin r = @normalizeLocKey basicLatin (js "Mina")
             /\ r_visualPrompt r = js "mina").
  { eexists _, _, _, _, _, _, _.
    split; [vm_compute; reflexivity |]. split; [vm_compute; reflexivity |].
    split; [vm_compute; discriminate |].
    repeat split; vm_compute; reflexivity. }
  destruct Hgen as (raw & w2 & r & e1 & w3 & e2 & w4 & Hgen & Hconf & Hloc & Hmiss
                    & Hfull & Hsimple & Hkey & Hvp).
  destruct (@failed_render_is_cached basicLatin inPlaza (js "ir a la mina")
              (replying "Mina" "mina" "Llave" None) [] raw w2 r e1 e2 w3 w4
              eq_refl Hgen Hconf Hloc Hmiss Hfull Hsimple)
    as (_ & (w5 & Hrun & _ & Himg & Hentry) & _).
  exists w5. rewrite <- Hkey, <- Hvp. auto.
Defined.

(** C10 as stated fails for a turn that stays: in the mine that could
    not be rendered, with the empty image in the state and in the
    cache, the next reply reports the mine again.  That is no cache
    hit: an image is requested, and the state gets the new image. *)
Lemma failed_render_retried_counterexample :
  let s := inDarkMine in
  let run := @turn basicLatin rendersMine [] s (js "mirar") in
  let s' := after run in
  @Reachable basicLatin s
  /\ location s = js "Mina"
  /\ imageUrl s = Some []
  /\ knownLocations s !! @normalizeLocKey basicLatin (js "Mina")
     = Some {| vl_imageUrl := []; vl_visualPrompt := js "mina" |}
  /\ fst run = Ok tt
  /\ location s' = js "Mina"
  /\ List.filter isImageCall (eventsOf run)
     = [ Call (ImageRequest (FullPrompt (js "Pixel Art") (js "mina2") []) None) ]
  /\ imageUrl s' = Some (js "data:image/png;base64,MINE")
  /\ imageUrl s' <> Some [].
Proof.
  split; [exact inDarkMine_reachable |].
  repeat split; try (vm_compute; reflexivity). vm_compute. discriminate.
Qed.

(** ** The gate, the repair, the start and the cache on sample runs *)

(** Witness of C1: a second action while the first is being analysed,
    and an action of two blanks. *)
Lemma handleAction_busy_gate_witness :
  let busy := withStatus (Some Analizando) inCave in
  let w := {| store := busy; isGameStarted := true; events := [] |} in
  let idle := {| store := inCave; isGameStarted := true; events := [] |} in
  (loadingStatus busy <> None \/ forallb isWhiteSpace (js "mirar") = true)
  /\ @handleAction basicLatin busy (js "mirar") svcDown w = (Ok tt, w)
  /\ (loadingStatus inCave <> None \/ forallb isWhiteSpace (js "  ") = true)
  /\ @handleAction basicLatin inCave (js "  ") svcDown idle = (Ok tt, idle).
Proof.
  intros busy w idle.
  assert (Hbusy : loadingStatus busy <> None \/ forallb isWhiteSpace (js "mirar") = true)
    by (left; discriminate).
  assert (Hblank : loadingStatus inCave <> None \/ forallb isWhiteSpace (js "  ") = true)
    by (right; vm_compute; reflexivity).
  split; [exact Hbusy |].
  split;
    [exact (proj1 (@handleAction_busy_gate basicLatin busy (js "mirar")
                     svcDown w Hbusy)) |].
  split; [exact Hblank |].
  exact (proj1 (@handleAction_busy_gate basicLatin inCave (js "  ") svcDown idle Hblank)).
Defined.

(** Witness of C6: a text no repair can save. *)
Lemma repair_truncated_narrative_witness :
  JSON_parse (js "garbage") = None
  /\ JSON_parse (js "garbage" ++ js "}") = None
  /\ JSON_parse (js "garbage" ++ js "]}") = None
  /\ JSON_parse (js "garbage" ++ jsq "'}") = None
  /\ tryParseJSON (js "garbage") = JNull.
Proof.
  assert (H0 : JSON_parse (js "garbage") = None) by (vm_compute; reflexivity).
  assert (H1 : JSON_parse (js "garbage" ++ js "}") = None) by (vm_compute; reflexivity).
  assert (H2 : JSON_parse (js "garbage" ++ js "]}") = None) by (vm_compute; reflexivity).
  assert (H3 : JSON_parse (js "garbage" ++ jsq "'}") = None) by (vm_compute; reflexivity).
  repeat (split; [assumption |]).
  destruct repair_truncated_narrative as (_ & _ & _ & _ & _ & _ & _ & Hnull).
  exact (Hnull (js "garbage") H0 H1 H2 H3).
Defined.

(** Witness of C5: a session started while the service is down.  Both
    attempts fail and the session starts on the minimal state. *)
Lemma world_initialization_falls_back_witness :
  let w := {| store := blankState; isGameStarted := false; events := [] |} in
  startLocation demoSettings <> [] /\ artStyle demoSettings <> []
  /\ exists w1 w2 img w3,
       tierFails MODEL_INIT demoSettings svcDown w w1
       /\ tierFails MODEL_LOOP demoSettings svcDown w1 w2
       /\ @handleStartGame basicLatin demoSettings svcDown w
          = (Ok tt, {| store := @initialState basicLatin demoSettings
                                  (fallbackResponse demoSettings) img;
                       isGameStarted := true; events := events w3 |})
       /\ location (@initialState basicLatin demoSettings
                      (fallbackResponse demoSettings) img)
          = startLocation demoSettings
       /\ inventory (@initialState basicLatin demoSettings
                       (fallbackResponse demoSettings) img) = []
       /\ availableExits (@initialState basicLatin demoSettings
                            (fallbackResponse demoSettings) img) = [].
Proof.
  intros w.
  assert (Hloc : startLocation demoSettings <> []) by discriminate.
  assert (Hart : artStyle demoSettings <> []) by discriminate.
  split; [exact Hloc |]. split; [exact Hart |].
  destruct (@world_initialization_falls_back basicLatin demoSettings svcDown w)
    as (_ & _ & _ & _ & _ & _ & _ & _ & Hboth & _).
  assert (Hfail : exists w1 w2,
             tierFails MODEL_INIT demoSettings svcDown w w1
             /\ tierFails MODEL_LOOP demoSettings svcDown w1 w2)
    by (eexists _, _; split; left; eexists; vm_compute; reflexivity).
  destruct Hfail as (w1 & w2 & Hpro & Hflash).
  destruct (Hboth Hloc Hart w1 w2 Hpro Hflash)
    as (img & w3 & _ & Hrun & _ & Hl & _ & Hinv & Hex).
  exists w1, w2, img, w3. repeat (split; [assumption |]). assumption.
Defined.

(** C5 as stated fails for the start of a session.  The first model
    answers at once, with a document of the schema whose one item has
    a description and no name.  [generateInitialGameWorld] returns
    that world and the scene is requested; then [sanitizeInventory]
    fails on the item.  [handleStartGame] raises its alert, the
    session is not started and the state stays as it was: no attempt
    failed, so nothing is synthesized either. *)
Lemma nameless_item_fails_start_counterexample :
  let w := {| store := blankState; isGameStarted := false; events := [] |} in
  let run := @start basicLatin sendsNameless [] blankState demoSettings in
  (exists raw w1,
     tierAnswers MODEL_INIT demoSettings sendsNameless w raw w1
     /\ generateInitialGameWorld demoSettings sendsNameless w = (Ok raw, w1)
     /\ raw_inventory raw = JArr [JObj [(js "description", JStr (js "d"))]])
  /\ fst run = Ok tt
  /\ isGameStarted (snd run) = false
  /\ store (snd run) = blankState
  /\ eventsOf run
     = [ Call (WorldRequest MODEL_INIT demoSettings);
         Call (ImageRequest (FullPrompt (js "Pixel Art") (js "p") []) None);
         Alert startAlert ].
Proof.
  split.
  - eexists _, _. split; [eexists; split; [| split] |];
      [vm_compute; reflexivity .. | split; vm_compute; reflexivity].
  - repeat split; vm_compute; reflexivity.
Qed.

(** Witness of C8: the cave, and the square after it. *)
Lemma known_locations_has_current_witness :
  @Reachable basicLatin inCave
  /\ is_Some (knownLocations inCave !! @normalizeLocKey basicLatin (location inCave))
  /\ is_Some (knownLocations inPlaza !! @normalizeLocKey basicLatin (location inPlaza)).
Proof.
  split; [exact inCave_reachable |].
  destruct (@known_locations_has_current basicLatin inCave inCave_reachable)
    as (Hhere & _ & Hnext).
  split; [exact Hhere |].
  apply (Hnext (replying "Plaza" "plaza" "Llave" (Some "PLAZA"%string)) []
               (js "ir a la plaza")
               (snd (@turn basicLatin (replying "Plaza" "plaza" "Llave"
                                         (Some "PLAZA"%string)) []
                       inCave (js "ir a la plaza")))).
  vm_compute. reflexivity.
Defined.

(** ** The platform functions on sample inputs *)

Example JSON_parse_document :
  JSON_parse (jsq " {'a': [1, -2.5e3, true, null], 'b': {'c': 'xA'}} ")
  = Some (JObj [ (js "a", JArr [JNum false 1 0; JNum true 25 2; JBool true; JNull]);
                 (js "b", JObj [(js "c", JStr (js "xA"))]) ]).
Proof. vm_compute. reflexivity. Qed.

Example JSON_parse_syntax_errors :
  JSON_parse (js "[1,]") = None
  /\ JSON_parse (js "01") = None
  /\ JSON_parse (js "1.") = None
  /\ JSON_parse (js "truefalse") = None
  /\ JSON_parse (jsq "{'a':1,}") = None
  /\ JSON_parse (jsq "'ab") = None
  /\ JSON_parse [] = None.
Proof. repeat split; vm_compute; reflexivity. Qed.

Example truthy_numbers :
  truthy (JNum false 0 5) = false
  /\ truthy (JNum true 0 0) = false
  /\ truthy (JNum false 1 (-400)) = false
  /\ truthy (JNum false 1 (-300)) = true.
Proof. repeat split; vm_compute; reflexivity. Qed.

(** A fenced reply: the braces are kept, the fence is dropped. *)
Example cleanJsonOutput_fenced :
  cleanJsonOutput (js "```json" ++ [10%N] ++ jsq "{'narrative':'n'}" ++ [10%N] ++ js "```")
  = jsq "{'narrative':'n'}".
Proof. vm_compute. reflexivity. Qed.

(** A closing brace before the opening one: [substring] swaps them. *)
Example cleanJsonOutput_swapped : cleanJsonOutput (js "} {") = js " ".
Proof. vm_compute. reflexivity. Qed.

Example normalizeLocKey_variants :
  @normalizeLocKey basicLatin (js " Bilbao ") = js "bilbao"
  /\ @normalizeLocKey basicLatin (js "bilbao") = js "bilbao"
  /\ @normalizeLocKey basicLatin (js "BILBAO") = js "bilbao".
Proof. repeat split; vm_compute; reflexivity. Qed.

Example sanitizeName_samples :
  @sanitizeName basicLatin (js "Llave - ERROR 404") = js "Llave"
  /\ @sanitizeName basicLatin (js "mapa   del    tesoro") = js "Mapa del tesoro"
  /\ @sanitizeName basicLatin (js "__") = js "Objeto Raro"
  /\ @sanitizeName basicLatin (js "abcdefghijklmnopqrstuvwxyz")
     = js "Abcdefghijklmnopqrst..".
Proof. repeat split; vm_compute; reflexivity. Qed.

(** The gate rejects exactly the busy state and the blank action. *)
Lemma rejected_iff (s : GameState) (action : list N) :
  rejected s action = true
  <-> loadingStatus s <> None \/ forallb isWhiteSpace action = true.
Proof.
  unfold rejected. rewrite orb_true_iff, negb_true_iff. split.
  - intros [Hbusy | Hblank].
    + left. by destruct (loadingStatus s).
    + right. apply trim_nil_iff. by destruct (trim action).
  - intros [Hbusy | Hblank].
    + left. destruct (loadingStatus s) as [[] |]; [reflexivity .. | congruence].
    + right. by rewrite (trim_blank _ Hblank).
Qed.

(** ** A service that stays down *)

Lemma turn_offline `{CaseMapping} s a log :
  rejected s a = false ->
  after (turn svcDown log s a) = softFailure (optimisticUpdate a s).
Proof.
  intros Hrej.
  pose proof (handleAction_cases s a svcDown
                {| store := s; isGameStarted := true; events := log |} Hrej) as Hc.
  erewrite generateGameResponse_throws in Hc.
  - unfold after, turn. rewrite Hc. reflexivity.
  - cbn [callWithRetry]. unfold tryCatch at 1. rewrite generateContent_run.
    reflexivity.
Qed.

(** While the service is down every turn adds one entry: the history
    has no bound. *)
Lemma history_grows_offline `{CaseMapping} (s : GameState) (n : nat) :
  loadingStatus s = None ->
  loadingStatus (turns svcDown n s (js "mirar")) = None
  /\ length (history (turns svcDown n s (js "mirar"))) = length (history s) + n.
Proof.
  intros Hidle. induction n as [| n [IHidle IHlen]]; [split; [exact Hidle | simpl; lia] |].
  cbn [turns]. rewrite turn_offline.
  - split; [reflexivity |]. cbn [softFailure optimisticUpdate history].
    rewrite length_app, IHlen. simpl. lia.
  - unfold rejected. rewrite IHidle. vm_compute. reflexivity.
Qed.

(** * Further properties of the service layer *)

(** ** Data URLs *)

Lemma startsWith_app (p s : list N) : startsWith p (p ++ s) = true.
Proof.
  induction p as [| c p IH]; simpl; [reflexivity |].
  by rewrite N.eqb_refl, IH.
Qed.

Lemma startsWith_prefix (p q s : list N) :
  startsWith (p ++ q) s = true -> startsWith p s = true.
Proof.
  revert s. induction p as [| c p IH]; intros s; simpl; [reflexivity |].
  destruct s as [| d s]; [discriminate |].
  intros Hs. apply andb_prop in Hs as [Hc Hs]. rewrite Hc. simpl. eauto.
Qed.

Lemma cleanBase64_png (b : list N) : cleanBase64 (pngPrefix ++ b) = b.
Proof.
  unfold cleanBase64. fold pngPrefix.
  rewrite startsWith_app. apply drop_app_length.
Qed.

Lemma generate_shape prompt refImage svc w img w' :
  generate prompt refImage svc w = (Ok img, w') ->
  exists payload, payload <> [] /\ img = pngPrefix ++ payload.
Proof.
  unfold generate, bind.
  destruct (callWithRetry _ _ _ svc w) as [[resp | e |] w1]; try discriminate.
  destruct (imageData resp) as [b |]; [| discriminate].
  destruct b as [| c b]; [discriminate |].
  intros [= <- _]. by exists (c :: b).
Qed.

(** X1.  [cleanBase64] undoes the prefix of a data URL, whichever of
    the three image types it names, and leaves alone what does not
    start with [data:image/].  Every image [generate] returns is the
    PNG prefix and a payload that is not empty, and the image part that
    is attached to a later request is that payload again. *)
Theorem cleanBase64_round_trip (b : list N) :
  cleanBase64 (js "data:image/png;base64," ++ b) = b
  /\ cleanBase64 (js "data:image/jpeg;base64," ++ b) = b
  /\ cleanBase64 (js "data:image/jpg;base64," ++ b) = b
  /\ (startsWith (js "data:image/") b = false -> cleanBase64 b = b)
  /\ (forall prompt refImage svc w img w',
        generate prompt refImage svc w = (Ok img, w') ->
        exists payload,
          payload <> []
          /\ img = js "data:image/png;base64," ++ payload
          /\ cleanBase64 img = payload
          /\ attachedImage (Some img) = Some payload).
Proof.
  split; [apply cleanBase64_png |].
  split.
  { unfold cleanBase64.
    replace (startsWith (js "data:image/png;base64,") (js "data:image/jpeg;base64," ++ b))
      with false by (vm_compute; reflexivity).
    rewrite startsWith_app. apply drop_app_length. }
  split.
  { unfold cleanBase64.
    replace (startsWith (js "data:image/png;base64,") (js "data:image/jpg;base64," ++ b))
      with false by (vm_compute; reflexivity).
    replace (startsWith (js "data:image/jpeg;base64,") (js "data:image/jpg;base64," ++ b))
      with false by (vm_compute; reflexivity).
    rewrite startsWith_app. apply drop_app_length. }
  split.
  { intros Hno. unfold cleanBase64.
    assert (Hp : forall q, startsWith (js "data:image/" ++ q) b = false).
    { intros q. destruct (startsWith (js "data:image/" ++ q) b) eqn:E; [| reflexivity].
      apply startsWith_prefix in E. congruence. }
    change (js "data:image/png;base64,") with (js "data:image/" ++ js "png;base64,").
    change (js "data:image/jpeg;base64,") with (js "data:image/" ++ js "jpeg;base64,").
    change (js "data:image/jpg;base64,") with (js "data:image/" ++ js "jpg;base64,").
    by rewrite !Hp. }
  intros prompt refImage svc w img w' Hgen.
  destruct (generate_shape _ _ _ _ _ _ Hgen) as (payload & Hne & ->).
  exists payload. split; [exact Hne |]. split; [reflexivity |].
  split; [apply cleanBase64_png |].
  unfold attachedImage.
  assert (Ht : truthyStr (pngPrefix ++ payload) = true) by reflexivity.
  rewrite Ht. by rewrite cleanBase64_png.
Qed.

(** ** Extraction of the reply document *)

Lemma dropWhile_app_keep (p : N -> bool) (a r : list N) c :
  p c = false -> dropWhile p (a ++ c :: r) = dropWhile p a ++ c :: r.
Proof.
  intros Hc. induction a as [| d a IH]; simpl.
  - by rewrite Hc.
  - destruct (p d); [exact IH | reflexivity].
Qed.

Lemma trimStart_keep (a r : list N) c :
  isWhiteSpace c = false -> trimStart (a ++ c :: r) = trimStart a ++ c :: r.
Proof. apply dropWhile_app_keep. Qed.

Lemma trimEnd_keep (a r : list N) c :
  isWhiteSpace c = false -> trimEnd (a ++ c :: r) = a ++ c :: trimEnd r.
Proof.
  intros Hc. unfold trimEnd.
  rewrite rev_app_distr. simpl. rewrite <- app_assoc. simpl.
  rewrite (dropWhile_app_keep _ _ _ _ Hc).
  rewrite rev_app_distr. simpl. rewrite rev_involutive.
  by rewrite <- app_assoc.
Qed.

Lemma In_trimStart x (s : list N) : In x (trimStart s) -> In x s.
Proof. apply In_dropWhile. Qed.

Lemma In_trimEnd x (s : list N) : In x (trimEnd s) -> In x s.
Proof.
  unfold trimEnd. intros Hin. apply in_rev in Hin.
  apply In_dropWhile in Hin. by apply in_rev.
Qed.

Lemma indexOf_app_first c (a r : list N) :
  ~ In c a -> indexOf c (a ++ c :: r) = Some (length a).
Proof.
  induction a as [| d a IH]; simpl; intros Hn.
  - by rewrite N.eqb_refl.
  - destruct (N.eqb_spec d c) as [-> | _]; [tauto |].
    rewrite IH by tauto. reflexivity.
Qed.

Lemma indexOf_absent c (s : list N) : ~ In c s -> indexOf c s = None.
Proof.
  induction s as [| d s IH]; simpl; intros Hn; [reflexivity |].
  destruct (N.eqb_spec d c) as [-> | _]; [tauto |].
  rewrite IH by tauto. reflexivity.
Qed.

Lemma lastIndexOf_absent c (s : list N) : ~ In c s -> lastIndexOf c s = None.
Proof.
  induction s as [| d s IH]; simpl; intros Hn; [reflexivity |].
  rewrite IH by tauto.
  destruct (N.eqb_spec d c) as [-> | _]; [tauto | reflexivity].
Qed.

Lemma lastIndexOf_app_last c (a r : list N) :
  ~ In c r -> lastIndexOf c (a ++ c :: r) = Some (length a).
Proof.
  intros Hn. induction a as [| d a IH]; simpl.
  - rewrite (lastIndexOf_absent _ _ Hn). by rewrite N.eqb_refl.
  - by rewrite IH.
Qed.

(** The trimmed text, when it holds an opening and a closing brace. *)
Lemma trim_around (pre mid post : list N) c d :
  isWhiteSpace c = false -> isWhiteSpace d = false ->
  trim (pre ++ c :: mid ++ d :: post)
  = trimStart pre ++ c :: mid ++ d :: trimEnd post.
Proof.
  intros Hc Hd. unfold trim.
  replace (pre ++ c :: mid ++ d :: post) with ((pre ++ c :: mid) ++ d :: post)
    by (by rewrite <- app_assoc).
  rewrite (trimEnd_keep _ _ _ Hd), <- app_assoc. simpl.
  apply (trimStart_keep _ _ _ Hc).
Qed.

Lemma cleanJsonOutput_object (pre mid post : list N) :
  ~ In 123%N pre -> ~ In 125%N post ->
  cleanJsonOutput (pre ++ 123%N :: mid ++ 125%N :: post) = 123%N :: mid ++ [125%N].
Proof.
  intros Hpre Hpost. unfold cleanJsonOutput.
  rewrite trim_around by reflexivity.
  assert (Hpre' : ~ In 123%N (trimStart pre)) by (intros Hin; apply Hpre, In_trimStart, Hin).
  assert (Hpost' : ~ In 125%N (trimEnd post)) by (intros Hin; apply Hpost, In_trimEnd, Hin).
  rewrite (indexOf_app_first _ _ _ Hpre').
  replace (trimStart pre ++ 123%N :: mid ++ 125%N :: trimEnd post)
    with ((trimStart pre ++ 123%N :: mid) ++ 125%N :: trimEnd post)
    by (by rewrite <- app_assoc).
  rewrite (lastIndexOf_app_last _ _ _ Hpost').
  unfold substring. rewrite length_app. simpl length.
  rewrite Nat.min_l, Nat.max_r by lia.
  rewrite <- app_assoc. rewrite drop_app_length. simpl app.
  replace (length (trimStart pre) + S (length mid) + 1 - length (trimStart pre))
    with (length (123%N :: mid ++ [125%N]))
    by (simpl; rewrite length_app; simpl; lia).
  replace (123%N :: mid ++ 125%N :: trimEnd post)
    with ((123%N :: mid ++ [125%N]) ++ trimEnd post)
    by (simpl; by rewrite <- app_assoc).
  apply take_app_length.
Qed.

(** X2.  Whatever surrounds it, the text from the first opening brace
    to the last closing brace is what [cleanJsonOutput] returns, as
    soon as no opening brace comes before and no closing brace after:
    fences and commentary around a reply document are dropped, the
    function changes nothing when applied again, and a reply whose
    document parses is decoded to that document. *)
Theorem cleanJsonOutput_extracts (pre mid post : list N) :
  ~ In 123%N pre -> ~ In 125%N post ->
  let doc := js "{" ++ mid ++ js "}" in
  cleanJsonOutput (pre ++ doc ++ post) = doc
  /\ cleanJsonOutput (cleanJsonOutput (pre ++ doc ++ post))
     = cleanJsonOutput (pre ++ doc ++ post)
  /\ (forall v image,
        JSON_parse doc = Some v ->
        decodeReply {| text := Some (pre ++ doc ++ post); imageData := image |} = v).
Proof.
  intros Hpre Hpost doc.
  assert (Hdoc : doc = 123%N :: mid ++ [125%N]) by reflexivity.
  assert (Hext : cleanJsonOutput (pre ++ doc ++ post) = doc).
  { rewrite Hdoc. simpl. rewrite <- app_assoc. simpl.
    by apply cleanJsonOutput_object. }
  split; [exact Hext |]. split.
  - rewrite Hext, Hdoc.
    apply (cleanJsonOutput_object [] mid []); simpl; tauto.
  - intros v image Hv. unfold decodeReply. cbn [text].
    assert (Ht : orStr (pre ++ doc ++ post) (js "{}") = pre ++ doc ++ post).
    { apply orStr_truthy. rewrite Hdoc. by destruct pre. }
    rewrite Ht, Hext. unfold tryParseJSON. by rewrite Hv.
Qed.

(** Witness of X2: a fenced reply. *)
Lemma cleanJsonOutput_extracts_witness :
  cleanJsonOutput (js "```json
" ++ jsq "{'narrative':'Hola {amigo}'}" ++ js "
```")
  = jsq "{'narrative':'Hola {amigo}'}".
Proof.
  refine (proj1 (cleanJsonOutput_extracts (js "```json
") (jsq "'narrative':'Hola {amigo}'") (js "
```") _ _)); vm_compute; intuition discriminate.
Defined.

(** X3.  Without an object to extract, [cleanJsonOutput] only trims:
    that is the case when the text has no opening or no closing brace.
    When the last closing brace comes before the first opening one,
    the swap of the arguments of [substring] makes it return the text
    between the two, not trimmed. *)
Theorem cleanJsonOutput_without_object (a b c : list N) :
  (~ In 123%N a \/ ~ In 125%N a -> cleanJsonOutput a = trim a)
  /\ (~ In 123%N a -> ~ In 123%N b -> ~ In 125%N b -> ~ In 125%N c ->
      cleanJsonOutput (a ++ js "}" ++ b ++ js "{" ++ c) = b).
Proof.
  split.
  - intros Hno. unfold cleanJsonOutput.
    destruct Hno as [Hno | Hno].
    + rewrite indexOf_absent; [reflexivity |].
      intros Hin. by apply Hno, In_trim.
    + rewrite (lastIndexOf_absent 125%N (trim a)).
      * by destruct (indexOf _ _).
      * intros Hin. by apply Hno, In_trim.
  - intros Ha1 Hb1 Hb2 Hc2. unfold cleanJsonOutput.
    change (a ++ js "}" ++ b ++ js "{" ++ c) with (a ++ 125%N :: b ++ 123%N :: c).
    rewrite trim_around by reflexivity.
    assert (Ha' : ~ In 123%N (trimStart a)) by (intros Hin; apply Ha1, In_trimStart, Hin).
    assert (Hc' : ~ In 125%N (trimEnd c)) by (intros Hin; apply Hc2, In_trimEnd, Hin).
    replace (trimStart a ++ 125%N :: b ++ 123%N :: trimEnd c)
      with ((trimStart a ++ 125%N :: b) ++ 123%N :: trimEnd c)
      by (by rewrite <- app_assoc).
    rewrite indexOf_app_first.
    2: { intros Hin. apply in_app_or in Hin as [Hin | [Hin | Hin]];
           [tauto | discriminate | tauto]. }
    rewrite <- app_assoc. simpl app.
    rewrite lastIndexOf_app_last.
    2: { intros Hin. apply in_app_or in Hin as [Hin | [Hin | Hin]];
           [tauto | discriminate | tauto]. }
    unfold substring. rewrite length_app. simpl length.
    rewrite Nat.min_r, Nat.max_l by lia.
    replace (trimStart a ++ 125%N :: b ++ 123%N :: trimEnd c)
      with ((trimStart a ++ [125%N]) ++ b ++ 123%N :: trimEnd c)
      by (by rewrite <- app_assoc).
    replace (length (trimStart a) + 1) with (length (trimStart a ++ [125%N]))
      by (rewrite length_app; reflexivity).
    rewrite drop_app_length.
    replace (length (trimStart a) + S (length b) - length (trimStart a ++ [125%N]))
      with (length b) by (rewrite length_app; simpl; lia).
    apply take_app_length.
Qed.

(** Witness of X3: a reply in prose, and one with its braces reversed. *)
Lemma cleanJsonOutput_without_object_witness :
  cleanJsonOutput (js "  no puedo responder  ") = js "no puedo responder"
  /\ cleanJsonOutput (js " } x { ") = js " x ".
Proof.
  split.
  - refine (proj1 (cleanJsonOutput_without_object (js "  no puedo responder  ") [] []) _).
    left. vm_compute. intuition discriminate.
  - refine (proj2 (cleanJsonOutput_without_object (js " ") (js " x ") (js " ")) _ _ _ _);
      vm_compute; intuition discriminate.
Defined.

(** ** Repair of a reply that was cut *)

(** X4.  [tryParseJSON] never alters a text that parses; what it
    returns is [null] or the value of the text followed by one of the
    closers it tries; and for a text that ends in a quote the last
    repair repeats the first, so only the two closers without a quote
    are tried. *)
Theorem tryParseJSON_sound (s : list N) :
  (forall v, JSON_parse s = Some v -> tryParseJSON s = v)
  /\ (tryParseJSON s = JNull
      \/ exists closer,
           In closer [[]; js "}"; js "]}"; jsq "'}"]
           /\ JSON_parse (s ++ closer) = Some (tryParseJSON s))
  /\ (endsWith (jsq "'") (trim s) = true ->
      JSON_parse s = None -> JSON_parse (s ++ js "}") = None ->
      tryParseJSON s
      = match JSON_parse (s ++ js "]}") with Some v => v | None => JNull end).
Proof.
  split; [| split].
  - intros v Hv. unfold tryParseJSON. by rewrite Hv.
  - unfold tryParseJSON.
    destruct (JSON_parse s) as [v |] eqn:H0.
    { right. exists []. rewrite app_nil_r. split; [by left | exact H0]. }
    destruct (JSON_parse (s ++ js "}")) as [v |] eqn:H1.
    { right. exists (js "}"). split; [right; by left | exact H1]. }
    destruct (JSON_parse (s ++ js "]}")) as [v |] eqn:H2.
    { right. exists (js "]}"). split; [right; right; by left | exact H2]. }
    destruct (endsWith _ _); [by left |].
    destruct (JSON_parse (s ++ jsq "'}")) as [v |] eqn:H3; [| by left].
    right. exists (jsq "'}"). split; [right; right; right; by left | exact H3].
  - intros Hq H0 H1. unfold tryParseJSON. rewrite H0, H1.
    destruct (JSON_parse (s ++ js "]}")); [reflexivity |].
    change (jsq "'") with [34%N] in Hq. by rewrite Hq.
Qed.

Lemma plain_app (a b : list N) : plain a -> plain b -> plain (a ++ b).
Proof. unfold plain. intros Ha Hb. by rewrite forallb_app, Ha, Hb. Qed.

Lemma plain_cons c (s : list N) : plain (c :: s) -> plainUnit c = true /\ plain s.
Proof. unfold plain. simpl. intros Hs. by apply andb_prop in Hs. Qed.

Lemma plainUnit_spec c :
  plainUnit c = true -> (c =? 34)%N = false /\ (c =? 92)%N = false /\ (c <? 32)%N = false.
Proof.
  unfold plainUnit. intros Hc.
  apply andb_prop in Hc as [Hc H3]. apply andb_prop in Hc as [H1 H2].
  by rewrite !negb_true_iff in *.
Qed.

(** A string literal of plain units is read up to its closing quote. *)
Lemma lexStringBody_plain (v rest : list N) :
  plain v -> lexStringBody (v ++ 34%N :: rest) = Some (v, S (length v)).
Proof.
  induction v as [| c v IH]; intros Hv; [reflexivity |].
  apply plain_cons in Hv as [Hc Hv]. apply plainUnit_spec in Hc as (H1 & H2 & H3).
  simpl. rewrite H1, H2, H3, (IH Hv). reflexivity.
Qed.

(** Without a quote and without a backslash a literal never ends. *)
Lemma lexStringBody_open (s : list N) :
  ~ In 34%N s -> ~ In 92%N s -> lexStringBody s = None.
Proof.
  induction s as [| c s IH]; intros Hq Hb; [reflexivity |].
  simpl in *.
  destruct (N.eqb_spec c 34) as [-> | _]; [tauto |].
  destruct (c <? 32)%N; [reflexivity |].
  destruct (N.eqb_spec c 92) as [-> | _]; [tauto |].
  rewrite IH by tauto. reflexivity.
Qed.

Lemma plain_no_quote (s : list N) : plain s -> ~ In 34%N s /\ ~ In 92%N s.
Proof.
  induction s as [| c s IH]; intros Hs; [simpl; tauto |].
  apply plain_cons in Hs as [Hc Hs]. apply plainUnit_spec in Hc as (H1 & H2 & _).
  apply N.eqb_neq in H1, H2. destruct (IH Hs) as [Hq Hb].
  simpl. split; intros [-> | Hin]; tauto.
Qed.

Lemma blank_no_quote (s : list N) :
  forallb isWhiteSpace s = true -> ~ In 34%N s /\ ~ In 92%N s.
Proof.
  induction s as [| c s IH]; intros Hs; [simpl; tauto |].
  simpl in Hs. apply andb_prop in Hs as [Hc Hs]. destruct (IH Hs) as [Hq Hb].
  simpl. split; (intros [-> | Hin]; [by vm_compute in Hc | tauto]).
Qed.

Lemma lexFrom_skip (a r : list N) : lexFrom (length a) (a ++ r) = lexFrom 0 r.
Proof. induction a as [| c a IH]; [reflexivity | exact IH]. Qed.

Lemma lexFrom_string (v rest : list N) :
  plain v ->
  lexFrom 0 (34%N :: v ++ 34%N :: rest) = cons (TString v) <$> lexFrom 0 rest.
Proof.
  intros Hv. cbn [lexFrom]. change (isJsonWs 34) with false. cbv iota.
  change ((34 =? 123)%N) with false. change ((34 =? 125)%N) with false.
  change ((34 =? 91)%N) with false. change ((34 =? 93)%N) with false.
  change ((34 =? 58)%N) with false. change ((34 =? 44)%N) with false.
  change ((34 =? 34)%N) with true. cbv iota.
  rewrite (lexStringBody_plain _ _ Hv).
  replace (v ++ 34%N :: rest) with ((v ++ [34%N]) ++ rest) by (by rewrite <- app_assoc).
  replace (S (length v)) with (length (v ++ [34%N])) by (rewrite length_app; simpl; lia).
  by rewrite lexFrom_skip.
Qed.

Lemma lexFrom_open_string (s : list N) :
  ~ In 34%N s -> ~ In 92%N s -> lexFrom 0 (34%N :: s) = None.
Proof.
  intros Hq Hb. cbn [lexFrom]. change (isJsonWs 34) with false. cbv iota.
  change ((34 =? 123)%N) with false. change ((34 =? 125)%N) with false.
  change ((34 =? 91)%N) with false. change ((34 =? 93)%N) with false.
  change ((34 =? 58)%N) with false. change ((34 =? 44)%N) with false.
  change ((34 =? 34)%N) with true. cbv iota.
  by rewrite (lexStringBody_open _ Hq Hb).
Qed.

(** The tokens of an object broken off behind the colon of its first
    member. *)
Lemma lexFrom_memberOpen (k rest : list N) :
  plain k ->
  lexFrom 0 (memberOpen k ++ rest)
  = (fun toks => TLBrace :: TString k :: TColon :: toks) <$> lexFrom 0 rest.
Proof.
  intros Hk. unfold memberOpen.
  change (jsq "{'") with [123%N; 34%N]. change (jsq "':") with [34%N; 58%N].
  rewrite <- !app_assoc. simpl app.
  change (lexFrom 0 (123%N :: 34%N :: k ++ 34%N :: 58%N :: rest))
    with (cons TLBrace <$> lexFrom 0 (34%N :: k ++ 34%N :: 58%N :: rest)).
  rewrite (lexFrom_string _ _ Hk).
  change (lexFrom 0 (58%N :: rest)) with (cons TColon <$> lexFrom 0 rest).
  by destruct (lexFrom 0 rest).
Qed.

Lemma JSON_parse_memberOpen (k rest : list N) :
  plain k ->
  JSON_parse (memberOpen k ++ rest)
  = match lexFrom 0 rest with
    | Some toks => runParser (PValue [FObj [] k]) toks
    | None => None
    end.
Proof.
  intros Hk. unfold JSON_parse. rewrite (lexFrom_memberOpen _ _ Hk).
  by destruct (lexFrom 0 rest).
Qed.

Lemma dropWhile_app_stop_at (p : N -> bool) (a b : list N) d t :
  dropWhile p a = d :: t -> dropWhile p (a ++ b) = d :: t ++ b.
Proof.
  induction a as [| c a IH]; simpl; [discriminate |].
  destruct (p c); [exact IH |]. by intros [= -> ->].
Qed.

Lemma dropWhile_app_all (p : N -> bool) (a b : list N) :
  forallb p a = true -> dropWhile p (a ++ b) = dropWhile p b.
Proof.
  induction a as [| c a IH]; simpl; [reflexivity |].
  intros Ha. apply andb_prop in Ha as [Hc Ha]. rewrite Hc. auto.
Qed.

(** The last unit of the trimmed text, for a text that does not start
    with white space. *)
Lemma rev_trim_from (c : N) (rest : list N) :
  isWhiteSpace c = false ->
  rev (trim (c :: rest)) = dropWhile isWhiteSpace (rev rest) ++ [c].
Proof.
  intros Hc. unfold trim.
  pose proof (trimEnd_keep [] rest c Hc) as E. simpl app in E. rewrite E.
  unfold trimStart. simpl. rewrite Hc. simpl.
  unfold trimEnd. by rewrite rev_involutive.
Qed.

Lemma endsWith_quote_cut (c : N) (r v : list N) :
  isWhiteSpace c = false -> plain v -> forallb isWhiteSpace v = false ->
  endsWith [34%N] (trim (c :: r ++ v)) = false.
Proof.
  intros Hc Hv Hnb. unfold endsWith. rewrite (rev_trim_from _ _ Hc).
  rewrite rev_app_distr.
  destruct (dropWhile isWhiteSpace (rev v)) as [| d t] eqn:E.
  - apply dropWhile_nil_all in E. rewrite forallb_rev in E. congruence.
  - rewrite (dropWhile_app_stop_at _ _ _ _ _ E).
    change (rev [34%N]) with [34%N]. cbn [app startsWith].
    assert (Hin : In d v).
    { apply in_rev, (In_dropWhile isWhiteSpace). rewrite E. by left. }
    destruct (plain_no_quote _ Hv) as [Hq _].
    destruct (N.eqb_spec 34 d) as [<- | _]; [tauto | reflexivity].
Qed.

Lemma endsWith_quote_blank (c : N) (r v : list N) :
  isWhiteSpace c = false -> forallb isWhiteSpace v = true ->
  endsWith [34%N] (trim (c :: (r ++ [34%N]) ++ v)) = true.
Proof.
  intros Hc Hb. unfold endsWith. rewrite (rev_trim_from _ _ Hc).
  rewrite rev_app_distr, dropWhile_app_all by (by rewrite forallb_rev).
  rewrite rev_app_distr. change (rev [34%N]) with [34%N]. cbn [app dropWhile].
  change (isWhiteSpace 34) with false. cbn [app startsWith].
  by rewrite N.eqb_refl.
Qed.

Lemma memberOpen_cut (k : list N) :
  memberOpen k ++ [34%N] = 123%N :: (34%N :: k ++ [34%N; 58%N]) ++ [34%N].
Proof.
  unfold memberOpen. change (jsq "{'") with [123%N; 34%N].
  change (jsq "':") with [34%N; 58%N]. simpl. by rewrite <- !app_assoc.
Qed.

(** Texts are compared with their appends nested to the right. *)
Ltac norm_text := repeat first [rewrite <- app_assoc | progress cbn [app]].

Section Repairs.
Variables k v : list N.
Hypothesis Hk : plain k.

(** A text broken off behind a complete string value. *)
Lemma repair_missing_brace :
  plain v ->
  tryParseJSON (memberOpen k ++ 34%N :: v ++ [34%N]) = JObj [(k, JStr v)].
Proof using Hk.
  intros Hv. unfold tryParseJSON. norm_text.
  rewrite !(JSON_parse_memberOpen _ _ Hk), !(lexFrom_string _ _ Hv).
  reflexivity.
Qed.

(** A text broken off inside an array, behind a complete string. *)
Lemma repair_missing_bracket :
  plain v ->
  tryParseJSON (memberOpen k ++ 91%N :: 34%N :: v ++ [34%N])
  = JObj [(k, JArr [JStr v])].
Proof using Hk.
  intros Hv. unfold tryParseJSON. norm_text.
  rewrite !(JSON_parse_memberOpen _ _ Hk).
  assert (Hb : forall tail,
             lexFrom 0 (91%N :: 34%N :: v ++ 34%N :: tail)
             = (fun toks => TLBracket :: TString v :: toks) <$> lexFrom 0 tail).
  { intros tail.
    change (lexFrom 0 (91%N :: 34%N :: v ++ 34%N :: tail))
      with (cons TLBracket <$> lexFrom 0 (34%N :: v ++ 34%N :: tail)).
    rewrite (lexFrom_string _ _ Hv). by destruct (lexFrom 0 tail). }
  rewrite !Hb. reflexivity.
Qed.

(** A string value that is cut never closes, whatever is appended
    that has no quote. *)
Lemma cut_string_fails (closer : list N) :
  ~ In 34%N v -> ~ In 92%N v -> ~ In 34%N closer -> ~ In 92%N closer ->
  JSON_parse ((memberOpen k ++ 34%N :: v) ++ closer) = None
  /\ JSON_parse ((memberOpen k ++ 91%N :: 34%N :: v) ++ closer) = None.
Proof using Hk.
  intros Hq Hb Hcq Hcb. norm_text.
  rewrite !(JSON_parse_memberOpen _ _ Hk).
  assert (Hopen : lexFrom 0 (34%N :: v ++ closer) = None).
  { apply lexFrom_open_string;
      intros Hin; apply in_app_or in Hin as [Hin | Hin]; tauto. }
  change (lexFrom 0 (91%N :: 34%N :: v ++ closer))
    with (cons TLBracket <$> lexFrom 0 (34%N :: v ++ closer)).
  by rewrite Hopen.
Qed.

(** A string value cut after a unit that is not white space is closed
    by the last repair. *)
Lemma repair_cut_string :
  plain v -> forallb isWhiteSpace v = false ->
  tryParseJSON (memberOpen k ++ 34%N :: v) = JObj [(k, JStr v)].
Proof using Hk.
  intros Hv Hnb. destruct (plain_no_quote _ Hv) as [Hq Hb].
  unfold tryParseJSON.
  pose proof (cut_string_fails [] Hq Hb) as [H0 _]; [simpl; tauto .. |].
  rewrite app_nil_r in H0. rewrite H0.
  pose proof (cut_string_fails (js "}") Hq Hb) as [H1 _];
    [vm_compute; intuition discriminate .. |].
  rewrite H1.
  pose proof (cut_string_fails (js "]}") Hq Hb) as [H2 _];
    [vm_compute; intuition discriminate .. |].
  rewrite H2.
  assert (He : endsWith [34%N] (trim (memberOpen k ++ 34%N :: v)) = false).
  { pose proof (memberOpen_cut k) as E.
    replace (memberOpen k ++ 34%N :: v) with ((memberOpen k ++ [34%N]) ++ v)
      by (by rewrite <- app_assoc).
    rewrite E. rewrite <- app_comm_cons.
    by apply endsWith_quote_cut. }
  rewrite He. change (jsq "'}") with [34%N; 125%N]. norm_text.
  rewrite (JSON_parse_memberOpen _ _ Hk), (lexFrom_string _ _ Hv).
  reflexivity.
Qed.

(** Cut right behind the opening quote, or behind white space only,
    the text ends in a quote once trimmed, and nothing repairs it. *)
Lemma no_repair_blank_string :
  forallb isWhiteSpace v = true ->
  tryParseJSON (memberOpen k ++ 34%N :: v) = JNull.
Proof using Hk.
  intros Hbl. destruct (blank_no_quote _ Hbl) as [Hq Hb].
  unfold tryParseJSON.
  pose proof (cut_string_fails [] Hq Hb) as [H0 _]; [simpl; tauto .. |].
  rewrite app_nil_r in H0. rewrite H0.
  pose proof (cut_string_fails (js "}") Hq Hb) as [H1 _];
    [vm_compute; intuition discriminate .. |].
  rewrite H1.
  pose proof (cut_string_fails (js "]}") Hq Hb) as [H2 _];
    [vm_compute; intuition discriminate .. |].
  rewrite H2.
  assert (He : endsWith [34%N] (trim (memberOpen k ++ 34%N :: v)) = true).
  { pose proof (memberOpen_cut k) as E.
    replace (memberOpen k ++ 34%N :: v) with ((memberOpen k ++ [34%N]) ++ v)
      by (by rewrite <- app_assoc).
    rewrite E. rewrite <- app_comm_cons.
    by apply endsWith_quote_blank. }
  by rewrite He.
Qed.

(** Inside an array a cut string is never repaired: no closer ends
    the string, the array and the object. *)
Lemma no_repair_cut_in_array :
  plain v ->
  tryParseJSON (memberOpen k ++ 91%N :: 34%N :: v) = JNull.
Proof using Hk.
  intros Hv. destruct (plain_no_quote _ Hv) as [Hq Hb].
  unfold tryParseJSON.
  pose proof (cut_string_fails [] Hq Hb) as [_ H0]; [simpl; tauto .. |].
  rewrite app_nil_r in H0. rewrite H0.
  pose proof (cut_string_fails (js "}") Hq Hb) as [_ H1];
    [vm_compute; intuition discriminate .. |].
  rewrite H1.
  pose proof (cut_string_fails (js "]}") Hq Hb) as [_ H2];
    [vm_compute; intuition discriminate .. |].
  rewrite H2.
  destruct (endsWith _ _); [reflexivity |].
  change (jsq "'}") with [34%N; 125%N]. norm_text.
  rewrite (JSON_parse_memberOpen _ _ Hk).
  change (lexFrom 0 (91%N :: 34%N :: v ++ [34%N; 125%N]))
    with (cons TLBracket <$> lexFrom 0 (34%N :: v ++ 34%N :: [125%N])).
  rewrite (lexFrom_string _ _ Hv). reflexivity.
Qed.

End Repairs.

Lemma member_text (k rest : list N) :
  jsq "{'" ++ k ++ jsq "':" ++ rest = memberOpen k ++ rest.
Proof. unfold memberOpen. by rewrite <- !app_assoc. Qed.

(** X5.  The three closers repair an object whose one member has a
    string value, for every key and every value made of units that
    stand for themselves: a text that stops behind the value is closed
    by a brace, one that stops behind a string in an array by a
    bracket and a brace, and one that stops inside the value by a
    quote and a brace, as long as the value so far has a unit that is
    not white space.  The result is the object with the text read so
    far, nothing added to it. *)
Theorem tryParseJSON_repairs (k v : list N) :
  plain k -> plain v ->
  tryParseJSON (jsq "{'" ++ k ++ jsq "':'" ++ v ++ jsq "'") = JObj [(k, JStr v)]
  /\ tryParseJSON (jsq "{'" ++ k ++ jsq "':['" ++ v ++ jsq "'")
     = JObj [(k, JArr [JStr v])]
  /\ (forallb isWhiteSpace v = false ->
      tryParseJSON (jsq "{'" ++ k ++ jsq "':'" ++ v) = JObj [(k, JStr v)]).
Proof.
  intros Hk Hv. split; [| split].
  - change (jsq "{'" ++ k ++ jsq "':'" ++ v ++ jsq "'")
      with (jsq "{'" ++ k ++ jsq "':" ++ 34%N :: v ++ [34%N]).
    rewrite member_text. by apply repair_missing_brace.
  - change (jsq "{'" ++ k ++ jsq "':['" ++ v ++ jsq "'")
      with (jsq "{'" ++ k ++ jsq "':" ++ 91%N :: 34%N :: v ++ [34%N]).
    rewrite member_text. by apply repair_missing_bracket.
  - intros Hnb.
    change (jsq "{'" ++ k ++ jsq "':'" ++ v)
      with (jsq "{'" ++ k ++ jsq "':" ++ 34%N :: v).
    rewrite member_text. by apply repair_cut_string.
Qed.

(** Witness of X5: a narrative that was cut in three ways. *)
Lemma tryParseJSON_repairs_witness :
  tryParseJSON (jsq "{'narrative':'Entras en la cueva'")
  = JObj [(js "narrative", JStr (js "Entras en la cueva"))]
  /\ tryParseJSON (jsq "{'availableExits':['Norte'")
     = JObj [(js "availableExits", JArr [JStr (js "Norte")])]
  /\ tryParseJSON (jsq "{'narrative':'Entras en la cue")
     = JObj [(js "narrative", JStr (js "Entras en la cue"))].
Proof.
  split; [| split].
  - exact (proj1 (tryParseJSON_repairs (js "narrative") (js "Entras en la cueva")
                    eq_refl eq_refl)).
  - exact (proj1 (proj2 (tryParseJSON_repairs (js "availableExits") (js "Norte")
                           eq_refl eq_refl))).
  - exact (proj2 (proj2 (tryParseJSON_repairs (js "narrative") (js "Entras en la cue")
                           eq_refl eq_refl)) eq_refl).
Defined.

(** X6.  What the repair gives up on.  A string value cut right
    behind its opening quote, or behind white space only, leaves a
    text that ends in a quote once trimmed, so the closer with a quote
    is never tried; and a string cut inside an array would need a
    quote, a bracket and a brace.  Both replies come back as [null],
    which the callers treat as no reply. *)
Theorem tryParseJSON_gives_up (k v : list N) :
  plain k ->
  (forallb isWhiteSpace v = true ->
   tryParseJSON (jsq "{'" ++ k ++ jsq "':'" ++ v) = JNull)
  /\ (plain v -> tryParseJSON (jsq "{'" ++ k ++ jsq "':['" ++ v) = JNull)
  /\ truthy JNull = false.
Proof.
  intros Hk. split; [| split; [| reflexivity]].
  - intros Hbl.
    change (jsq "{'" ++ k ++ jsq "':'" ++ v)
      with (jsq "{'" ++ k ++ jsq "':" ++ 34%N :: v).
    rewrite member_text. by apply no_repair_blank_string.
  - intros Hv.
    change (jsq "{'" ++ k ++ jsq "':['" ++ v)
      with (jsq "{'" ++ k ++ jsq "':" ++ 91%N :: 34%N :: v).
    rewrite member_text. by apply no_repair_cut_in_array.
Qed.

(** Witness of X6: the same narrative cut one unit after the colon,
    and a list of exits cut inside its first name. *)
Lemma tryParseJSON_gives_up_witness :
  tryParseJSON (jsq "{'narrative':'") = JNull
  /\ tryParseJSON (jsq "{'availableExits':['Nor") = JNull.
Proof.
  split.
  - exact (proj1 (tryParseJSON_gives_up (js "narrative") [] eq_refl) eq_refl).
  - exact (proj1 (proj2 (tryParseJSON_gives_up (js "availableExits") (js "Nor") eq_refl))
             eq_refl).
Defined.

(** ** Retries *)

Lemma schedule_nonempty req delay k : schedule req delay k <> [].
Proof. by destruct k. Qed.

Lemma removelast_cons2 {A} (a : A) (l : list A) :
  l <> [] -> removelast (a :: l) = a :: removelast l.
Proof. by destruct l. Qed.

(** One attempt of [callWithRetry]. *)
Lemma callWithRetry_step req retries delay svc w :
  callWithRetry (generateContent req) retries delay svc w
  = match svc (events w) req with
    | inr resp => (Ok resp, logEvent (Call req) w)
    | inl e =>
      match retries with
      | S r =>
        if isTransient e
        then callWithRetry (generateContent req) r (delay * 2) svc
               (logEvent (Sleep delay) (logEvent (Call req) w))
        else (Throw e, logEvent (Call req) w)
      | O => (Throw e, logEvent (Call req) w)
      end
    end.
Proof.
  destruct retries as [| r]; cbn [callWithRetry]; unfold tryCatch at 1;
    rewrite generateContent_run; destruct (svc (events w) req) as [e | resp];
    try reflexivity.
  by destruct (isTransient e).
Qed.

(** The run of [callWithRetry] on a request: it stops at the first
    answer, at an error that is not retried, or when no retry is
    left. *)
Lemma callWithRetry_run req retries delay svc w :
  exists k,
    k <= retries
    /\ snd (callWithRetry (generateContent req) retries delay svc w)
       = {| store := store w; isGameStarted := isGameStarted w;
            events := events w ++ schedule req delay k |}
    /\ match svc (events w ++ removelast (schedule req delay k)) req with
       | inr resp =>
         fst (callWithRetry (generateContent req) retries delay svc w) = Ok resp
       | inl e =>
         fst (callWithRetry (generateContent req) retries delay svc w) = Throw e
         /\ (k = retries \/ isTransient e = false)
       end.
Proof.
  revert delay w. induction retries as [| r IH]; intros delay w;
    rewrite callWithRetry_step.
  - exists 0. split; [lia |]. cbn [schedule removelast]. rewrite app_nil_r.
    destruct (svc (events w) req) as [e | resp]; simpl; auto.
  - destruct (svc (events w) req) as [e | resp] eqn:Hsvc.
    + destruct (isTransient e) eqn:Ht.
      * destruct (IH (delay * 2)%N (logEvent (Sleep delay) (logEvent (Call req) w)))
          as (k & Hk & Hw & Hres). clear IH.
        exists (S k). split; [lia |].
        cbn [schedule]. rewrite removelast_cons2 by discriminate.
        rewrite removelast_cons2 by apply schedule_nonempty.
        cbn [logEvent events store isGameStarted] in Hw, Hres.
        rewrite <- !app_assoc in Hw, Hres. cbn [app] in Hw, Hres.
        split; [exact Hw |].
        destruct (svc (events w ++ _) req) as [e' | resp'].
        -- destruct Hres as [Hres Hlast]. split; [exact Hres |].
           destruct Hlast as [-> | Hlast]; auto.
        -- exact Hres.
      * exists 0. split; [lia |]. cbn [schedule removelast].
        rewrite app_nil_r, Hsvc. simpl. auto.
    + exists 0. split; [lia |]. cbn [schedule removelast].
      rewrite app_nil_r, Hsvc. simpl. auto.
Qed.

Lemma calls_schedule req delay k : calls (schedule req delay k) = S k.
Proof.
  revert delay. induction k as [| k IH]; intros delay; [reflexivity |].
  unfold calls in *. simpl. by rewrite IH.
Qed.

Lemma waited_schedule req delay k :
  waited (schedule req delay k) = (delay * (2 ^ N.of_nat k - 1))%N.
Proof.
  revert delay. induction k as [| k IH]; intros delay.
  - simpl. lia.
  - cbn [schedule waited fold_right] in *. fold (waited (schedule req (delay * 2) k)).
    rewrite IH. rewrite Nat2N.inj_succ, N.pow_succ_r'.
    assert (1 <= 2 ^ N.of_nat k)%N by (apply N.lt_pred_le, N.neq_0_lt_0, N.pow_nonzero; lia).
    nia.
Qed.

(** X7.  [callWithRetry] on a request: the log grows by the request,
    then by a wait and the request again for each retry, each wait
    twice the one before, so [k] retries cost [k + 1] requests and
    [delay * (2 ^ k - 1)] milliseconds; it retries at most [retries]
    times, touches nothing else, and its outcome is the outcome of the
    last request: an answer, or an error which either used up the
    retries or is not one that is retried. *)
Theorem callWithRetry_backoff (req : Request) (retries : nat) (delay : N)
    (svc : Service) (w : World) :
  let run := callWithRetry (generateContent req) retries delay svc w in
  exists k,
    k <= retries
    /\ events (snd run) = events w ++ schedule req delay k
    /\ store (snd run) = store w
    /\ calls (schedule req delay k) = S k
    /\ waited (schedule req delay k) = (delay * (2 ^ N.of_nat k - 1))%N
    /\ match svc (events w ++ removelast (schedule req delay k)) req with
       | inr resp => fst run = Ok resp
       | inl e => fst run = Throw e /\ (k = retries \/ isTransient e = false)
       end.
Proof.
  intros run. destruct (callWithRetry_run req retries delay svc w) as (k & Hk & Hw & Hres).
  exists k. subst run. rewrite Hw. cbn [events store].
  split; [exact Hk |]. split; [reflexivity |]. split; [reflexivity |].
  split; [apply calls_schedule |]. split; [apply waited_schedule |]. exact Hres.
Qed.

(** X8.  An error that [callWithRetry] does not retry is thrown again
    as it is after the one request, without a wait.  Retried are a
    status 503 or 500, a code 503 and a message that mentions 503;
    a rate limit (status 429) or a code 500 is not. *)
Theorem callWithRetry_gives_up (req : Request) (retries : nat) (delay : N)
    (svc : Service) (w : World) (e : ApiError) :
  svc (events w) req = inl e ->
  isTransient e = false \/ retries = 0 ->
  callWithRetry (generateContent req) retries delay svc w
  = (Throw e, logEvent (Call req) w)
  /\ isTransient rateLimited = false
  /\ isTransient {| status := None; code := Some 500%N; message := None |} = false
  /\ isTransient {| status := Some 500%N; code := None; message := None |} = true.
Proof.
  intros Hsvc Hno. split; [| by vm_compute].
  rewrite callWithRetry_step, Hsvc.
  destruct retries as [| r]; [reflexivity |].
  destruct Hno as [-> | Hr]; [reflexivity | discriminate].
Qed.

(** Witness of X8: a rate limit during a turn. *)
Lemma callWithRetry_gives_up_witness :
  let req := TurnRequest (js "mirar") inCave None in
  let w := {| store := inCave; isGameStarted := true; events := [] |} in
  callWithRetry (generateContent req) 3 500 (fun _ _ => inl rateLimited) w
  = (Throw rateLimited, logEvent (Call req) w).
Proof.
  intros req w.
  exact (proj1 (callWithRetry_gives_up req 3 500 (fun _ _ => inl rateLimited) w
                  rateLimited eq_refl (or_introl eq_refl))).
Defined.

(** ** What a turn and a start cost *)

Lemma calls_app (a b : list Event) : calls (a ++ b) = calls a + calls b.
Proof. unfold calls. by rewrite List.filter_app, length_app. Qed.

Lemma waited_app (a b : list Event) : waited (a ++ b) = (waited a + waited b)%N.
Proof.
  induction a as [| e a IH]; [reflexivity |].
  simpl. destruct e; rewrite IH; lia.
Qed.

Lemma within_mono {A} (m : Eff A) c t c' t' :
  within c t m -> c <= c' -> (t <= t')%N -> within c' t' m.
Proof.
  intros Hm Hc Ht svc w. destruct (Hm svc w) as (evs & He & H1 & H2).
  exists evs. repeat split; [exact He | lia | lia].
Qed.

Lemma within_ret {A} (a : A) : within 0 0 (ret a).
Proof. intros svc w. exists []. simpl. by rewrite app_nil_r. Qed.

Lemma within_throw {A} (e : ApiError) : within 0 0 (@throw A e).
Proof. intros svc w. exists []. simpl. by rewrite app_nil_r. Qed.

Lemma within_typed {A} (o : option A) : within 0 0 (typed o).
Proof. intros svc w. exists []. destruct o; simpl; by rewrite app_nil_r. Qed.

Lemma within_orThrow {A} (o : option A) : within 0 0 (orThrow o).
Proof. intros svc w. exists []. destruct o; simpl; by rewrite app_nil_r. Qed.

Lemma within_setGameState f : within 0 0 (setGameState f).
Proof. intros svc w. exists []. simpl. by rewrite app_nil_r. Qed.

Lemma within_setIsGameStarted b : within 0 0 (setIsGameStarted b).
Proof. intros svc w. exists []. simpl. by rewrite app_nil_r. Qed.

Lemma within_alert msg : within 0 0 (alert msg).
Proof. intros svc w. by exists [Alert msg]. Qed.

Lemma within_bind {A B} (m : Eff A) (k : A -> Eff B) c1 t1 c2 t2 :
  within c1 t1 m -> (forall a, within c2 t2 (k a)) ->
  within (c1 + c2) (t1 + t2) (bind m k).
Proof.
  intros Hm Hk svc w. unfold bind.
  destruct (Hm svc w) as (evs & He & H1 & H2).
  destruct (m svc w) as [[a | e |] w1]; simpl in He.
  - destruct (Hk a svc w1) as (evs' & He' & H1' & H2').
    exists (evs ++ evs'). rewrite He', He, calls_app, waited_app, <- app_assoc.
    repeat split; lia.
  - exists evs. simpl. repeat split; [exact He | lia | lia].
  - exists evs. simpl. repeat split; [exact He | lia | lia].
Qed.

Lemma within_tryCatch {A} (m : Eff A) (h : ApiError -> Eff A) c1 t1 c2 t2 :
  within c1 t1 m -> (forall e, within c2 t2 (h e)) ->
  within (c1 + c2) (t1 + t2) (tryCatch m h).
Proof.
  intros Hm Hh svc w. unfold tryCatch.
  destruct (Hm svc w) as (evs & He & H1 & H2).
  destruct (m svc w) as [[a | e |] w1]; simpl in He.
  - exists evs. simpl. repeat split; [exact He | lia | lia].
  - destruct (Hh e svc w1) as (evs' & He' & H1' & H2').
    exists (evs ++ evs'). rewrite He', He, calls_app, waited_app, <- app_assoc.
    repeat split; lia.
  - exists evs. simpl. repeat split; [exact He | lia | lia].
Qed.

Lemma within_callWithRetry req retries delay :
  within (S retries) (delay * (2 ^ N.of_nat retries - 1))
         (callWithRetry (generateContent req) retries delay).
Proof.
  intros svc w.
  destruct (callWithRetry_run req retries delay svc w) as (k & Hk & Hw & _).
  exists (schedule req delay k). rewrite Hw. cbn [events].
  split; [reflexivity |]. rewrite calls_schedule, waited_schedule.
  split; [lia |].
  apply N.mul_le_mono_l, N.sub_le_mono_r, N.pow_le_mono_r; lia.
Qed.

Lemma within_text req : within 4 3500 (callWithRetry (generateContent req) 3 500).
Proof. apply (within_callWithRetry req 3 500). Qed.

Lemma within_generateGameResponse a s img :
  within 4 3500 (generateGameResponse a s img).
Proof.
  unfold generateGameResponse.
  apply (within_tryCatch _ _ 4 3500 0 0); [| intros; apply within_throw].
  apply (within_bind _ _ 4 3500 0 0); [apply within_text |].
  intros resp. destruct (truthy _); apply within_ret.
Qed.

Lemma within_generate prompt refImage : within 3 1500 (generate prompt refImage).
Proof.
  unfold generate.
  apply (within_bind _ _ 3 1500 0 0);
    [apply (within_callWithRetry _ 2 500) |].
  intros resp. destruct (imageData resp) as [b |]; [| apply within_throw].
  destruct (truthyStr b); [apply within_ret | apply within_throw].
Qed.

Lemma within_generateSceneImage vp style ke ref :
  within 6 3000 (generateSceneImage vp style ke ref).
Proof.
  unfold generateSceneImage.
  apply (within_tryCatch _ _ 3 1500 3 1500); [apply within_generate |].
  intros _. apply (within_tryCatch _ _ 3 1500 0 0); [apply within_generate |].
  intros _. apply within_ret.
Qed.

Lemma within_chooseImage s r key : within 6 3000 (chooseImage s r key).
Proof.
  unfold chooseImage.
  destruct (negb _).
  - destruct (cacheLookup _ _).
    + apply (within_mono _ 0 0); [| lia | lia].
      apply (within_bind _ _ 0 0 0 0); [apply within_setGameState |].
      intros _. apply within_ret.
    + apply (within_mono _ 0 0); [| lia | lia].
      apply (within_bind _ _ 0 0 0 0); [apply within_setGameState |].
      intros _. apply within_ret.
    + apply (within_bind _ _ 0 0 6 3000); [apply within_setGameState |].
      intros _. apply (within_bind _ _ 6 3000 0 0);
        [apply within_generateSceneImage | intros; apply within_ret].
  - destruct (match r_visualChanged r with Some true => true | _ => false end).
    + apply (within_tryCatch _ _ 6 3000 0 0); [| intros; apply within_ret].
      apply (within_bind _ _ 0 0 6 3000); [apply within_setGameState |].
      intros _. apply (within_bind _ _ 6 3000 0 0);
        [apply within_generateSceneImage | intros; apply within_ret].
    + apply (within_mono _ 0 0); [apply within_ret | lia | lia].
Qed.

Lemma within_handleAction `{CaseMapping} s a : within 10 6500 (handleAction s a).
Proof.
  unfold handleAction. destruct (rejected s a).
  { apply (within_mono _ 0 0); [apply within_ret | lia | lia]. }
  apply (within_bind _ _ 0 0 10 6500); [apply within_setGameState |].
  intros _. apply (within_tryCatch _ _ 10 6500 0 0);
    [| intros; apply within_setGameState].
  apply (within_bind _ _ 4 3500 6 3000); [apply within_generateGameResponse |].
  intros raw. apply (within_bind _ _ 0 0 6 3000); [apply within_typed |].
  intros r. unfold processReply.
  apply (within_bind _ _ 6 3000 0 0); [apply within_chooseImage |].
  intros img. apply within_setGameState.
Qed.

Lemma within_generateInitialGameWorld st :
  within 8 7000 (generateInitialGameWorld st).
Proof.
  unfold generateInitialGameWorld.
  apply (within_tryCatch _ _ 4 3500 4 3500).
  - unfold initAttemptPro.
    apply (within_bind _ _ 4 3500 0 0); [apply within_text |].
    intros resp. destruct (truthy _); [apply within_ret | apply within_throw].
  - intros _. apply (within_bind _ _ 4 3500 0 0).
    + unfold initAttemptFlash.
      apply (within_tryCatch _ _ 4 3500 0 0); [| intros; apply within_ret].
      apply (within_bind _ _ 4 3500 0 0); [apply within_text |].
      intros resp. destruct (truthy _); apply within_ret.
    + intros [r |]; apply within_ret.
Qed.

Lemma within_handleStartGame `{CaseMapping} st : within 14 10000 (handleStartGame st).
Proof.
  unfold handleStartGame. destruct (_ || _).
  { apply (within_mono _ 0 0); [apply within_ret | lia | lia]. }
  apply (within_tryCatch _ _ 14 10000 0 0); [| intros; apply within_alert].
  apply (within_bind _ _ 8 7000 6 3000); [apply within_generateInitialGameWorld |].
  intros raw. apply (within_bind _ _ 0 0 6 3000); [apply within_orThrow |].
  intros scene.
  apply (within_bind _ _ 6 3000 0 0); [apply within_generateSceneImage |].
  intros img. apply (within_bind _ _ 0 0 0 0); [apply within_orThrow |].
  intros _. apply (within_bind _ _ 0 0 0 0); [apply within_typed |].
  intros iw. apply (within_bind _ _ 0 0 0 0); [apply within_setGameState |].
  intros _. apply within_setIsGameStarted.
Qed.

(** Against a service that stays overloaded every retry is used up. *)
Lemma callWithRetry_overloaded req retries delay w :
  callWithRetry (generateContent req) retries delay (fun _ _ => inl busy) w
  = (Throw busy, {| store := store w; isGameStarted := isGameStarted w;
                    events := events w ++ schedule req delay retries |}).
Proof.
  revert delay w. induction retries as [| r IH]; intros delay w;
    rewrite callWithRetry_step; [reflexivity |].
  change (isTransient busy) with true. cbv iota. rewrite IH.
  cbn [logEvent store isGameStarted events schedule].
  by rewrite <- !app_assoc.
Qed.

(** X9.  Whatever the service does, a turn sends at most ten requests
    (four for the reply, three for each of the two image prompts) and
    spends at most 6.5 seconds waiting between retries.  The bound is
    reached: a service that is overloaded for the first three
    requests, answers the fourth with a new location and refuses every
    image request makes a turn cost exactly that.  A service that
    stays overloaded costs less: the turn gives up on the reply after
    four requests and 3.5 seconds, and ends in the soft failure. *)
Theorem turn_budget `{CaseMapping} (svc : Service) (log : list Event)
    (s : GameState) (action : list N) :
  (exists evs,
     events (snd (turn svc log s action)) = log ++ evs
     /\ calls evs <= 10 /\ (waited evs <= 6500)%N)
  /\ (exists evs,
        events (snd (@turn basicLatin
                       (congested 3 (replyText "Mina" "mina" "Llave")) []
                       inCave (js "ir a la mina"))) = evs
        /\ calls evs = 10 /\ waited evs = 6500%N)
  /\ (rejected s action = false ->
      exists evs,
        turn (fun _ _ => inl busy) log s action
        = (Ok tt, {| store := softFailure (optimisticUpdate action s);
                     isGameStarted := true; events := log ++ evs |})
        /\ calls evs = 4 /\ waited evs = 3500%N).
Proof.
  split; [| split].
  - exact (within_handleAction s action svc
             {| store := s; isGameStarted := true; events := log |}).
  - eexists. split; [reflexivity |]. split; vm_compute; reflexivity.
  - intros Hrej.
    set (req := TurnRequest action s (attachedImage (imageUrl s))).
    exists (schedule req 500 3).
    rewrite calls_schedule, waited_schedule.
    split; [| split; [reflexivity | reflexivity]].
    pose proof (handleAction_cases s action (fun _ _ => inl busy)
                  {| store := s; isGameStarted := true; events := log |} Hrej) as Hc.
    unfold generateGameResponse, tryCatch, bind in Hc.
    fold req in Hc. rewrite callWithRetry_overloaded in Hc.
    exact Hc.
Qed.

(** Witness of X9: looking around the cave while the service stays
    overloaded. *)
Lemma turn_budget_witness :
  rejected inCave (js "mirar") = false
  /\ exists evs,
       @turn basicLatin (fun _ _ => inl busy) [] inCave (js "mirar")
       = (Ok tt, {| store := softFailure (optimisticUpdate (js "mirar") inCave);
                    isGameStarted := true; events := evs |})
       /\ calls evs = 4 /\ waited evs = 3500%N.
Proof.
  assert (Hrej : rejected inCave (js "mirar") = false) by (vm_compute; reflexivity).
  split; [exact Hrej |].
  destruct (@turn_budget basicLatin svcDown [] inCave (js "mirar"))
    as (_ & _ & Hbusy).
  destruct (Hbusy Hrej) as (evs & Hrun & Hcalls & Hwait).
  exists evs. split; [exact Hrun |]. split; assumption.
Defined.

(** X10.  Whatever the service does, starting a session sends at most
    fourteen requests (four to each of the two models, three for each
    of the two image prompts) and spends at most ten seconds waiting
    between retries, and nothing at all when the location or the style
    of the form is empty; against a service that stays overloaded it
    costs exactly that, and the session starts all the same. *)
Theorem start_budget `{CaseMapping} (svc : Service) (log : list Event)
    (s0 : GameState) (newSettings : GameSettings) :
  (exists evs,
     events (snd (start svc log s0 newSettings)) = log ++ evs
     /\ calls evs <= 14 /\ (waited evs <= 10000)%N)
  /\ (startLocation newSettings = [] \/ artStyle newSettings = [] ->
      start svc log s0 newSettings
      = (Ok tt, {| store := s0; isGameStarted := false; events := log |}))
  /\ (exists w,
        @start basicLatin (fun _ _ => inl busy) [] blankState demoSettings = (Ok tt, w)
        /\ isGameStarted w = true
        /\ calls (events w) = 14 /\ waited (events w) = 10000%N).
Proof.
  split; [| split].
  - exact (within_handleStartGame newSettings svc
             {| store := s0; isGameStarted := false; events := log |}).
  - unfold start, handleStartGame. intros [-> | ->]; [reflexivity |].
    by rewrite orb_true_r.
  - eexists. split; [vm_compute; reflexivity |].
    split; [reflexivity |]. split; vm_compute; reflexivity.
Qed.

(** * Further properties of the session *)

(** ** What a turn leaves alone *)

Section Frame.
Context `{CaseMapping}.

(** The outcomes of a turn that passed the gate: the catch, a reply
    outside the declared types, or a commit. *)
Lemma turn_outcomes svc log s action :
  rejected s action = false ->
  exists evs,
    events (snd (turn svc log s action)) = log ++ evs
    /\ List.existsb isAlert evs = false
    /\ isGameStarted (snd (turn svc log s action)) = true
    /\ (store (snd (turn svc log s action)) = softFailure (optimisticUpdate action s)
        \/ (exists st, store (snd (turn svc log s action))
                       = withStatus st (optimisticUpdate action s))
        \/ exists r img,
             store (snd (turn svc log s action))
             = commit r (replyKey r) img (optimisticUpdate action s)).
Proof.
  intros Hrej. unfold turn.
  pose proof (handleAction_cases s action svc
                {| store := s; isGameStarted := true; events := log |} Hrej) as Hc.
  destruct (quiet_generateGameResponse action s (imageUrl s) svc
              (optimisticWorld action
                 {| store := s; isGameStarted := true; events := log |}))
    as (_ & Hst & Hflag & evs & Hev & Hna).
  destruct (generateGameResponse _ _ _ _ _) as [[raw | e |] w2];
    [| | contradiction]; cbn [fst snd] in *.
  - destruct (conform raw) as [r |].
    + destruct Hc as (img & w3 & Hchoose & ->). cbn [snd events store isGameStarted].
      destruct (chooseImage_returns s r (replyKey r) svc w2)
        as (img' & w3' & Hch & _ & _ & evs' & Hev' & Hna').
      rewrite Hchoose in Hch. injection Hch as <- <-.
      exists (evs ++ evs'). rewrite Hev', Hev, existsb_app, Hna, Hna'.
      cbn [optimisticWorld events]. rewrite app_assoc.
      repeat split. right. right. by exists r, img.
    + rewrite Hc. cbn [snd]. exists evs. rewrite Hev, Hflag, Hst.
      repeat split; [exact Hna |]. right. left.
      exists (Some Analizando). cbn [optimisticWorld store].
      symmetry. apply (withStatus_same (optimisticUpdate action s)).
  - rewrite Hc. cbn [snd events store isGameStarted].
    exists evs. rewrite Hev. repeat split; [exact Hna |]. by left.
Qed.

(** X11.  A turn never touches the settings and never leaves the
    game; it only appends to the log, and never an alert; it removes
    no entry from the cache of visited locations and changes at most
    one. *)
Theorem turn_frame (svc : Service) (log : list Event) (s : GameState)
    (action : list N) :
  let w := snd (turn svc log s action) in
  settings (store w) = settings s
  /\ isGameStarted w = true
  /\ (exists evs, events w = log ++ evs /\ List.existsb isAlert evs = false)
  /\ (forall key entry,
        knownLocations s !! key = Some entry ->
        is_Some (knownLocations (store w) !! key))
  /\ (exists key, forall k,
        k <> key -> knownLocations (store w) !! k = knownLocations s !! k).
Proof.
  intros w. subst w.
  destruct (rejected s action) eqn:Hrej.
  { unfold turn, handleAction. rewrite Hrej. cbn [ret snd store isGameStarted events].
    repeat split; [exists []; by rewrite app_nil_r | eauto | by exists []]. }
  destruct (turn_outcomes svc log s action Hrej)
    as (evs & Hev & Hna & Hflag & Hstore).
  assert (Hshape :
    settings (store (snd (turn svc log s action))) = settings s
    /\ exists key, forall k,
         k <> key ->
         knownLocations (store (snd (turn svc log s action))) !! k
         = knownLocations s !! k).
  { destruct Hstore as [-> | [[st ->] | (r & img & ->)]].
    - split; [reflexivity | by exists []].
    - split; [reflexivity | by exists []].
    - split; [reflexivity |]. exists (replyKey r). intros k Hk.
      cbn [commit knownLocations optimisticUpdate]. by rewrite lookup_insert_ne. }
  destruct Hshape as [Hset [key Hkey]].
  split; [exact Hset |]. split; [exact Hflag |].
  split; [by exists evs |]. split; [| by exists key].
  intros k entry Hk.
  destruct Hstore as [-> | [[st ->] | (r & img & ->)]]; [by eexists .. |].
  cbn [commit knownLocations optimisticUpdate].
  destruct (decide (replyKey r = k)) as [<- | Hne].
  - rewrite lookup_insert_eq. by eexists.
  - rewrite lookup_insert_ne by exact Hne. by eexists.
Qed.

End Frame.

(** ** A new session *)

Lemma blind_ret {A} (a : A) : blind (ret a).
Proof. by intros svc w w' He. Qed.

Lemma blind_throw {A} (e : ApiError) : blind (@throw A e).
Proof. by intros svc w w' He. Qed.

Lemma blind_sleep ms : blind (sleep ms).
Proof. intros svc w w' He. simpl. by rewrite He. Qed.

Lemma blind_generateContent r : blind (generateContent r).
Proof.
  intros svc w w' He. rewrite !generateContent_run. simpl. by rewrite He.
Qed.

Lemma blind_bind {A B} (m : Eff A) (k : A -> Eff B) :
  blind m -> (forall a, blind (k a)) -> blind (bind m k).
Proof.
  intros Hm Hk svc w w' He. unfold bind.
  destruct (Hm svc w w' He) as [Hr Hev].
  destruct (m svc w) as [[a | e |] w1], (m svc w') as [[a' | e' |] w1'];
    simpl in Hr, Hev; try discriminate; try (split; simpl; congruence).
  injection Hr as <-. by apply Hk.
Qed.

Lemma blind_tryCatch {A} (m : Eff A) (h : ApiError -> Eff A) :
  blind m -> (forall e, blind (h e)) -> blind (tryCatch m h).
Proof.
  intros Hm Hh svc w w' He. unfold tryCatch.
  destruct (Hm svc w w' He) as [Hr Hev].
  destruct (m svc w) as [[a | e |] w1], (m svc w') as [[a' | e' |] w1'];
    simpl in Hr, Hev; try discriminate; try (split; simpl; congruence).
  injection Hr as <-. by apply Hh.
Qed.

Lemma blind_callWithRetry {A} (fn : Eff A) retries delay :
  blind fn -> blind (callWithRetry fn retries delay).
Proof.
  intros Hfn. revert delay.
  induction retries as [| k IH]; intros delay; simpl.
  - apply blind_tryCatch; [exact Hfn | intros e; apply blind_throw].
  - apply blind_tryCatch; [exact Hfn |].
    intros e. destruct (isTransient e); [| apply blind_throw].
    apply blind_bind; [apply blind_sleep | intros _; apply IH].
Qed.

Lemma blind_generate prompt refImage : blind (generate prompt refImage).
Proof.
  unfold generate. apply blind_bind.
  - apply blind_callWithRetry, blind_generateContent.
  - intros resp. destruct (imageData resp) as [b |]; [| apply blind_throw].
    destruct (truthyStr b); [apply blind_ret | apply blind_throw].
Qed.

Lemma blind_generateSceneImage vp style ke ref :
  blind (generateSceneImage vp style ke ref).
Proof.
  unfold generateSceneImage.
  apply blind_tryCatch; [apply blind_generate |].
  intros _. apply blind_tryCatch; [apply blind_generate |].
  intros _. apply blind_ret.
Qed.

Lemma blind_generateInitialGameWorld st : blind (generateInitialGameWorld st).
Proof.
  unfold generateInitialGameWorld, initAttemptPro, initAttemptFlash, generateWithModel.
  apply blind_tryCatch.
  - apply blind_bind; [apply blind_callWithRetry, blind_generateContent |].
    intros resp. destruct (truthy _); [apply blind_ret | apply blind_throw].
  - intros _. apply blind_bind.
    + apply blind_tryCatch; [| intros; apply blind_ret].
      apply blind_bind; [apply blind_callWithRetry, blind_generateContent |].
      intros resp. destruct (truthy _); apply blind_ret.
    + intros [r |]; apply blind_ret.
Qed.

Section Start.
Context `{CaseMapping}.

(** A start that went through, run again from another state with the
    same log. *)
Lemma handleStartGame_blind st svc w w' r :
  startLocation st <> [] -> artStyle st <> [] ->
  events w = events w' ->
  isGameStarted w = false ->
  handleStartGame st svc w = (Ok tt, r) -> isGameStarted r = true ->
  handleStartGame st svc w' = (Ok tt, r).
Proof.
  intros Hloc Hart He Hoff Hrun Hflag.
  destruct (handleStartGame_cases st svc w Hloc Hart) as (raw & w1 & Hgen & Hc).
  destruct (handleStartGame_cases st svc w' Hloc Hart) as (raw' & w1' & Hgen' & Hc').
  destruct (blind_generateInitialGameWorld st svc w w' He) as [Hr Hev].
  rewrite Hgen, Hgen' in Hr, Hev. simpl in Hr, Hev. injection Hr as <-.
  destruct (conform raw) as [iw |];
    [| rewrite Hrun in Hc; simpl in Hc; congruence].
  destruct Hc as (img & w2 & Himg & Hc). destruct Hc' as (img' & w2' & Himg' & ->).
  destruct (blind_generateSceneImage (r_visualPrompt iw) (artStyle st)
              (r_keyElements iw) None svc w1 w1' Hev) as [Hr2 Hev2].
  rewrite Himg, Himg' in Hr2, Hev2. simpl in Hr2, Hev2. injection Hr2 as <-.
  rewrite Hrun in Hc. injection Hc as ->. by rewrite Hev2.
Qed.

(** X12.  A session that starts owes nothing to the state the store
    held before: started from two different states with the same log,
    [handleStartGame] installs the same state.  That state has one
    entry in its history, the narrative of the opening, one entry in
    its cache, the image on display under the key of the opening
    location, and no loading status. *)
Theorem start_is_fresh (svc : Service) (log : list Event)
    (s0 s0' : GameState) (newSettings : GameSettings) (w : World) :
  start svc log s0 newSettings = (Ok tt, w) ->
  isGameStarted w = true ->
  start svc log s0' newSettings = (Ok tt, w)
  /\ settings (store w) = newSettings
  /\ loadingStatus (store w) = None
  /\ (exists narrative, history (store w) = [ {| role := model; content := narrative |} ])
  /\ (exists key img,
        imageUrl (store w) = Some img
        /\ knownLocations (store w)
           = {[ key := {| vl_imageUrl := img;
                          vl_visualPrompt := visualDescription (store w) |} ]}
        /\ forall k, k <> key -> knownLocations (store w) !! k = None).
Proof.
  unfold start. intros Hrun Hflag.
  assert (Hguard : startLocation newSettings <> [] /\ artStyle newSettings <> []).
  { unfold handleStartGame in Hrun.
    destruct (startLocation newSettings), (artStyle newSettings);
      try (injection Hrun as <-; discriminate); by split. }
  destruct Hguard as [Hloc Hart].
  destruct (handleStartGame_cases newSettings svc
              {| store := s0; isGameStarted := false; events := log |} Hloc Hart)
    as (raw & w1 & Hgen & Hc).
  pose proof (handleStartGame_blind newSettings svc
                {| store := s0; isGameStarted := false; events := log |}
                {| store := s0'; isGameStarted := false; events := log |} w
                Hloc Hart eq_refl eq_refl Hrun Hflag) as Hsame.
  destruct (conform raw) as [iw |];
    [| rewrite Hrun in Hc; simpl in Hc; congruence].
  destruct Hc as (img & w2 & Himg & Hc). rewrite Hrun in Hc. injection Hc as ->.
  split; [exact Hsame |].
  cbn [store initialState settings loadingStatus history imageUrl knownLocations
       visualDescription].
  split; [reflexivity |]. split; [reflexivity |]. split; [by eexists |].
  eexists _, img. split; [reflexivity |]. split; [reflexivity |].
  intros k Hk. by apply lookup_singleton_ne.
Qed.

End Start.

(** Witness of X12: the same start over an empty store and over a
    session in the mine. *)
Lemma start_is_fresh_witness :
  @start basicLatin (replying "Cueva" "p" "Llave" (Some "CAVE"%string)) []
    inDarkMine demoSettings
  = (Ok tt, {| store := inCave; isGameStarted := true;
               events := eventsOf (@start basicLatin
                                     (replying "Cueva" "p" "Llave" (Some "CAVE"%string))
                                     [] blankState demoSettings) |}).
Proof.
  refine (proj1 (@start_is_fresh basicLatin
                   (replying "Cueva" "p" "Llave" (Some "CAVE"%string)) []
                   blankState inDarkMine demoSettings _ _ _));
    vm_compute; reflexivity.
Defined.

(** ** A reply without the expected fields *)

Lemma propOr_absent parsed k d : getProp parsed k = None -> propOr parsed k d = d.
Proof. unfold propOr. by intros ->. Qed.

Lemma conform_defaults parsed st :
  (forall k, In k replyFields -> getProp parsed k = None) ->
  conform (mapParsedResponse parsed st) = Some (defaultResponse st).
Proof.
  intros Hno. unfold mapParsedResponse.
  rewrite !propOr_absent by (apply Hno; unfold replyFields; simpl; tauto).
  reflexivity.
Qed.

Lemma decodeReply_blank resp :
  text resp = None \/ text resp = Some [] -> decodeReply resp = JObj [].
Proof. unfold decodeReply. intros [-> | ->]; vm_compute; reflexivity. Qed.

Section Defaults.
Context `{CaseMapping}.

(** X13.  A reply that decodes to a value with none of the expected
    fields is taken for a reply all the same, and every field gets its
    default: the turn commits the opening narrative, moves the player
    to the start location of the settings, and empties the inventory
    and the exits.  A reply with no text at all is such a reply, since
    it is read as the empty object; so are an array, a number that is
    not zero and [true]. *)
Theorem reply_without_fields_resets
    (s : GameState) (action : list N) (svc : Service) (log : list Event)
    (resp : ApiResponse) (w2 : World) :
  rejected s action = false ->
  callWithRetry
    (generateContent (TurnRequest action s (attachedImage (imageUrl s)))) 3 500 svc
    {| store := optimisticUpdate action s; isGameStarted := true; events := log |}
  = (Ok resp, w2) ->
  truthy (decodeReply resp) = true ->
  (forall k, In k replyFields -> getProp (decodeReply resp) k = None) ->
  (exists img w3,
     turn svc log s action = (Ok tt, w3)
     /\ store w3 = commit (defaultResponse (settings s))
                     (replyKey (defaultResponse (settings s))) img
                     (optimisticUpdate action s)
     /\ narrative (store w3) = js "Comienza la aventura..."
     /\ location (store w3) = orStr (startLocation (settings s)) (location s)
     /\ inventory (store w3) = []
     /\ availableExits (store w3) = []
     /\ visualDescription (store w3) = js "Scene of " ++ startLocation (settings s))
  /\ (forall r : ApiResponse,
        text r = None \/ text r = Some [] ->
        truthy (decodeReply r) = true
        /\ forall k, getProp (decodeReply r) k = None)
  /\ (forall (v : json) k,
        match v with JObj _ => False | _ => True end -> getProp v k = None).
Proof.
  intros Hrej Hcall Htruthy Hno.
  split; [| split].
  - pose proof (handleAction_cases s action svc
                  {| store := s; isGameStarted := true; events := log |} Hrej) as Hc.
    change (optimisticWorld action {| store := s; isGameStarted := true; events := log |})
      with {| store := optimisticUpdate action s; isGameStarted := true; events := log |}
      in Hc.
    assert (Hgen : generateGameResponse action s (imageUrl s) svc
                     {| store := optimisticUpdate action s; isGameStarted := true;
                        events := log |}
                   = (Ok (mapParsedResponse (decodeReply resp) (settings s)), w2)).
    { unfold generateGameResponse.
      erewrite tryCatch_ok; [reflexivity |].
      erewrite bind_ok by exact Hcall. by rewrite Htruthy. }
    rewrite Hgen, (conform_defaults _ _ Hno) in Hc.
    destruct Hc as (img & w3 & _ & Hrun).
    eexists img, _. split; [exact Hrun |]. cbn [store].
    split; [reflexivity |]. cbn [commit narrative location inventory availableExits
                                visualDescription defaultResponse r_narrative
                                r_location r_inventory r_availableExits
                                r_visualPrompt optimisticUpdate sanitizeInventory map].
    repeat split.
  - intros r Hr. rewrite (decodeReply_blank _ Hr). by split.
  - intros v k Hv. by destruct v.
Qed.

End Defaults.

(** Witness of X13: in the square, with a key in the pocket, the
    service answers with no text. *)
Lemma reply_without_fields_resets_witness :
  exists w3,
    @turn basicLatin (scripted (Some []) None) [] inPlaza (js "mirar") = (Ok tt, w3)
    /\ location inPlaza = js "Plaza"
    /\ location (store w3) = js "Bilbao, Casco Viejo"
    /\ inventory inPlaza <> []
    /\ inventory (store w3) = [].
Proof.
  destruct (@reply_without_fields_resets basicLatin inPlaza (js "mirar")
              (scripted (Some []) None) []
              {| text := Some []; imageData := None |}
              (logEvent (Call (TurnRequest (js "mirar") inPlaza
                                 (attachedImage (imageUrl inPlaza))))
                 {| store := @optimisticUpdate (js "mirar") inPlaza;
                    isGameStarted := true; events := [] |}))
    as ((img & w3 & Hrun & _ & _ & Hloc & Hinv & _) & _).
  - reflexivity.
  - vm_compute. reflexivity.
  - reflexivity.
  - intros k _. reflexivity.
  - exists w3. split; [exact Hrun |]. split; [vm_compute; reflexivity |].
    split; [rewrite Hloc; vm_compute; reflexivity |].
    split; [vm_compute; discriminate | exact Hinv].
Defined.

(** ** The images a session holds *)

Lemma rendered_nil : rendered [].
Proof. by left. Qed.

Lemma generateSceneImage_rendered vp style ke ref svc w img w' :
  generateSceneImage vp style ke ref svc w = (Ok img, w') -> rendered img.
Proof.
  unfold generateSceneImage, tryCatch.
  destruct (generate (FullPrompt style vp ke) ref svc w) as [[i | e |] w1] eqn:H1.
  - intros [= <- _]. right. eapply generate_shape, H1.
  - destruct (generate (SimplePrompt style vp) None svc w1) as [[i | e2 |] w2] eqn:H2.
    + intros [= <- _]. right. eapply generate_shape, H2.
    + intros [= <- _]. apply rendered_nil.
    + discriminate.
  - discriminate.
Qed.

Lemma chooseImage_rendered s r key svc w img w' :
  imagesRendered s ->
  chooseImage s r key svc w = (Ok img, w') ->
  forall i, img = Some i -> rendered i.
Proof.
  intros [Himg Hcache]. unfold chooseImage.
  destruct (negb _).
  - unfold cacheLookup.
    destruct (knownLocations s !! key) as [entry |] eqn:Hk.
    + intros [= <- _] i [= <-]. eapply Hcache, Hk.
    + destruct (bool_decide _).
      * intros [= <- _] i. discriminate.
      * unfold bind, setLoading, setGameState.
        destruct (generateSceneImage _ _ _ _ _ _) as [[i0 | e |] w1] eqn:Hg;
          [| discriminate ..].
        intros [= <- _] i [= <-]. eapply generateSceneImage_rendered, Hg.
  - destruct (match r_visualChanged r with Some true => true | _ => false end).
    + unfold tryCatch, bind, setLoading, setGameState.
      destruct (generateSceneImage _ _ _ _ _ _) as [[i0 | e |] w1] eqn:Hg.
      * intros [= <- _] i [= <-]. eapply generateSceneImage_rendered, Hg.
      * intros [= <- _]. exact Himg.
      * discriminate.
    + intros [= <- _]. exact Himg.
Qed.

Section Images.
Context `{CaseMapping}.

Lemma imagesRendered_commit r key img prev :
  imagesRendered prev ->
  (forall i, img = Some i -> rendered i) ->
  imagesRendered (commit r key img prev).
Proof.
  intros [Himg Hcache] Hnew. split; cbn [commit imageUrl knownLocations].
  - exact Hnew.
  - intros k entry. destruct (decide (key = k)) as [<- | Hne].
    + rewrite lookup_insert_eq. intros [= <-]. cbn [vl_imageUrl].
      destruct img as [i |]; [by apply Hnew | apply rendered_nil].
    + rewrite lookup_insert_ne by exact Hne. apply Hcache.
Qed.

Lemma reachable_imagesRendered s : Reachable s -> imagesRendered s.
Proof.
  induction 1 as [svc log s0 st w Hrun Hflag | svc log s a w Hreach IH Hrun].
  - unfold start in Hrun.
    assert (Hguard : startLocation st <> [] /\ artStyle st <> []).
    { unfold handleStartGame in Hrun.
      destruct (startLocation st), (artStyle st);
        try (injection Hrun as <-; discriminate); by split. }
    destruct Hguard as [Hloc Hart].
    destruct (handleStartGame_cases st svc
                {| store := s0; isGameStarted := false; events := log |} Hloc Hart)
      as (raw & w1 & Hgen & Hc).
    destruct (conform raw) as [iw |];
      [| rewrite Hrun in Hc; simpl in Hc; congruence].
    destruct Hc as (img & w2 & Himg & Hc). rewrite Hrun in Hc. injection Hc as ->.
    pose proof (generateSceneImage_rendered _ _ _ _ _ _ _ _ Himg) as Hr.
    split; cbn [store initialState imageUrl knownLocations].
    + by intros i [= <-].
    + intros k entry Hk. apply lookup_singleton_Some in Hk as [_ <-]. exact Hr.
  - destruct (rejected s a) eqn:Hrej.
    { unfold turn, handleAction in Hrun. rewrite Hrej in Hrun.
      by injection Hrun as <-. }
    pose proof (handleAction_cases s a svc
                  {| store := s; isGameStarted := true; events := log |} Hrej) as Hc.
    fold (turn svc log s a) in Hc. rewrite Hrun in Hc.
    destruct (generateGameResponse _ _ _ _ _) as [[raw | e |] w2];
      [| | contradiction].
    + destruct (conform raw) as [r |]; [| discriminate].
      destruct Hc as (img & w3 & Hchoose & [= ->]). cbn [store].
      apply imagesRendered_commit.
      * destruct IH as [Himg Hcache]. by split.
      * eapply chooseImage_rendered; [exact IH | exact Hchoose].
    + injection Hc as ->. cbn [store]. destruct IH as [Himg Hcache]. by split.
Qed.

(** X14.  Between turns the image on display and every image in the
    cache is either empty or a PNG data URL with a payload, as
    [generate] builds them; so the image part of the request of a
    turn, which [cleanBase64] makes, is the bare payload of the image
    on display, and there is none when the display is empty. *)
Theorem images_are_data_urls (s : GameState) :
  Reachable s ->
  imagesRendered s
  /\ match imageUrl s with
     | None | Some [] => attachedImage (imageUrl s) = None
     | Some i =>
       exists payload,
         payload <> [] /\ i = js "data:image/png;base64," ++ payload
         /\ attachedImage (imageUrl s) = Some payload
     end.
Proof.
  intros Hreach. pose proof (reachable_imagesRendered s Hreach) as Hr.
  split; [exact Hr |]. destruct Hr as [Himg _].
  destruct (imageUrl s) as [[| c i] |]; [reflexivity | | reflexivity].
  destruct (Himg _ eq_refl) as [Hnil | (payload & Hne & Hi)]; [discriminate |].
  exists payload. split; [exact Hne |]. split; [exact Hi |].
  unfold attachedImage. cbn [truthyStr]. rewrite Hi.
  fold pngPrefix. by rewrite cleanBase64_png.
Qed.

End Images.

(** Witness of X14: the session in the cave. *)
Lemma images_are_data_urls_witness :
  imagesRendered inCave
  /\ attachedImage (imageUrl inCave) = Some (js "CAVE").
Proof.
  destruct (@images_are_data_urls basicLatin inCave inCave_reachable) as [Hr Hatt].
  split; [exact Hr |]. vm_compute. reflexivity.
Defined.

(** ** Edges of the cache *)

Section CacheEdges.
Context `{CaseMapping}.

Lemma chooseImage_inherited s r key svc w :
  r_location r <> location s ->
  knownLocations s !! key = None ->
  key ∈ inheritedKeys ->
  chooseImage s r key svc w = (Ok None, statusWorld (Some Cargando) w).
Proof.
  intros Hloc Hk Hin. unfold chooseImage, cacheLookup.
  rewrite bool_decide_eq_false_2 by exact Hloc. cbn [negb].
  rewrite Hk, bool_decide_eq_true_2 by exact Hin. reflexivity.
Qed.

(** X15.  The cache is a plain object, so a key that names a member
    of [Object.prototype] is found in it before any location was
    stored under it.  A reply that moves the player to such a place
    for the first time is treated as a cache hit: no image is
    requested, the image on display becomes [undefined], and the
    place is stored with the empty image. *)
Theorem prototype_key_is_a_hit
    (s : GameState) (action : list N) (svc : Service) (log : list Event)
    (raw : RawResponse) (w2 : World) (r : GameResponse) :
  rejected s action = false ->
  generateGameResponse action s (imageUrl s) svc
    {| store := optimisticUpdate action s; isGameStarted := true; events := log |}
  = (Ok raw, w2) ->
  conform raw = Some r ->
  r_location r <> location s ->
  knownLocations s !! replyKey r = None ->
  replyKey r ∈ inheritedKeys ->
  exists w3,
    turn svc log s action = (Ok tt, w3)
    /\ events w3 = events w2
    /\ List.filter isImageCall (events w3) = List.filter isImageCall log
    /\ imageUrl (store w3) = None
    /\ location (store w3) = orStr (r_location r) (location s)
    /\ knownLocations (store w3) !! replyKey r
       = Some {| vl_imageUrl := []; vl_visualPrompt := r_visualPrompt r |}.
Proof.
  intros Hrej Hgen Hconf Hloc Hk Hin.
  pose proof (handleAction_cases s action svc
                {| store := s; isGameStarted := true; events := log |} Hrej) as Hc.
  change (optimisticWorld action {| store := s; isGameStarted := true; events := log |})
    with {| store := optimisticUpdate action s; isGameStarted := true; events := log |}
    in Hc.
  pose proof (generateGameResponse_no_image action s (imageUrl s) svc
                {| store := optimisticUpdate action s; isGameStarted := true;
                   events := log |}) as Hno.
  rewrite Hgen in Hc, Hno. rewrite Hconf in Hc.
  destruct Hc as (img & w3 & Hchoose & Hrun).
  rewrite (chooseImage_inherited _ _ _ _ _ Hloc Hk Hin) in Hchoose.
  injection Hchoose as <- <-.
  eexists. split; [exact Hrun |]. cbn [store events statusWorld].
  split; [reflexivity |]. split; [exact Hno |].
  split; [reflexivity |]. split; [reflexivity |].
  apply (commit_cache_entry r None).
Qed.

(** X16.  Whether the location changed is decided on the names as
    they are written, the cache on their keys.  So a reply that writes
    the current location in another way (other case, spaces around it)
    counts as a move to a place that is in the cache: the image on
    display is kept and no image is requested, even when the reply
    says that the scene changed. *)
Theorem respelled_location_keeps_image
    (s : GameState) (action : list N) (svc : Service) (log : list Event)
    (raw : RawResponse) (w2 : World) (r : GameResponse) :
  Reachable s ->
  rejected s action = false ->
  generateGameResponse action s (imageUrl s) svc
    {| store := optimisticUpdate action s; isGameStarted := true; events := log |}
  = (Ok raw, w2) ->
  conform raw = Some r ->
  r_location r <> location s ->
  r_location r <> [] ->
  normalizeLocKey (r_location r) = normalizeLocKey (location s) ->
  exists w3,
    turn svc log s action = (Ok tt, w3)
    /\ List.filter isImageCall (events w3) = List.filter isImageCall log
    /\ imageUrl (store w3) = Some (imageOrEmpty (imageUrl s))
    /\ location (store w3) = r_location r
    /\ visualDescription (store w3) = r_visualPrompt r.
Proof.
  intros Hreach Hrej Hgen Hconf Hloc Hne Hkey.
  destruct (reachable_consistent s Hreach) as (_ & _ & Hcache).
  assert (Hhit : knownLocations s !! replyKey r = Some (sceneEntry s)).
  { rewrite (replyKey_located r Hne), Hkey. exact Hcache. }
  destruct (turn_cache_hit s action svc log raw w2 r (sceneEntry s)
              Hrej Hgen Hconf Hloc Hhit) as (Hrun & Hno).
  eexists. split; [exact Hrun |]. cbn [store events].
  split; [exact Hno |]. split; [reflexivity |].
  split; [| reflexivity].
  cbn [commit location]. by apply orStr_truthy.
Qed.

End CacheEdges.

(** Witness of X15: the player walks from the cave to a place that
    the service calls Constructor. *)
Lemma prototype_key_is_a_hit_witness :
  exists w3,
    @turn basicLatin (replying "Constructor" "obra" "Llave" (Some "SITE"%string)) []
      inCave (js "ir a la obra") = (Ok tt, w3)
    /\ List.filter isImageCall (events w3) = []
    /\ imageUrl (store w3) = None
    /\ location (store w3) = js "Constructor".
Proof.
  assert (Hgen : exists raw w2,
             generateGameResponse (js "ir a la obra") inCave (imageUrl inCave)
               (replying "Constructor" "obra" "Llave" (Some "SITE"%string))
               {| store := @optimisticUpdate (js "ir a la obra") inCave;
                  isGameStarted := true; events := [] |} = (Ok raw, w2)
             /\ exists r,
                  conform raw = Some r
                  /\ r_location r = js "Constructor"
                  /\ @replyKey basicLatin r = js "constructor").
  { eexists _, _. split; [vm_compute; reflexivity |].
    eexists. split; [vm_compute; reflexivity |]. split; vm_compute; reflexivity. }
  destruct Hgen as (raw & w2 & Hgen & r & Hconf & Hloc & Hkey).
  destruct (@prototype_key_is_a_hit basicLatin inCave (js "ir a la obra")
              (replying "Constructor" "obra" "Llave" (Some "SITE"%string)) []
              raw w2 r eq_refl Hgen Hconf)
    as (w3 & Hrun & _ & Hno & Himg & Hl & _).
  - rewrite Hloc. vm_compute. discriminate.
  - rewrite Hkey. vm_compute. reflexivity.
  - rewrite Hkey. unfold inheritedKeys. apply list_elem_of_here.
  - exists w3. split; [exact Hrun |]. split; [exact Hno |].
    split; [exact Himg |]. rewrite Hl, Hloc. reflexivity.
Defined.

(** Witness of X16: in the cave, the service reports a change of the
    scene and writes the name of the cave in capitals. *)
Lemma respelled_location_keeps_image_witness :
  exists w3,
    @turn basicLatin (replying "CUEVA" "la roca se abre" "Llave" (Some "OPEN"%string)) []
      inCave (js "empujar la roca") = (Ok tt, w3)
    /\ List.filter isImageCall (events w3) = []
    /\ imageUrl (store w3) = imageUrl inCave.
Proof.
  assert (Hgen : exists raw w2,
             generateGameResponse (js "empujar la roca") inCave (imageUrl inCave)
               (replying "CUEVA" "la roca se abre" "Llave" (Some "OPEN"%string))
               {| store := @optimisticUpdate (js "empujar la roca") inCave;
                  isGameStarted := true; events := [] |} = (Ok raw, w2)
             /\ exists r, conform raw = Some r /\ r_location r = js "CUEVA").
  { eexists _, _. split; [vm_compute; reflexivity |].
    eexists. split; vm_compute; reflexivity. }
  destruct Hgen as (raw & w2 & Hgen & r & Hconf & Hloc).
  destruct (@respelled_location_keeps_image basicLatin inCave (js "empujar la roca")
              (replying "CUEVA" "la roca se abre" "Llave" (Some "OPEN"%string)) []
              raw w2 r inCave_reachable eq_refl Hgen Hconf)
    as (w3 & Hrun & Hno & Himg & _).
  - rewrite Hloc. vm_compute. discriminate.
  - rewrite Hloc. vm_compute. discriminate.
  - rewrite Hloc. vm_compute. reflexivity.
  - exists w3. split; [exact Hrun |]. split; [exact Hno |].
    rewrite Himg. vm_compute. reflexivity.
Defined.

(** * The flag of the reply *)

Lemma conform_visualChanged raw r :
  conform raw = Some r -> r_visualChanged r = Some (raw_visualChanged raw).
Proof.
  unfold conform.
  destruct (asString (raw_narrative raw)), (asString (raw_location raw)),
    (asString (raw_visualPrompt raw)), (asItems (raw_inventory raw)),
    (asStrings (raw_keyElements raw)), (asStrings (raw_availableExits raw));
    try discriminate.
  by intros [= <-].
Qed.

Lemma propOr_agree parsed parsed' k d :
  getProp parsed k = getProp parsed' k -> propOr parsed k d = propOr parsed' k d.
Proof. unfold propOr. by intros ->. Qed.

Section Flag.
Context `{CaseMapping}.

(** X27.  The service layer never reads the [visualChanged] of a
    reply: every reply that is decoded is mapped with the flag set,
    and two replies with the same six fields are mapped alike.  So a
    turn whose reply stays at the location always asks for a new
    image, whatever the reply says about a change. *)
Theorem visualChanged_is_ignored
    (s : GameState) (action : list N) (svc : Service) (log : list Event) :
  (forall parsed st, raw_visualChanged (mapParsedResponse parsed st) = true)
  /\ (forall parsed parsed' st,
        (forall k, In k replyFields -> getProp parsed k = getProp parsed' k) ->
        mapParsedResponse parsed st = mapParsedResponse parsed' st)
  /\ (forall resp w2 r,
        rejected s action = false ->
        callWithRetry
          (generateContent (TurnRequest action s (attachedImage (imageUrl s)))) 3 500
          svc {| store := optimisticUpdate action s; isGameStarted := true;
                 events := log |} = (Ok resp, w2) ->
        truthy (decodeReply resp) = true ->
        conform (mapParsedResponse (decodeReply resp) (settings s)) = Some r ->
        r_location r = location s ->
        exists w3 evs,
          turn svc log s action = (Ok tt, w3)
          /\ events w3
             = events w2
               ++ Call (ImageRequest
                          (FullPrompt (artStyle (settings s)) (r_visualPrompt r)
                                      (r_keyElements r))
                          (attachedImage (imageOrUndefined (imageUrl s)))) :: evs).
Proof.
  split; [reflexivity |]. split.
  - intros parsed parsed' st Hsame. unfold mapParsedResponse.
    rewrite (propOr_agree parsed parsed' (js "narrative")),
      (propOr_agree parsed parsed' (js "location")),
      (propOr_agree parsed parsed' (js "visualPrompt")),
      (propOr_agree parsed parsed' (js "inventory")),
      (propOr_agree parsed parsed' (js "keyElements")),
      (propOr_agree parsed parsed' (js "availableExits"));
      try reflexivity; apply Hsame; unfold replyFields; simpl; tauto.
  - intros resp w2 r Hrej Hcall Htruthy Hconf Hstay.
    pose proof (handleAction_cases s action svc
                  {| store := s; isGameStarted := true; events := log |} Hrej) as Hc.
    change (optimisticWorld action {| store := s; isGameStarted := true; events := log |})
      with {| store := optimisticUpdate action s; isGameStarted := true; events := log |}
      in Hc.
    assert (Hgen : generateGameResponse action s (imageUrl s) svc
                     {| store := optimisticUpdate action s; isGameStarted := true;
                        events := log |}
                   = (Ok (mapParsedResponse (decodeReply resp) (settings s)), w2)).
    { unfold generateGameResponse.
      erewrite tryCatch_ok; [reflexivity |].
      erewrite bind_ok by exact Hcall. by rewrite Htruthy. }
    rewrite Hgen, Hconf in Hc. destruct Hc as (img & w3 & Hchoose & Hrun).
    pose proof (conform_visualChanged _ _ Hconf) as Hvis. cbn in Hvis.
    destruct (generateSceneImage_first_call (r_visualPrompt r)
                (artStyle (settings s)) (r_keyElements r)
                (imageOrUndefined (imageUrl s)) svc
                (statusWorld (Some Actualizando) w2)) as (evs & He).
    destruct (generateSceneImage_returns (r_visualPrompt r)
                (artStyle (settings s)) (r_keyElements r)
                (imageOrUndefined (imageUrl s)) svc
                (statusWorld (Some Actualizando) w2)) as (img' & w' & Hg & _).
    rewrite (chooseImage_edit _ _ _ _ _ _ _ Hstay Hvis Hg) in Hchoose.
    injection Hchoose as <- <-. rewrite Hg in He. simpl in He.
    eexists _, evs. split; [exact Hrun |]. exact He.
Qed.

End Flag.

(** Witness of X27: in the cave the service says in its reply that
    nothing visible changed; the image is requested again. *)
Lemma visualChanged_is_ignored_witness :
  exists w3 evs,
    @turn basicLatin (scripted (Some nothingChanged) (Some (js "AGAIN"))) []
      inCave (js "mirar") = (Ok tt, w3)
    /\ List.filter isImageCall (events w3)
       = Call (ImageRequest (FullPrompt (js "Pixel Art") (js "p") []) (Some (js "CAVE")))
         :: evs
    /\ imageUrl (store w3) = Some (js "data:image/png;base64,AGAIN").
Proof.
  destruct (@visualChanged_is_ignored basicLatin inCave (js "mirar")
              (scripted (Some nothingChanged) (Some (js "AGAIN"))) [])
    as (_ & _ & Hturn).
  destruct (Hturn {| text := Some nothingChanged; imageData := None |}
              (logEvent (Call (TurnRequest (js "mirar") inCave
                                 (attachedImage (imageUrl inCave))))
                 {| store := @optimisticUpdate (js "mirar") inCave;
                    isGameStarted := true; events := [] |})
              {| r_narrative := js "Nada cambia."; r_location := js "Cueva";
                 r_visualPrompt := js "p"; r_inventory := []; r_keyElements := [];
                 r_availableExits := []; r_visualChanged := Some true |})
    as (w3 & evs & Hrun & Hev); try (vm_compute; reflexivity).
  exists w3, (List.filter isImageCall evs). split; [exact Hrun |].
  split.
  - rewrite Hev. vm_compute. reflexivity.
  - revert Hrun. vm_compute. by intros [= <-].
Defined.

(** * Between turns *)

Section Idle.
Context `{CaseMapping}.

Lemma reachable_idle s : Reachable s -> loadingStatus s = None.
Proof.
  induction 1 as [svc log s0 st w Hrun Hflag | svc log s a w Hreach IH Hrun].
  - unfold start in Hrun.
    assert (Hguard : startLocation st <> [] /\ artStyle st <> []).
    { unfold handleStartGame in Hrun.
      destruct (startLocation st), (artStyle st);
        try (injection Hrun as <-; discriminate); by split. }
    destruct Hguard as [Hloc Hart].
    destruct (handleStartGame_cases st svc
                {| store := s0; isGameStarted := false; events := log |} Hloc Hart)
      as (raw & w1 & Hgen & Hc).
    destruct (conform raw) as [iw |];
      [| rewrite Hrun in Hc; simpl in Hc; congruence].
    destruct Hc as (img & w2 & Himg & Hc). rewrite Hrun in Hc. by injection Hc as ->.
  - destruct (rejected s a) eqn:Hrej.
    { unfold turn, handleAction in Hrun. rewrite Hrej in Hrun.
      by injection Hrun as <-. }
    pose proof (handleAction_cases s a svc
                  {| store := s; isGameStarted := true; events := log |} Hrej) as Hc.
    fold (turn svc log s a) in Hc. rewrite Hrun in Hc.
    destruct (generateGameResponse _ _ _ _ _) as [[raw | e |] w2];
      [| | contradiction].
    + destruct (conform raw) as [r |]; [| discriminate].
      by destruct Hc as (img & w3 & Hchoose & [= ->]).
    + by injection Hc as ->.
Qed.

(** X28.  Between turns a session is never busy: no state that a
    start or a turn leaves has a loading status.  So the only action
    the gate of [handleAction] turns down there is a blank one, and
    the game screen shows no loading overlay, the exits of the last
    reply, the tooltip of the item under the pointer, and the words
    NO SIGNAL exactly when there is no image to show. *)
Theorem session_is_idle_between_turns
    (s : GameState) (hovered : option InventoryItem) :
  Reachable s ->
  loadingStatus s = None
  /\ (forall action, rejected s action = negb (truthyStr (trim action)))
  /\ Screen.overlay (Screen.screenOf s hovered) = None
  /\ Screen.exits (Screen.screenOf s hovered) = availableExits s
  /\ Screen.tooltip (Screen.screenOf s hovered) = hovered
  /\ Screen.noSignal (Screen.screenOf s hovered)
     = negb (truthyStr (imageOrEmpty (imageUrl s)))
  /\ Screen.image (Screen.screenOf s hovered)
     = (if truthyStr (imageOrEmpty (imageUrl s)) then imageUrl s else None).
Proof.
  intros Hreach. pose proof (reachable_idle s Hreach) as Hidle.
  split; [exact Hidle |]. split.
  { intros action. unfold rejected. by rewrite Hidle. }
  unfold Screen.screenOf, Screen.GameScreen. rewrite Hidle.
  cbn [fmap option_fmap option_map Screen.overlay Screen.exits Screen.tooltip
       Screen.noSignal Screen.image].
  split; [reflexivity |]. split.
  { rewrite andb_true_r. by destruct (availableExits s). }
  split; [reflexivity |]. split.
  - rewrite andb_true_r. by destruct (imageUrl s).
  - by destruct (imageUrl s) as [[| c i] |].
Qed.

End Idle.

(** Witness of X28: the mine that could not be rendered. *)
Lemma session_is_idle_between_turns_witness :
  Screen.noSignal (Screen.screenOf inDarkMine None) = true
  /\ Screen.overlay (Screen.screenOf inDarkMine None) = None
  /\ @rejected inDarkMine (js "  ") = true
  /\ @rejected inDarkMine (js "mirar") = false.
Proof.
  destruct (@session_is_idle_between_turns basicLatin inDarkMine None
              inDarkMine_reachable) as (_ & Hrej & Hov & _ & _ & Hno & _).
  split; [rewrite Hno; vm_compute; reflexivity |].
  split; [exact Hov |].
  split; rewrite Hrej; vm_compute; reflexivity.
Defined.

(** * Further properties of the sanitizer and the cache key *)

(** ** White space around a name *)

Lemma trimStart_pad (pre s : list N) :
  forallb isWhiteSpace pre = true -> trimStart (pre ++ s) = trimStart s.
Proof. apply dropWhile_app_all. Qed.

Lemma trimEnd_pad (s post : list N) :
  forallb isWhiteSpace post = true -> trimEnd (s ++ post) = trimEnd s.
Proof.
  intros Hp. unfold trimEnd. rewrite rev_app_distr.
  rewrite dropWhile_app_all; [reflexivity |]. by rewrite forallb_rev.
Qed.

Lemma nonblank_split (s : list N) :
  forallb isWhiteSpace s = false ->
  exists a c b, s = a ++ c :: b /\ isWhiteSpace c = false.
Proof.
  induction s as [| d s IH]; [discriminate |]. simpl.
  destruct (isWhiteSpace d) eqn:Hd.
  - intros Hs. destruct (IH Hs) as (a & c & b & -> & Hc).
    by exists (d :: a), c, b.
  - intros _. by exists [], d, s.
Qed.

Lemma trim_pad (pre s post : list N) :
  forallb isWhiteSpace pre = true -> forallb isWhiteSpace post = true ->
  trim (pre ++ s ++ post) = trim s.
Proof.
  intros Hpre Hpost.
  destruct (forallb isWhiteSpace s) eqn:Hs.
  - rewrite (trim_blank s Hs). apply trim_blank.
    by rewrite !forallb_app, Hpre, Hs, Hpost.
  - destruct (nonblank_split s Hs) as (a & c & b & -> & Hc).
    unfold trim. rewrite app_assoc, (trimEnd_pad _ _ Hpost).
    rewrite app_assoc, !(trimEnd_keep _ _ _ Hc), <- app_assoc.
    apply (trimStart_pad _ _ Hpre).
Qed.

Lemma trimStart_idem (s : list N) : trimStart (trimStart s) = trimStart s.
Proof.
  unfold trimStart. induction s as [| c s IH]; [reflexivity |]. simpl.
  destruct (isWhiteSpace c) eqn:Hc; [exact IH |]. simpl. by rewrite Hc.
Qed.

Lemma trim_split (a b : list N) c :
  isWhiteSpace c = false -> trim (a ++ c :: b) = trimStart a ++ c :: trimEnd b.
Proof.
  intros Hc. unfold trim. by rewrite (trimEnd_keep _ _ _ Hc), (trimStart_keep _ _ _ Hc).
Qed.

Lemma trim_idem (s : list N) : trim (trim s) = trim s.
Proof.
  destruct (forallb isWhiteSpace s) eqn:Hs.
  - by rewrite (trim_blank s Hs).
  - destruct (nonblank_split s Hs) as (a & c & b & -> & Hc).
    rewrite !(trim_split _ _ _ Hc), trimStart_idem. do 2 f_equal.
    unfold trimEnd. rewrite rev_involutive. f_equal. apply trimStart_idem.
Qed.

Section Keys.
Context `{CaseMapping}.

(** X17.  The cache key of a location ignores the white space around
    its name, whatever the case mapping of the platform: a name and
    the same name with spaces, tabs or line breaks before and after it
    have one key, which is the key of the trimmed name.  A reply whose
    location is white space only is not read as no location: its key
    is the key of the empty name, not the key of [unknown]. *)
Theorem normalizeLocKey_ignores_padding (pre loc post : list N) :
  forallb isWhiteSpace pre = true ->
  forallb isWhiteSpace post = true ->
  normalizeLocKey (pre ++ loc ++ post) = normalizeLocKey loc
  /\ normalizeLocKey (trim loc) = normalizeLocKey loc
  /\ (forall r, r_location r = pre ++ post -> pre ++ post <> [] ->
        replyKey r = normalizeLocKey []).
Proof.
  intros Hpre Hpost. unfold normalizeLocKey.
  split; [by rewrite trim_pad |]. split; [by rewrite trim_idem |].
  intros r Hr Hne. unfold replyKey, normalizeLocKey.
  rewrite Hr, (orStr_truthy _ _ Hne).
  f_equal. apply trim_blank. by rewrite forallb_app, Hpre, Hpost.
Qed.

End Keys.

(** Witness of X17: the cave, padded. *)
Lemma normalizeLocKey_ignores_padding_witness :
  @normalizeLocKey basicLatin (js "  " ++ js "Cueva" ++ js " 
") = @normalizeLocKey basicLatin (js "Cueva").
Proof.
  exact (proj1 (@normalizeLocKey_ignores_padding basicLatin (js "  ") (js "Cueva") (js " 
") eq_refl eq_refl)).
Defined.

(** ** White space inside a sanitized name *)

Lemma takeWhile_dropWhile (p : N -> bool) (s : list N) :
  s = takeWhile p s ++ dropWhile p s.
Proof.
  induction s as [| c s IH]; [reflexivity |]. simpl.
  destruct (p c); [simpl; by f_equal | reflexivity].
Qed.

Lemma drop_takeWhile (p : N -> bool) (s : list N) :
  drop (length (takeWhile p s)) s = dropWhile p s.
Proof.
  induction s as [| c s IH]; [reflexivity |]. simpl.
  destruct (p c); [exact IH | reflexivity].
Qed.

Lemma startsClean_dropWhile (s : list N) : startsClean (dropWhile isWhiteSpace s) = true.
Proof.
  destruct (dropWhile isWhiteSpace s) as [| c r] eqn:E; [reflexivity |].
  simpl. by rewrite (dropWhile_head _ _ _ _ E).
Qed.

(** After [k] units that are skipped the scan is at a unit that is not
    white space. *)
Lemma spaced_collapse (s : list N) :
  (forall prev, spaced (replaceAllFrom reSpaces [32%N] prev 0 s) = true)
  /\ (forall prev k,
        startsClean (drop k s) = true ->
        spaced (replaceAllFrom reSpaces [32%N] prev k s) = true
        /\ startsClean (replaceAllFrom reSpaces [32%N] prev k s) = true).
Proof.
  induction s as [| c r [IHa IHb]]; [by split; [| intros ? []] |].
  assert (Hclean : forall prev,
             isWhiteSpace c = false ->
             spaced (replaceAllFrom reSpaces [32%N] prev 0 (c :: r)) = true
             /\ startsClean (replaceAllFrom reSpaces [32%N] prev 0 (c :: r)) = true).
  { intros prev Hc. cbn [replaceAllFrom]. unfold reSpaces. cbn [takeWhile].
    rewrite Hc. cbn [spaced startsClean]. rewrite Hc, IHa. by split. }
  split.
  - intros prev. destruct (isWhiteSpace c) eqn:Hc; [| by apply Hclean].
    cbn [replaceAllFrom]. unfold reSpaces at 1. cbn [takeWhile length]. rewrite Hc.
    cbn [length app spaced].
    destruct (IHb (Some c) (length (takeWhile isWhiteSpace r))) as [Hs Hst].
    { rewrite drop_takeWhile. apply startsClean_dropWhile. }
    rewrite Hs, Hst. reflexivity.
  - intros prev [| k] Hk.
    + cbn [drop] in Hk. apply Hclean. cbn [startsClean] in Hk.
      by apply negb_true_iff.
    + cbn [replaceAllFrom]. apply IHb. exact Hk.
Qed.

Lemma spaced_replaceAll (s : list N) : spaced (replaceAll reSpaces (js " ") s) = true.
Proof. exact (proj1 (spaced_collapse s) None). Qed.

Lemma spaced_app_inv (a b : list N) :
  spaced (a ++ b) = true -> spaced a = true /\ spaced b = true.
Proof.
  induction a as [| c a IH]; [by split |]. cbn [app spaced].
  intros Hs. apply andb_prop in Hs as [Hc Hs]. destruct (IH Hs) as [Ha Hb].
  split; [| exact Hb]. rewrite Ha, andb_true_r.
  destruct (isWhiteSpace c); [| reflexivity]. simpl in *.
  apply andb_prop in Hc as [-> Hc]. simpl. by destruct a.
Qed.

Lemma spaced_app (a b : list N) :
  spaced a = true -> spaced b = true -> startsClean b = true ->
  spaced (a ++ b) = true.
Proof.
  intros Ha Hb Hst. induction a as [| c a IH]; [exact Hb |].
  cbn [app spaced] in *. apply andb_prop in Ha as [Hc Ha].
  rewrite (IH Ha), andb_true_r.
  destruct (isWhiteSpace c); [| reflexivity]. simpl in *.
  apply andb_prop in Hc as [-> Hc]. simpl. destruct a; [exact Hst | exact Hc].
Qed.

Lemma spaced_clean (u : list N) :
  forallb (fun d => negb (isWhiteSpace d)) u = true -> spaced u = true.
Proof.
  induction u as [| c u IH]; [reflexivity |]. simpl.
  intros Hu. apply andb_prop in Hu as [-> Hu]. simpl. auto.
Qed.

Lemma trim_inside (s : list N) : exists pre post, s = pre ++ trim s ++ post.
Proof.
  destruct (forallb isWhiteSpace s) eqn:Hs.
  - exists s, []. by rewrite (trim_blank s Hs), app_nil_r.
  - destruct (nonblank_split s Hs) as (a & c & b & -> & Hc).
    rewrite (trim_split _ _ _ Hc).
    exists (takeWhile isWhiteSpace a), (rev (takeWhile isWhiteSpace (rev b))).
    unfold trimStart, trimEnd. rewrite <- !app_assoc, <- app_comm_cons.
    rewrite <- rev_app_distr, <- takeWhile_dropWhile, rev_involutive.
    by rewrite app_assoc, <- takeWhile_dropWhile.
Qed.

Lemma startsClean_trim (s : list N) : startsClean (trim s) = true.
Proof. apply startsClean_dropWhile. Qed.

Lemma endsClean_trim (s : list N) : endsClean (trim s) = true.
Proof.
  unfold endsClean.
  destruct (forallb isWhiteSpace s) eqn:Hs; [by rewrite (trim_blank s Hs) |].
  destruct (nonblank_split s Hs) as (a & c & b & -> & Hc).
  rewrite (trim_split _ _ _ Hc), rev_app_distr. cbn [rev].
  unfold trimEnd. rewrite rev_involutive, <- app_assoc.
  destruct (dropWhile isWhiteSpace (rev b)) as [| d t] eqn:E.
  - simpl. by rewrite Hc.
  - simpl. by rewrite (dropWhile_head _ _ _ _ E).
Qed.

Lemma spaced_trim (s : list N) : spaced s = true -> spaced (trim s) = true.
Proof.
  intros Hs. destruct (trim_inside s) as (pre & post & E). rewrite E in Hs.
  apply spaced_app_inv in Hs as [_ Hs]. by apply spaced_app_inv in Hs as [Hs _].
Qed.

Lemma endsClean_app (a b : list N) :
  b <> [] -> endsClean b = true -> endsClean (a ++ b) = true.
Proof.
  unfold endsClean. rewrite rev_app_distr. intros Hne Hb.
  destruct (rev b) as [| c r] eqn:E; [| exact Hb].
  apply (f_equal (@rev N)) in E. rewrite rev_involutive in E. by subst b.
Qed.

Lemma spaced_clean_app (u b : list N) :
  forallb (fun d => negb (isWhiteSpace d)) u = true -> spaced b = true ->
  spaced (u ++ b) = true.
Proof.
  intros Hu Hb. induction u as [| c u IH]; [exact Hb |]. simpl in *.
  apply andb_prop in Hu as [-> Hu]. simpl. auto.
Qed.

Lemma endsClean_clean (u : list N) :
  forallb (fun d => negb (isWhiteSpace d)) u = true -> endsClean u = true.
Proof.
  intros Hu. unfold endsClean. rewrite <- forallb_rev in Hu.
  destruct (rev u) as [| c r]; [reflexivity |]. simpl in *.
  by apply andb_prop in Hu as [-> _].
Qed.

Lemma endsClean_cons c (r : list N) :
  r <> [] -> endsClean (c :: r) = endsClean r.
Proof.
  intros Hne. unfold endsClean. cbn [rev].
  destruct (rev r) as [| d t] eqn:E; [| reflexivity].
  apply (f_equal (@rev N)) in E. rewrite rev_involutive in E. by subst r.
Qed.

Section Tidy.
Context `{CaseMapping}.

Lemma cleanChain_tidy (n : list N) :
  spaced (cleanChain n) = true
  /\ startsClean (cleanChain n) = true
  /\ endsClean (cleanChain n) = true.
Proof.
  unfold cleanChain.
  split; [apply spaced_trim, spaced_replaceAll |].
  split; [apply startsClean_trim | apply endsClean_trim].
Qed.

Lemma truncateName_tidy (x : list N) :
  spaced x = true -> endsClean x = true ->
  spaced (truncateName x) = true /\ endsClean (truncateName x) = true.
Proof.
  intros Hsp Hen. unfold truncateName. destruct (22 <? length x); [| by split].
  unfold substring. cbn [Nat.min Nat.max Nat.sub drop].
  rewrite <- (take_drop 20 x) in Hsp. apply spaced_app_inv in Hsp as [Hsp _].
  split.
  - apply spaced_app; [exact Hsp | reflexivity | reflexivity].
  - apply endsClean_app; [discriminate | reflexivity].
Qed.

Lemma capitalize_tidy (x : list N) :
  (forall c, isWhiteSpace c = false ->
     forallb (fun d => negb (isWhiteSpace d)) (toUpperCase [c]) = true) ->
  spaced x = true -> startsClean x = true -> endsClean x = true ->
  spaced (capitalize x) = true /\ endsClean (capitalize x) = true.
Proof.
  intros Hup Hsp Hst Hen. unfold capitalize.
  destruct x as [| c r]; [by split |].
  cbn [length Nat.ltb Nat.leb charAt0 slice1 take drop].
  cbn [startsClean] in Hst. apply negb_true_iff in Hst.
  pose proof (Hup c Hst) as Hu.
  cbn [spaced] in Hsp. apply andb_prop in Hsp as [_ Hr].
  split; [by apply spaced_clean_app |].
  destruct r as [| d r'].
  - rewrite app_nil_r. by apply endsClean_clean.
  - apply endsClean_app; [discriminate |].
    rewrite (endsClean_cons c (d :: r')) in Hen by discriminate. exact Hen.
Qed.

(** X18.  The name the sanitizer works out has its white space in
    order: the chain of replacements leaves no white space but single
    spaces (U+0020) between other units, none at the start and none at
    the end; and on a platform whose upper-case mapping never makes
    white space out of another unit, the name that is displayed has
    only such single spaces inside and never ends in white space,
    cut or not. *)
Theorem sanitizeName_spacing (n : list N) :
  (spaced (cleanChain n) = true
   /\ startsClean (cleanChain n) = true
   /\ endsClean (cleanChain n) = true)
  /\ ((forall c, isWhiteSpace c = false ->
       forallb (fun d => negb (isWhiteSpace d)) (toUpperCase [c]) = true) ->
      spaced (sanitizeName n) = true /\ endsClean (sanitizeName n) = true).
Proof.
  split; [apply cleanChain_tidy |].
  intros Hup. destruct (cleanChain_tidy n) as (Hsp & Hst & Hen).
  destruct (capitalize_tidy _ Hup Hsp Hst Hen) as [Hsp' Hen'].
  destruct (truncateName_tidy _ Hsp' Hen') as [Hsp'' Hen''].
  unfold sanitizeName, fallbackName.
  destruct (truthyStr _); [by split | by vm_compute].
Qed.

End Tidy.

Lemma basicLatin_upper_clean (c : N) :
  isWhiteSpace c = false ->
  forallb (fun d => negb (isWhiteSpace d)) (@toUpperCase basicLatin [c]) = true.
Proof.
  intros Hc. cbn [toUpperCase basicLatin map forallb]. rewrite andb_true_r.
  unfold upperBasicLatin, isLowerAZ.
  destruct ((97 <=? c)%N && (c <=? 122)%N) eqn:E; [| by rewrite Hc].
  apply andb_prop in E as [E1 E2]. apply N.leb_le in E1, E2.
  apply negb_true_iff. unfold isWhiteSpace.
  repeat match goal with
         | |- context [(?a =? ?b)%N] =>
           destruct (N.eqb_spec a b) as [Heq | _]; [lia |]
         end.
  destruct (N.leb_spec 8192 (c - 32)); [lia | reflexivity].
Qed.

(** Witness of X18: a name with tabs, runs of spaces and underscores. *)
Lemma sanitizeName_spacing_witness :
  spaced (@sanitizeName basicLatin (js "  llave_de  la	torre  ")) = true
  /\ @sanitizeName basicLatin (js "  llave_de  la	torre  ") = js "Llave de la torre".
Proof.
  split; [| vm_compute; reflexivity].
  exact (proj1 (proj2 (@sanitizeName_spacing basicLatin (js "  llave_de  la	torre  "))
                  basicLatin_upper_clean)).
Defined.

(** ** Descriptions *)

Section Descriptions.
Context `{CaseMapping}.

Lemma sanitizeItem_described (i : InventoryItem) : described (sanitizeItem i).
Proof.
  unfold described, sanitizeItem. cbn [description].
  destruct (description i) as [[| c d] |]; eexists; split;
    try reflexivity; discriminate.
Qed.

Lemma sanitizeInventory_described (items : list InventoryItem) :
  Forall described (sanitizeInventory items).
Proof.
  unfold sanitizeInventory.
  induction items as [| i items IH]; constructor;
    [apply sanitizeItem_described | exact IH].
Qed.

Lemma reachable_described s : Reachable s -> Forall described (inventory s).
Proof.
  induction 1 as [svc log s0 st w Hrun Hflag | svc log s a w Hreach IH Hrun].
  - unfold start in Hrun.
    assert (Hguard : startLocation st <> [] /\ artStyle st <> []).
    { unfold handleStartGame in Hrun.
      destruct (startLocation st), (artStyle st);
        try (injection Hrun as <-; discriminate); by split. }
    destruct Hguard as [Hloc Hart].
    destruct (handleStartGame_cases st svc
                {| store := s0; isGameStarted := false; events := log |} Hloc Hart)
      as (raw & w1 & Hgen & Hc).
    destruct (conform raw) as [iw |];
      [| rewrite Hrun in Hc; simpl in Hc; congruence].
    destruct Hc as (img & w2 & Himg & Hc). rewrite Hrun in Hc. injection Hc as ->.
    apply sanitizeInventory_described.
  - destruct (rejected s a) eqn:Hrej.
    { unfold turn, handleAction in Hrun. rewrite Hrej in Hrun.
      by injection Hrun as <-. }
    pose proof (handleAction_cases s a svc
                  {| store := s; isGameStarted := true; events := log |} Hrej) as Hc.
    fold (turn svc log s a) in Hc. rewrite Hrun in Hc.
    destruct (generateGameResponse _ _ _ _ _) as [[raw | e |] w2];
      [| | contradiction].
    + destruct (conform raw) as [r |]; [| discriminate].
      destruct Hc as (img & w3 & Hchoose & [= ->]).
      apply sanitizeInventory_described.
    + injection Hc as ->. exact IH.
Qed.

(** X19.  Between turns every item of the inventory has a description
    to show in its tooltip: the sanitizer keeps a description that is
    not empty as it is and puts the placeholder where there is none,
    item by item and in the order of the reply, and every state of a
    session went through it. *)
Theorem inventory_is_described (s : GameState) :
  Reachable s ->
  Forall described (inventory s)
  /\ (forall items : list InventoryItem,
        length (sanitizeInventory items) = length items
        /\ Forall2 (fun i o =>
                      name o = sanitizeName (name i)
                      /\ (described i -> description o = description i)
                      /\ (~ described i -> description o = Some placeholderDescription))
                   items (sanitizeInventory items)).
Proof.
  intros Hreach. split; [by apply reachable_described |].
  intros items. unfold sanitizeInventory. split; [apply length_map |].
  induction items as [| i items IH]; [constructor |].
  cbn [map]. constructor; [| exact IH].
  split; [reflexivity |]. unfold described, sanitizeItem. cbn [description].
  split.
  - intros (d & -> & Hd). by destruct d.
  - intros Hno. destruct (description i) as [[| c d] |]; try reflexivity.
    exfalso. apply Hno. by eexists.
Qed.

End Descriptions.

(** Witness of X19: the session in the cave. *)
Lemma inventory_is_described_witness : Forall described (inventory inCave).
Proof.
  exact (proj1 (@inventory_is_described basicLatin inCave inCave_reachable)).
Defined.

(** * Properties of the image prompts *)

(** ** Words that are replaced *)

Lemma replaceAllFrom_no_match (m : matcher) (rep : list N) prev (s : list N) :
  testFrom m prev s = false -> replaceAllFrom m rep prev 0 s = s.
Proof.
  revert prev. induction s as [| c r IH]; intros prev; [reflexivity |].
  cbn [testFrom replaceAllFrom].
  destruct (m prev (c :: r)) as [[| k] |]; try discriminate;
    intros Ht; by rewrite (IH _ Ht).
Qed.

Lemma replaceAll_no_match (m : matcher) (rep s : list N) :
  test m s = false -> replaceAll m rep s = s.
Proof. apply replaceAllFrom_no_match. Qed.

(** X20.  A visual prompt with none of the words on the list, in
    whatever case, goes to the image model as it was written:
    [sanitizeVisualPrompt] changes only prompts in which one of its
    six patterns matches. *)
Theorem sanitizeVisualPrompt_keeps_clean (text : list N) :
  flagged text = false -> sanitizeVisualPrompt text = text.
Proof.
  unfold flagged. intros Hf.
  repeat (apply orb_false_elim in Hf as [Hf ?]).
  unfold sanitizeVisualPrompt.
  rewrite (replaceAll_no_match reKalimotxo) by assumption.
  rewrite (replaceAll_no_match reAlcohol) by assumption.
  rewrite (replaceAll_no_match reSoda) by assumption.
  rewrite (replaceAll_no_match reBrand) by assumption.
  rewrite (replaceAll_no_match reBlood) by assumption.
  by apply replaceAll_no_match.
Qed.

(** Witness of X20: a prompt that is kept, beside one that is not. *)
Lemma sanitizeVisualPrompt_keeps_clean_witness :
  sanitizeVisualPrompt (js "Una plaza con soportales y una fuente")
  = js "Una plaza con soportales y una fuente"
  /\ sanitizeVisualPrompt (js "A bottle of Kalimotxo and a BEER mug")
     = js "A bottle of dark red potion and a beverage mug".
Proof.
  split; [| vm_compute; reflexivity].
  exact (sanitizeVisualPrompt_keeps_clean
           (js "Una plaza con soportales y una fuente") eq_refl).
Defined.

(** ** Key elements *)

Lemma replaceAllFrom_skip (m : matcher) (rep : list N) prev (x r : list N) :
  exists prev',
    replaceAllFrom m rep prev (length x) (x ++ r) = replaceAllFrom m rep prev' 0 r.
Proof.
  revert prev. induction x as [| c x IH]; intros prev.
  - exists prev. by destruct r.
  - cbn [length app replaceAllFrom]. apply IH.
Qed.

Lemma takeWhile_app_all (p : N -> bool) (a b : list N) :
  forallb p a = true -> takeWhile p (a ++ b) = a ++ takeWhile p b.
Proof.
  induction a as [| c a IH]; [reflexivity |]. simpl.
  intros Ha. apply andb_prop in Ha as [-> Ha]. by rewrite IH.
Qed.

Lemma In_takeWhile (p : N -> bool) x (s : list N) : In x (takeWhile p s) -> In x s.
Proof.
  induction s as [| c s IH]; simpl; [tauto |].
  destruct (p c); simpl; [| tauto]. intros [-> | Hin]; auto.
Qed.

(** Without a closing unit nothing is removed. *)
Lemma reGroup_no_closing opening closing prev (s : list N) :
  ~ In closing s -> testFrom (reGroup opening closing) prev s = false.
Proof.
  revert prev. induction s as [| c r IH]; intros prev Hn; [reflexivity |].
  cbn [testFrom]. unfold reGroup at 1.
  assert (Hr : ~ In closing r) by (intros Hin; apply Hn; by right).
  destruct (c =? opening)%N.
  - rewrite lastIndexOf_absent; [by apply IH |].
    intros Hin. by apply Hr, (In_takeWhile _ _ _ Hin).
  - by apply IH.
Qed.

(** Without an opening unit nothing is removed either. *)
Lemma reGroup_no_opening opening closing prev (s : list N) :
  ~ In opening s -> testFrom (reGroup opening closing) prev s = false.
Proof.
  revert prev. induction s as [| c r IH]; intros prev Hn; [reflexivity |].
  cbn [testFrom]. unfold reGroup at 1.
  destruct (N.eqb_spec c opening) as [-> | _]; [exfalso; apply Hn; by left |].
  apply IH. intros Hin. apply Hn. by right.
Qed.

(** One pass over a text with a group: everything from the first
    opening unit to the last closing unit of its line goes. *)
Lemma replaceAll_group opening closing (a b c : list N) :
  isLineTerminator closing = false ->
  ~ In opening a -> oneLine b -> ~ In closing c ->
  replaceAll (reGroup opening closing) [] (a ++ opening :: b ++ closing :: c) = a ++ c.
Proof.
  intros Hcl Ha Hb Hc. unfold replaceAll. generalize (@None N).
  induction a as [| d a IH]; intros prev.
  - cbn [app replaceAllFrom]. unfold reGroup at 1. rewrite N.eqb_refl.
    rewrite (takeWhile_app_all _ _ _ Hb). cbn [takeWhile]. rewrite Hcl. cbn [negb].
    rewrite lastIndexOf_app_last
      by (intros Hin; by apply Hc, (In_takeWhile _ _ _ Hin)).
    replace (length b + 2) with (S (length (b ++ [closing])))
      by (rewrite length_app; simpl; lia).
    replace (b ++ closing :: c) with ((b ++ [closing]) ++ c)
      by (by rewrite <- app_assoc).
    destruct (replaceAllFrom_skip (reGroup opening closing) [] (Some opening)
                (b ++ [closing]) c) as (prev' & ->).
    cbn [app]. apply replaceAllFrom_no_match. by apply reGroup_no_closing.
  - cbn [app replaceAllFrom]. unfold reGroup at 1.
    destruct (N.eqb_spec d opening) as [-> | _]; [exfalso; apply Ha; by left |].
    rewrite IH; [reflexivity |]. intros Hin. apply Ha. by right.
Qed.

(** X21.  What [cleanElements] removes from a key element: all that
    lies between the first opening parenthesis and the last closing
    one of its line (and so the text between two groups in
    parentheses too), the same for square brackets, and the white
    space around what is left. *)
Theorem cleanElement_removes_groups (a b c : list N) :
  oneLine b ->
  (~ In 40%N a -> ~ In 91%N a -> ~ In 41%N c -> ~ In 91%N c ->
   cleanElement (a ++ js "(" ++ b ++ js ")" ++ c) = trim (a ++ c))
  /\ (~ In 40%N a -> ~ In 91%N a -> ~ In 40%N b -> ~ In 40%N c -> ~ In 93%N c ->
      cleanElement (a ++ js "[" ++ b ++ js "]" ++ c) = trim (a ++ c))
  /\ (~ In 40%N a -> ~ In 91%N a -> cleanElement a = trim a).
Proof.
  intros Hb. unfold cleanElement. split; [| split].
  - intros Ha1 Ha2 Hc1 Hc2.
    change (a ++ js "(" ++ b ++ js ")" ++ c) with (a ++ 40%N :: b ++ 41%N :: c).
    rewrite replaceAll_group by (reflexivity || assumption).
    rewrite replaceAll_no_match; [reflexivity |].
    apply reGroup_no_opening. intros Hin. apply in_app_or in Hin. tauto.
  - intros Ha1 Ha2 Hb1 Hc1 Hc2.
    change (a ++ js "[" ++ b ++ js "]" ++ c) with (a ++ 91%N :: b ++ 93%N :: c).
    rewrite (replaceAll_no_match (reGroup 40 41)).
    + by rewrite replaceAll_group by (reflexivity || assumption).
    + apply reGroup_no_opening. intros Hin.
      apply in_app_or in Hin as [Hin | [Hin | Hin]]; [tauto | discriminate |].
      apply in_app_or in Hin as [Hin | [Hin | Hin]]; [tauto | discriminate | tauto].
  - intros Ha1 Ha2.
    rewrite (replaceAll_no_match (reGroup 40 41)) by (by apply reGroup_no_opening).
    by rewrite (replaceAll_no_match (reGroup 91 93)) by (by apply reGroup_no_opening).
Qed.

(** Witness of X21: a tag, and two tags with a name between them. *)
Lemma cleanElement_removes_groups_witness :
  cleanElement (js "Guardia (NPC)") = js "Guardia"
  /\ cleanElement (js "Cofre [cerrado] ") = js "Cofre"
  /\ cleanElement (js "Puerta (norte) y ventana (rota)") = js "Puerta".
Proof.
  split; [| split].
  - refine (proj1 (cleanElement_removes_groups (js "Guardia ") (js "NPC") [] eq_refl)
              _ _ _ _); vm_compute; intuition discriminate.
  - refine (proj1 (proj2 (cleanElement_removes_groups (js "Cofre ") (js "cerrado")
                            (js " ") eq_refl)) _ _ _ _ _);
      vm_compute; intuition discriminate.
  - refine (proj1 (cleanElement_removes_groups (js "Puerta ")
                     (js "norte) y ventana (rota") [] eq_refl) _ _ _ _);
      vm_compute; intuition discriminate.
Defined.

Lemma join_nonempty (sep : list N) (l : list (list N)) :
  l <> [] -> Forall (fun e => e <> []) l -> join sep l <> [].
Proof.
  destruct l as [| a r]; [congruence |]. intros _ Hall.
  apply Forall_inv in Hall. cbn [join].
  destruct r; [exact Hall |]. by destruct a.
Qed.

(** X22.  The key elements that reach the prompt are never empty and
    carry no white space around them: an element that is blank, or
    nothing but a group in parentheses or brackets, is left out, so
    the list in the prompt has no empty place; and the list is empty
    only when no element is left. *)
Theorem cleanElements_has_no_gaps (keyElements : list (list N)) :
  Forall (fun el => el <> [] /\ trim el = el) (keptElements keyElements)
  /\ (cleanElements keyElements = [] <-> keptElements keyElements = [])
  /\ (forall el, cleanElement el = [] -> keptElements (el :: keyElements)
                                         = keptElements keyElements)
  /\ (forall el, forallb isWhiteSpace el = true -> cleanElement el = []).
Proof.
  assert (Hall : Forall (fun el => el <> [] /\ trim el = el) (keptElements keyElements)).
  { unfold keptElements.
    induction keyElements as [| k ks IH]; [constructor |].
    cbn [map List.filter].
    destruct (cleanElement k) as [| c r] eqn:E; [exact IH |].
    cbn [length Nat.ltb Nat.leb]. constructor; [| exact IH].
    split; [discriminate |]. rewrite <- E. unfold cleanElement. apply trim_idem. }
  split; [exact Hall |]. split; [| split].
  - unfold cleanElements. split.
    + intros Hj. destruct (keptElements keyElements) as [| a r] eqn:E; [reflexivity |].
      exfalso. revert Hj. apply join_nonempty; [discriminate |].
      eapply Forall_impl; [exact Hall |]. by intros e [He _].
    + by intros ->.
  - intros el Hel. unfold keptElements. cbn [map List.filter]. by rewrite Hel.
  - intros el Hel. unfold cleanElement.
    rewrite (replaceAll_no_match (reGroup 40 41)).
    + rewrite (replaceAll_no_match (reGroup 91 93)); [by apply trim_blank |].
      apply reGroup_no_opening. intros Hin.
      assert (Hw : isWhiteSpace 91 = true); [| discriminate].
      { rewrite forallb_forall in Hel. by apply Hel. }
    + apply reGroup_no_opening. intros Hin.
      assert (Hw : isWhiteSpace 40 = true); [| discriminate].
      { rewrite forallb_forall in Hel. by apply Hel. }
Qed.

(** * Names the sanitizer keeps *)

Lemma replaceFirstFrom_no_match (m : matcher) (rep : list N) prev (s : list N) :
  testFrom m prev s = false -> replaceFirstFrom m rep prev s = s.
Proof.
  revert prev. induction s as [| c r IH]; intros prev; [reflexivity |].
  cbn [testFrom replaceFirstFrom].
  destruct (m prev (c :: r)) as [[| k] |]; try discriminate;
    intros Ht; by rewrite (IH _ Ht).
Qed.

Lemma takeWhile_startsClean (s : list N) :
  startsClean s = true -> takeWhile isWhiteSpace s = [].
Proof.
  destruct s as [| c r]; [reflexivity |]. simpl.
  intros Hc. apply negb_true_iff in Hc. by rewrite Hc.
Qed.

Lemma dropWhile_startsClean (s : list N) :
  startsClean s = true -> dropWhile isWhiteSpace s = s.
Proof.
  destruct s as [| c r]; [reflexivity |]. simpl.
  intros Hc. apply negb_true_iff in Hc. by rewrite Hc.
Qed.

Lemma trim_clean (s : list N) :
  startsClean s = true -> endsClean s = true -> trim s = s.
Proof.
  intros Hst Hen. unfold trim, trimEnd, trimStart.
  rewrite (dropWhile_startsClean (rev s) Hen), rev_involutive.
  by apply dropWhile_startsClean.
Qed.

Lemma replaceAllFrom_spaced prev (s : list N) :
  spaced s = true -> replaceAllFrom reSpaces [32%N] prev 0 s = s.
Proof.
  revert prev. induction s as [| c r IH]; intros prev; [reflexivity |].
  cbn [spaced replaceAllFrom]. intros Hs. apply andb_prop in Hs as [Hc Hr].
  unfold reSpaces at 1. cbn [takeWhile].
  destruct (isWhiteSpace c) eqn:Hw.
  - simpl in Hc. apply andb_prop in Hc as [Hc Hst].
    apply N.eqb_eq in Hc as ->.
    rewrite (takeWhile_startsClean r Hst). cbn [length app].
    by rewrite (IH _ Hr).
  - by rewrite (IH _ Hr).
Qed.

Section GoodNames.
Context `{CaseMapping}.

(** X26.  A name that has nothing technical in it, whose white space
    is in order, that starts with a unit its upper case leaves alone
    and has at most 22 units is displayed as it is: the sanitizer
    changes only names that need it, and applied again to such a name
    it changes nothing. *)
Theorem sanitizeName_keeps_good_names (n : list N) :
  technical n = false ->
  spaced n = true -> startsClean n = true -> endsClean n = true ->
  n <> [] -> length n <= 22 ->
  toUpperCase (charAt0 n) = charAt0 n ->
  sanitizeName n = n
  /\ sanitizeName (sanitizeName n) = sanitizeName n
  /\ forall d, sanitizeItem {| name := n; description := Some d |}
               = {| name := n;
                    description := Some (if truthyStr d then d
                                         else placeholderDescription) |}.
Proof.
  unfold technical. intros Ht Hsp Hst Hen Hne Hlen Hup.
  repeat (apply orb_false_elim in Ht as [Ht ?]).
  assert (Hname : sanitizeName n = n).
  { unfold sanitizeName, cleanChain.
    rewrite (replaceAll_no_match reUnderscore) by assumption.
    unfold replaceFirst. rewrite replaceFirstFrom_no_match by assumption.
    rewrite (replaceAll_no_match reHexToken) by assumption.
    rewrite (replaceAll_no_match reVersion) by assumption.
    unfold replaceAll. change (js " ") with [32%N].
    rewrite (replaceAllFrom_spaced _ _ Hsp), (trim_clean _ Hst Hen).
    unfold capitalize.
    destruct (Nat.ltb_spec 0 (length n)) as [_ | Hz];
      [| destruct n; [congruence | simpl in Hz; lia]].
    rewrite Hup. unfold charAt0, slice1. rewrite take_drop.
    unfold truncateName.
    destruct (Nat.ltb_spec 22 (length n)) as [Hgt | _]; [lia |].
    unfold fallbackName. by destruct n. }
  split; [exact Hname |]. split; [by rewrite Hname |].
  intros d. unfold sanitizeItem. cbn [name description]. rewrite Hname.
  by destruct (truthyStr d).
Qed.

End GoodNames.

(** Witness of X26: a name as the prompt asks for it. *)
Lemma sanitizeName_keeps_good_names_witness :
  @sanitizeName basicLatin (js "Llave Vieja") = js "Llave Vieja".
Proof.
  refine (proj1 (@sanitizeName_keeps_good_names basicLatin (js "Llave Vieja")
                   _ _ _ _ _ _ _)); try (vm_compute; reflexivity).
  - vm_compute. discriminate.
  - vm_compute. lia.
Defined.

(** * Properties of the controls *)

(** ** Verb buttons *)

Lemma find_ext_in {A} (f g : A -> bool) (l : list A) :
  (forall x, In x l -> f x = g x) -> List.find f l = List.find g l.
Proof.
  induction l as [| a l IH]; [reflexivity |]. intros Hfg. simpl.
  rewrite (Hfg a) by (by left). destruct (g a); [reflexivity |].
  apply IH. intros x Hx. apply Hfg. by right.
Qed.

Lemma VERBS_basic v : In v VERBS -> basic v.
Proof.
  intros Hv. unfold VERBS in Hv. simpl in Hv.
  repeat destruct Hv as [<- | Hv]; try contradiction;
    unfold basic; repeat constructor.
Qed.

Lemma trim_buttonText v : In v VERBS -> trim (buttonText v) = v.
Proof.
  intros Hv. unfold VERBS in Hv. simpl in Hv.
  repeat destruct Hv as [<- | Hv]; try contradiction; vm_compute; reflexivity.
Qed.

(** No verb is the start of another: in the lower-case input the one
    that was typed is the one that is found. *)
Lemma find_typed_verb existing (rest' : list N) :
  In existing VERBS ->
  List.find (fun v => startsWith (map lowerBasicLatin v)
                        (map lowerBasicLatin existing ++ rest')) VERBS
  = Some existing.
Proof.
  intros Hv. unfold VERBS in Hv. simpl in Hv.
  repeat destruct Hv as [<- | Hv]; try contradiction; vm_compute; reflexivity.
Qed.

Section Verbs.
Context `{CaseMapping}.
Hypothesis Hlower : lowersBasicLatin.

Lemma toLowerCase_verb v : In v VERBS -> toLowerCase v = map lowerBasicLatin v.
Proof using Hlower.
  intros Hv. destruct (Hlower v [] (VERBS_basic v Hv)) as (rest' & E & Hn).
  rewrite app_nil_r in E. by rewrite E, (Hn eq_refl), app_nil_r.
Qed.

(** The input starts with a verb, in whatever case. *)
Lemma handleVerbClick_found verb existing typed rest :
  In existing VERBS -> basic typed ->
  map lowerBasicLatin typed = map lowerBasicLatin existing ->
  handleVerbClick verb (typed ++ rest) = trim verb ++ js " " ++ trim rest.
Proof using Hlower.
  intros Hv Hb Hsame. unfold handleVerbClick.
  destruct (Hlower typed rest Hb) as (rest' & E & _).
  rewrite (find_ext_in _ (fun v => startsWith (map lowerBasicLatin v)
                                     (map lowerBasicLatin existing ++ rest'))).
  2: { intros v Hin. by rewrite (toLowerCase_verb v Hin), E, Hsame. }
  rewrite (find_typed_verb _ _ Hv).
  assert (Hlen : length existing = length typed).
  { by rewrite <- (length_map lowerBasicLatin existing), <- Hsame, length_map. }
  by rewrite Hlen, drop_app_length.
Qed.

(** X23.  A click on a verb button replaces the verb the input starts
    with, in whatever case it was typed, and keeps what follows it,
    trimmed; the match is on the letters only, so a word that merely
    starts like a verb loses that start.  On an empty input the click
    leaves the verb and a space. *)
Theorem handleVerbClick_replaces (verb existing typed rest : list N) :
  In existing VERBS -> basic typed ->
  map lowerBasicLatin typed = map lowerBasicLatin existing ->
  handleVerbClick verb (typed ++ rest) = trim verb ++ js " " ++ trim rest
  /\ handleVerbClick verb [] = trim verb ++ js " ".
Proof using Hlower.
  intros Hv Hb Hsame.
  split; [by apply (handleVerbClick_found verb existing) |].
  unfold handleVerbClick.
  destruct (Hlower [] [] (List.Forall_nil _)) as (rest' & E & Hn).
  cbn [app map] in E. rewrite (Hn eq_refl) in E.
  rewrite (find_ext_in _ (fun v => startsWith (map lowerBasicLatin v) [])).
  2: { intros v Hin. by rewrite (toLowerCase_verb v Hin), E. }
  reflexivity.
Qed.

(** X24.  Verbs do not pile up: a click on a second button replaces
    the verb the first click put there, and what had been typed comes
    out trimmed behind the second verb. *)
Theorem handleVerbClick_no_stacking (first second input : list N) :
  In first VERBS -> In second VERBS ->
  exists typed,
    handleVerbClick (buttonText first) input = first ++ js " " ++ typed
    /\ handleVerbClick (buttonText second) (handleVerbClick (buttonText first) input)
       = second ++ js " " ++ trim typed
    /\ handleVerbClick (buttonText second)
         (handleVerbClick (buttonText second) (handleVerbClick (buttonText first) input))
       = second ++ js " " ++ trim typed.
Proof using Hlower.
  intros H1 H2.
  assert (Hfirst : exists typed,
             handleVerbClick (buttonText first) input = first ++ js " " ++ typed).
  { unfold handleVerbClick. rewrite (trim_buttonText _ H1).
    destruct (List.find _ VERBS); by eexists. }
  destruct Hfirst as (typed & Hfirst). exists typed.
  assert (Hagain : forall v t,
             In v VERBS ->
             handleVerbClick (buttonText second) (v ++ js " " ++ t)
             = second ++ js " " ++ trim t).
  { intros v t Hv.
    rewrite (handleVerbClick_found _ v v _ Hv (VERBS_basic v Hv) eq_refl).
    rewrite (trim_buttonText _ H2). do 2 f_equal.
    pose proof (trim_pad (js " ") t [] eq_refl eq_refl) as E.
    rewrite app_nil_r in E. exact E. }
  split; [exact Hfirst |]. rewrite Hfirst. rewrite (Hagain _ _ H1).
  split; [reflexivity |]. by rewrite (Hagain _ _ H2), trim_idem.
Qed.

End Verbs.

Lemma basicLatin_lowers : @lowersBasicLatin basicLatin.
Proof.
  intros u rest _. exists (map lowerBasicLatin rest).
  cbn [toLowerCase basicLatin]. split; [apply map_app | by intros ->].
Qed.

(** Witness of X23: the player typed a verb in capitals, then a word
    that starts like a verb. *)
Lemma handleVerbClick_replaces_witness :
  @handleVerbClick basicLatin (js "Coger ") (js "MIRAR  la llave ") = js "Coger la llave"
  /\ @handleVerbClick basicLatin (js "Mirar ") (js "Usarlo todo") = js "Mirar lo todo".
Proof.
  split.
  - exact (proj1 (@handleVerbClick_replaces basicLatin basicLatin_lowers
                    (js "Coger ") (js "Mirar") (js "MIRAR") (js "  la llave ")
                    (or_intror (or_introl eq_refl))
                    ltac:(unfold basic; repeat constructor) eq_refl)).
  - exact (proj1 (@handleVerbClick_replaces basicLatin basicLatin_lowers
                    (js "Mirar ") (js "Usar") (js "Usar") (js "lo todo")
                    ltac:(unfold VERBS; simpl; tauto)
                    ltac:(unfold basic; repeat constructor) eq_refl)).
Defined.

(** Witness of X24: two clicks on an input that was typed by hand. *)
Lemma handleVerbClick_no_stacking_witness :
  @handleVerbClick basicLatin (js "Usar ")
    (@handleVerbClick basicLatin (js "Ir a ") (js " la llave")) = js "Usar la llave".
Proof.
  destruct (@handleVerbClick_no_stacking basicLatin basicLatin_lowers
              (js "Ir a") (js "Usar") (js " la llave")
              (or_introl eq_refl)
              ltac:(unfold VERBS; simpl; tauto)) as (typed & H1 & H2 & _).
  change (js "Usar ") with (buttonText (js "Usar")).
  change (js "Ir a ") with (buttonText (js "Ir a")).
  rewrite H2. vm_compute in H1.
  injection H1 as <-. vm_compute. reflexivity.
Defined.

(** ** The typing effect *)

Lemma ticks_idle (text : list N) (n : nat) :
  Terminal.ticks text n (Terminal.effect true) = Terminal.effect true.
Proof.
  induction n as [| n IH]; [reflexivity |]. cbn [Terminal.ticks]. by rewrite IH.
Qed.

Lemma ticks_typing (text : list N) (n : nat) :
  Terminal.ticks text n (Terminal.effect false)
  = {| Terminal.currentIndex := Nat.min n (length text);
       Terminal.displayedText := take n text;
       Terminal.interval := n <=? length text |}.
Proof.
  induction n as [| n IH]; [reflexivity |].
  cbn [Terminal.ticks]. rewrite IH. unfold Terminal.tick.
  cbn [Terminal.interval Terminal.currentIndex Terminal.displayedText].
  destruct (Nat.leb_spec n (length text)) as [Hle | Hgt].
  - rewrite Nat.min_l by exact Hle.
    destruct (Nat.ltb_spec n (length text)) as [Hlt | Hge].
    + rewrite Nat.min_l by lia. rewrite Nat.add_1_r.
      destruct (Nat.leb_spec (S n) (length text)); [reflexivity | lia].
    + assert (n = length text) as -> by lia.
      rewrite Nat.min_r by lia. rewrite firstn_all.
      rewrite take_ge by lia.
      destruct (Nat.leb_spec (S (length text)) (length text)); [lia | reflexivity].
  - rewrite !Nat.min_r by lia. rewrite !take_ge by lia.
    destruct (Nat.leb_spec (S n) (length text)); [lia | reflexivity].
Qed.

(** X25.  The typing effect of the terminal: after [n] firings of its
    timer the narrative is shown up to its [n]-th unit, never anything
    but a prefix of it; it is shown in full from the firing that
    equals its length on, and the firing after that one clears the
    timer.  While a reply is awaited nothing is typed at all. *)
Theorem typing_effect (text : list N) (n : nat) :
  Terminal.ticks text n (Terminal.effect false)
  = {| Terminal.currentIndex := Nat.min n (length text);
       Terminal.displayedText := take n text;
       Terminal.interval := n <=? length text |}
  /\ (length text <= n ->
      Terminal.shown false (Terminal.ticks text n (Terminal.effect false)) = text)
  /\ Terminal.ticks text n (Terminal.effect true) = Terminal.effect true
  /\ Terminal.shown true (Terminal.ticks text n (Terminal.effect true))
     = js "Pensando...".
Proof.
  split; [apply ticks_typing |]. split.
  - intros Hle. rewrite ticks_typing. cbn [Terminal.shown Terminal.displayedText].
    by apply take_ge.
  - split; [apply ticks_idle | reflexivity].
Qed.
